(** * RuleSet controller: a shallow embedding of
    [pkg/controllers/ruleset/ruleset_controller.go]

    The reconcile driver, the ownership loop, the stage merge, the status
    diff, the deletion gate and the change notifier are translated into
    functions over an explicit cluster state.  Collaborators that live in
    other packages (object store client, expectation tracker, rule
    processor, work queues) are modelled next to them and marked as such. *)

From Stdlib Require Import ZArith Ascii String List.
From stdpp Require Import gmap strings list fin_maps sorting.

Local Open Scope Z_scope.

(* ================================================================== *)
(** * Part I: definitions                                              *)
(* ================================================================== *)

(** ** Go runtime choices

    Go leaves the iteration order of [range] over a map unspecified, and
    the goroutines of [process] take the merge lock in an order chosen by
    the scheduler.  Both choices are made explicit: a runtime picks, for
    every list of entries, the order in which they are visited. *)

Record GoRuntime := {
  range_order : ∀ A : Type, list A → list A;
  range_order_perm : ∀ (A : Type) (l : list A), range_order A l ≡ₚ l
}.
Arguments range_order _ {_} _.

Definition go_range {A} (rt : GoRuntime) (m : gmap string A) : list (string * A) :=
  range_order rt (map_to_list m).

Definition runtime_inorder : GoRuntime :=
  {| range_order := λ _ l, l; range_order_perm := λ _ l, reflexivity l |}.

Definition runtime_reversed : GoRuntime :=
  {| range_order := λ _ l, reverse l; range_order_perm := λ _ l, reverse_Permutation l |}.

(** ** Strings as Go orders them ([sort.Strings], [sets.String.List]) *)

Definition string_le (a b : string) : Prop := String.leb a b = true.
Definition string_lt (a b : string) : Prop := String.ltb a b = true.

Global Instance string_le_dec : RelDecision string_le.
Proof. intros a b. unfold string_le. apply _. Defined.
Global Instance string_lt_dec : RelDecision string_lt.
Proof. intros a b. unfold string_lt. apply _. Defined.

(** [sort.Strings(keys)] *)
Definition sort_Strings (keys : list string) : list string :=
  merge_sort string_le keys.

(** [sets.String.List()]: the members, ranged over and then sorted. *)
Definition sets_String_List (rt : GoRuntime) (s : gset string) : list string :=
  sort_Strings (range_order rt (elements s)).

(** ** API types (package [apis/apps/v1alpha1])

    Modelled from the spec: the type declarations are not part of the
    controller file; the fields are the ones the controller reads and
    writes, as listed in the data model of the specification. *)

Record RejectInfo := {
  reject_RuleName : string;
  reject_Reason : string
}.

(** Modelled from the spec: a per-rule aggregate state.  The controller
    only collects and compares these values, so one is identified with
    its serialized form. *)
Definition RuleState : Type := string.

Record Detail := {
  detail_Name : string;
  detail_Stage : string;
  detail_Passed : bool;
  detail_PassedRules : list string;
  detail_RejectInfo : list RejectInfo
}.

Record RuleSetStatus := {
  status_Targets : list string;
  status_ObservedGeneration : Z;
  status_Details : list Detail;
  status_RuleStates : list RuleState;
  status_UpdateTime : option Z
}.

Global Instance RejectInfo_eq_dec : EqDecision RejectInfo.
Proof. solve_decision. Defined.
Global Instance Detail_eq_dec : EqDecision Detail.
Proof. solve_decision. Defined.

(** Object identity: namespace and name ([types.NamespacedName]). *)
Definition ObjKey : Type := string * string.

Record Pod := {
  pod_Namespace : string;
  pod_Name : string;
  pod_ResourceVersion : N;
  pod_DeletionTimestamp : option Z;
  pod_Labels : gmap string string;
  (* the decoded ownership annotation: names of the rulesets claiming it *)
  pod_RuleSets : list string
}.

Record RuleSet := {
  rs_Namespace : string;
  rs_Name : string;
  rs_ResourceVersion : N;
  rs_Generation : Z;
  rs_DeletionTimestamp : option Z;
  rs_Labels : gmap string string;
  rs_Finalizers : list string;
  (* Spec.Selector, as its matchLabels *)
  rs_Selector : gmap string string;
  rs_Status : RuleSetStatus
}.

Definition pod_key (p : Pod) : ObjKey := (pod_Namespace p, pod_Name p).
Definition rs_key (rs : RuleSet) : ObjKey := (rs_Namespace rs, rs_Name rs).

(** ** Stage results (package [processor])

    Modelled from the spec: [processor.ProcessResult] is declared outside
    the controller file; its fields are those [process] and
    [updateDetail] read. *)

Record Rejected := {
  rej_RuleName : string;
  rej_Reason : string
}.

Record ProcessResult := {
  res_Interval : option Z;             (* *time.Duration *)
  res_RuleStates : list RuleState;
  res_Retry : bool;
  res_PassRules : gmap string (gset string);
  res_Rejected : gmap string Rejected
}.

(** ** [updateDetail] *)

(** One iteration of the loop body, for target [po] with passed rules
    [rules]. *)
Definition updateDetail_body (rt : GoRuntime) (passRules : ProcessResult)
    (stage : string) (details : gmap string Detail)
    (po : string) (rules : gset string) : gmap string Detail :=
  let rejectInfo : option RejectInfo :=
    match res_Rejected passRules !! po with
    | Some rej => Some {| reject_RuleName := rej_RuleName rej;
                          reject_Reason := rej_Reason rej |}
    | None => None
    end in
  let detail :=
    match details !! po with
    | Some detail => detail
    | None => {| detail_Name := po; detail_Stage := stage; detail_Passed := false;
                 detail_PassedRules := []; detail_RejectInfo := [] |}
    end in
  let passedRules := detail_PassedRules detail ++ sets_String_List rt rules in
  let rejects :=
    match rejectInfo with
    | Some ri => detail_RejectInfo detail ++ [ri]
    | None => detail_RejectInfo detail
    end in
  <[po := {| detail_Name := detail_Name detail;
             detail_Stage := detail_Stage detail;
             detail_Passed := bool_decide (length rejects = 0%nat);
             detail_PassedRules := passedRules;
             detail_RejectInfo := rejects |}]> details.

Definition updateDetail (rt : GoRuntime) (details : gmap string Detail)
    (passRules : ProcessResult) (stage : string) : gmap string Detail :=
  foldl (λ ds '(po, rules), updateDetail_body rt passRules stage ds po rules)
        details (go_range rt (res_PassRules passRules)).

(** What one iteration leaves under [po], given what was there. *)
Definition updateDetail_entry (rt : GoRuntime) (passRules : ProcessResult)
    (stage : string) (po : string) (rules : gset string) (old : option Detail) : Detail :=
  let detail :=
    match old with
    | Some detail => detail
    | None => {| detail_Name := po; detail_Stage := stage; detail_Passed := false;
                 detail_PassedRules := []; detail_RejectInfo := [] |}
    end in
  let rejects :=
    match res_Rejected passRules !! po with
    | Some rej => detail_RejectInfo detail ++
                    [{| reject_RuleName := rej_RuleName rej; reject_Reason := rej_Reason rej |}]
    | None => detail_RejectInfo detail
    end in
  {| detail_Name := detail_Name detail;
     detail_Stage := detail_Stage detail;
     detail_Passed := bool_decide (length rejects = 0%nat);
     detail_PassedRules := detail_PassedRules detail ++ sets_String_List rt rules;
     detail_RejectInfo := rejects |}.

(** The invariant of a detail. *)
Definition detail_ok (d : Detail) : Prop :=
  detail_Passed d = true ↔ detail_RejectInfo d = [].

(** The name of a detail is the key it is stored under. *)
Definition detail_named (po : string) (d : Detail) : Prop := detail_Name d = po.

(** ** The merge of [process]

    Each goroutine evaluates its stage and then, holding the lock, folds
    its result into the four accumulators. *)

Record Merged := {
  m_shouldRetry : bool;
  m_interval : option Z;
  m_details : gmap string Detail;
  m_ruleStates : list RuleState
}.

Definition Merged_init : Merged :=
  {| m_shouldRetry := false; m_interval := None; m_details := ∅; m_ruleStates := [] |}.

(** The critical section of one goroutine. *)
Definition merge_locked (rt : GoRuntime) (acc : Merged)
    (currentStage : string) (res : ProcessResult) : Merged :=
  let interval :=
    match res_Interval res with
    | Some ri =>
        match m_interval acc with
        | None => Some ri
        | Some cur => if bool_decide (cur > ri) then Some ri else Some cur
        end
    | None => m_interval acc
    end in
  let ruleStates := m_ruleStates acc ++ res_RuleStates res in
  let shouldRetry := if res_Retry res then true else m_shouldRetry acc in
  {| m_shouldRetry := shouldRetry;
     m_interval := interval;
     m_details := updateDetail rt (m_details acc) res currentStage;
     m_ruleStates := ruleStates |}.

(** All critical sections, in the order the lock was taken. *)
Definition merge_all (rt : GoRuntime) (results : list (string * ProcessResult)) : Merged :=
  foldl (λ acc '(stage, res), merge_locked rt acc stage res) Merged_init results.

(** The same fold, started from any accumulator. *)
Definition merge_from (rt : GoRuntime) (acc : Merged)
    (results : list (string * ProcessResult)) : Merged :=
  foldl (λ acc '(stage, res), merge_locked rt acc stage res) acc results.

(** ** [equalStatus]

    [equality.Semantic.DeepEqual] follows pointers and identifies a nil
    slice with an empty one, so on the list representation it is equality
    of the lists. *)
Definition equalStatus (updated current : RuleSetStatus) : bool :=
  bool_decide (status_Targets updated = status_Targets current) &&
  bool_decide (status_Details updated = status_Details current) &&
  bool_decide (status_RuleStates updated = status_RuleStates current) &&
  bool_decide (status_ObservedGeneration updated = status_ObservedGeneration current).

(** ** Notification sinks ([podEventQueues])

    A sink is a delaying work queue; the model keeps whether it is
    shutting down and the keys handed to its [Add], oldest first. *)
Record Queue := {
  q_shuttingDown : bool;
  q_added : list ObjKey
}.

Definition Queue_Add (q : Queue) (key : ObjKey) : Queue :=
  {| q_shuttingDown := q_shuttingDown q; q_added := q_added q ++ [key] |}.

(** [addToEveryQueue] *)
Definition addToEveryQueue (queues : list Queue) (namespace name : string) : list Queue :=
  (λ q, if q_shuttingDown q then q else Queue_Add q (namespace, name)) <$> queues.

(** [addQueues] *)
Definition addQueues (rt : GoRuntime) (queues : list Queue) (rs : RuleSet)
    (details oldDetails : gmap string Detail) : list Queue :=
  if bool_decide (length queues = 0%nat) then queues else
  let queues :=
    foldl (λ qs '(name, old),
             match details !! name with
             | None => addToEveryQueue qs (rs_Namespace rs) name
             | Some detail =>
                 if negb (bool_decide (old = detail))
                 then addToEveryQueue qs (rs_Namespace rs) name
                 else qs
             end)
          queues (go_range rt oldDetails) in
  foldl (λ qs '(name, _),
           match oldDetails !! name with
           | None => addToEveryQueue qs (rs_Namespace rs) name
           | Some _ => qs
           end)
        queues (go_range rt details).

(** ** The status snapshot (lines 197-215 of [Reconcile]) *)

Definition detailList (rt : GoRuntime) (details : gmap string Detail) : list Detail :=
  let keys := (go_range rt details).*1 in
  let keys := sort_Strings keys in
  omap (λ key, details !! key) keys.

Definition newStatus (rt : GoRuntime) (ruleSet : RuleSet)
    (selectedPodNames : gset string) (details : gmap string Detail)
    (ruleStates : list RuleState) (now : Z) : RuleSetStatus :=
  {| status_Targets := sets_String_List rt selectedPodNames;
     status_ObservedGeneration := rs_Generation ruleSet;
     status_Details := detailList rt details;
     status_RuleStates := ruleStates;
     status_UpdateTime := Some now |}.

(** ** Errors and results *)

(** An operand of a format verb: an object key ([utils.ObjectKey],
    [reconcile.Request]) or a name. *)
Inductive FmtArg :=
| ArgKey (key : ObjKey)
| ArgName (name : string).

(** [ErrErrorf format args cause] is [fmt.Errorf(format, args..., cause)]:
    a new error whose text renders the operands and the cause.  The verbs
    [%v] and [%s] do not wrap the cause, so the result is neither a
    not-found nor a conflict error. *)
Inductive Err :=
| ErrNotFound
| ErrConflict
| ErrOther (msg : string)
| ErrErrorf (format : string) (args : list FmtArg) (cause : Err).

Definition IsNotFound (err : Err) : bool :=
  match err with ErrNotFound => true | _ => false end.
Definition IsConflict (err : Err) : bool :=
  match err with ErrConflict => true | _ => false end.

(** [reconcile.Result]; durations are nanoseconds. *)
Record Result := {
  Requeue : bool;
  RequeueAfter : Z
}.
Definition Result_empty : Result := {| Requeue := false; RequeueAfter := 0 |}.
Definition Second : Z := 1000000000.

(** What [Reconcile] hands back: [(result, reconcileErr)]. *)
Definition Return : Type := Result * option Err.

Definition cleanUpFinalizer : string := "ruleset.kafed.kusionstack.io/need-clean-up".
Definition rulesetTerminatingLabel : string := "ruleset.kafed.kusionstack.io/terminating".

(** ** Ownership mutations (package [rulesetutils])

    The two functions handed to [updateRuleSetOnPod]. *)
Inductive OwnerFn := AddRuleSetAnno | MoveRulesetAnno.

Definition with_pod_RuleSets (owners : list string) (pod : Pod) : Pod :=
  {| pod_Namespace := pod_Namespace pod; pod_Name := pod_Name pod;
     pod_ResourceVersion := pod_ResourceVersion pod;
     pod_DeletionTimestamp := pod_DeletionTimestamp pod;
     pod_Labels := pod_Labels pod; pod_RuleSets := owners |}.

(** Modelled from the spec: [rulesetutils.AddRuleSetAnno] and
    [rulesetutils.MoveRulesetAnno] are not part of the controller file.
    They edit the ownership annotation and report whether the pod changed;
    they are idempotent (applying one twice is a no-op). *)
Definition OwnerFn_apply (fn : OwnerFn) (pod : Pod) (name : string) : Pod * bool :=
  match fn with
  | AddRuleSetAnno =>
      if bool_decide (name ∈ pod_RuleSets pod) then (pod, false)
      else (with_pod_RuleSets (pod_RuleSets pod ++ [name]) pod, true)
  | MoveRulesetAnno =>
      if bool_decide (name ∈ pod_RuleSets pod)
      then (with_pod_RuleSets (filter (λ n, n ≠ name) (pod_RuleSets pod)) pod, true)
      else (pod, false)
  end.

(** ** The cluster as the controller sees it *)

(** What a pass does to the outside world, in order: every client call
    (also a failing one), every application of an ownership mutation,
    every stage evaluation and every recorded event. *)
Inductive Event :=
| EvGetRuleSet (key : ObjKey)
| EvListPods (namespace : string)
| EvGetPod (key : ObjKey)
| EvUpdatePod (key : ObjKey)
| EvUpdateRuleSet (key : ObjKey)
| EvUpdateStatus (key : ObjKey)
| EvMutate (fn : OwnerFn) (pod : ObjKey) (ruleSet : string)
| EvProcess (stage : string)
| EvRecord (eventtype reason : string).

Record World := {
  w_rulesets : gmap ObjKey RuleSet;
  w_pods : gmap ObjKey Pod;
  (* errors the store will answer the coming calls with, one entry per
     call; [None], or an exhausted script, lets the call through *)
  w_faults : list (option Err);
  w_rsExpect : gmap ObjKey N;    (* rulesetutils.RulesetVersionExpectation *)
  w_podExpect : gmap ObjKey N;   (* rulesetutils.PodVersionExpectation *)
  w_queues : list Queue;         (* podEventQueues *)
  w_now : Z;                     (* time.Now() *)
  w_trace : list Event
}.

Definition with_rulesets (x : gmap ObjKey RuleSet) (w : World) : World :=
  {| w_rulesets := x; w_pods := w_pods w; w_faults := w_faults w;
     w_rsExpect := w_rsExpect w; w_podExpect := w_podExpect w;
     w_queues := w_queues w; w_now := w_now w; w_trace := w_trace w |}.
Definition with_pods (x : gmap ObjKey Pod) (w : World) : World :=
  {| w_rulesets := w_rulesets w; w_pods := x; w_faults := w_faults w;
     w_rsExpect := w_rsExpect w; w_podExpect := w_podExpect w;
     w_queues := w_queues w; w_now := w_now w; w_trace := w_trace w |}.
Definition with_faults (x : list (option Err)) (w : World) : World :=
  {| w_rulesets := w_rulesets w; w_pods := w_pods w; w_faults := x;
     w_rsExpect := w_rsExpect w; w_podExpect := w_podExpect w;
     w_queues := w_queues w; w_now := w_now w; w_trace := w_trace w |}.
Definition with_rsExpect (x : gmap ObjKey N) (w : World) : World :=
  {| w_rulesets := w_rulesets w; w_pods := w_pods w; w_faults := w_faults w;
     w_rsExpect := x; w_podExpect := w_podExpect w;
     w_queues := w_queues w; w_now := w_now w; w_trace := w_trace w |}.
Definition with_podExpect (x : gmap ObjKey N) (w : World) : World :=
  {| w_rulesets := w_rulesets w; w_pods := w_pods w; w_faults := w_faults w;
     w_rsExpect := w_rsExpect w; w_podExpect := x;
     w_queues := w_queues w; w_now := w_now w; w_trace := w_trace w |}.
Definition with_queues (x : list Queue) (w : World) : World :=
  {| w_rulesets := w_rulesets w; w_pods := w_pods w; w_faults := w_faults w;
     w_rsExpect := w_rsExpect w; w_podExpect := w_podExpect w;
     w_queues := x; w_now := w_now w; w_trace := w_trace w |}.
Definition log (ev : Event) (w : World) : World :=
  {| w_rulesets := w_rulesets w; w_pods := w_pods w; w_faults := w_faults w;
     w_rsExpect := w_rsExpect w; w_podExpect := w_podExpect w;
     w_queues := w_queues w; w_now := w_now w; w_trace := w_trace w ++ [ev] |}.

(** ** The object store client ([client.Client])

    The store is an external collaborator.  A call is logged, then fails
    with the scripted error if there is one, and otherwise acts on the
    stored objects: a read of a missing object is not-found, a write
    against a stale resource version is a conflict, a successful write
    bumps the resource version. *)

Definition Client (A : Type) : Type := World → (Err + A) * World.

Definition api_call (ev : Event) (w : World) : option Err * World :=
  let w := log ev w in
  match w_faults w with
  | [] => (None, w)
  | fault :: rest => (fault, with_faults rest w)
  end.

Definition client_Get_RuleSet (key : ObjKey) : Client RuleSet := λ w,
  let '(fault, w) := api_call (EvGetRuleSet key) w in
  match fault with
  | Some err => (inl err, w)
  | None =>
      match w_rulesets w !! key with
      | Some rs => (inr rs, w)
      | None => (inl ErrNotFound, w)
      end
  end.

Definition client_Get_Pod (key : ObjKey) : Client Pod := λ w,
  let '(fault, w) := api_call (EvGetPod key) w in
  match fault with
  | Some err => (inl err, w)
  | None =>
      match w_pods w !! key with
      | Some pod => (inr pod, w)
      | None => (inl ErrNotFound, w)
      end
  end.

Definition selector_matches (selector labels : gmap string string) : bool :=
  bool_decide (map_Forall (λ k v, labels !! k = Some v) selector).

Definition client_List_Pods (rt : GoRuntime) (namespace : string)
    (selector : gmap string string) : Client (list Pod) := λ w,
  let '(fault, w) := api_call (EvListPods namespace) w in
  match fault with
  | Some err => (inl err, w)
  | None =>
      (inr (filter (λ pod, pod_Namespace pod = namespace
                           ∧ selector_matches selector (pod_Labels pod) = true)
                   (range_order rt (map_to_list (w_pods w)).*2)), w)
  end.

Definition with_pod_ResourceVersion (rv : N) (pod : Pod) : Pod :=
  {| pod_Namespace := pod_Namespace pod; pod_Name := pod_Name pod;
     pod_ResourceVersion := rv;
     pod_DeletionTimestamp := pod_DeletionTimestamp pod;
     pod_Labels := pod_Labels pod; pod_RuleSets := pod_RuleSets pod |}.

Definition client_Update_Pod (pod : Pod) : Client Pod := λ w,
  let '(fault, w) := api_call (EvUpdatePod (pod_key pod)) w in
  match fault with
  | Some err => (inl err, w)
  | None =>
      match w_pods w !! pod_key pod with
      | None => (inl ErrNotFound, w)
      | Some cur =>
          if bool_decide (pod_ResourceVersion cur = pod_ResourceVersion pod) then
            let stored := with_pod_ResourceVersion (N.succ (pod_ResourceVersion pod)) pod in
            (inr stored, with_pods (<[pod_key pod := stored]> (w_pods w)) w)
          else (inl ErrConflict, w)
      end
  end.

Definition with_rs_Status (st : RuleSetStatus) (rs : RuleSet) : RuleSet :=
  {| rs_Namespace := rs_Namespace rs; rs_Name := rs_Name rs;
     rs_ResourceVersion := rs_ResourceVersion rs; rs_Generation := rs_Generation rs;
     rs_DeletionTimestamp := rs_DeletionTimestamp rs; rs_Labels := rs_Labels rs;
     rs_Finalizers := rs_Finalizers rs; rs_Selector := rs_Selector rs;
     rs_Status := st |}.
Definition with_rs_ResourceVersion (rv : N) (rs : RuleSet) : RuleSet :=
  {| rs_Namespace := rs_Namespace rs; rs_Name := rs_Name rs;
     rs_ResourceVersion := rv; rs_Generation := rs_Generation rs;
     rs_DeletionTimestamp := rs_DeletionTimestamp rs; rs_Labels := rs_Labels rs;
     rs_Finalizers := rs_Finalizers rs; rs_Selector := rs_Selector rs;
     rs_Status := rs_Status rs |}.
Definition with_rs_Finalizers (fs : list string) (rs : RuleSet) : RuleSet :=
  {| rs_Namespace := rs_Namespace rs; rs_Name := rs_Name rs;
     rs_ResourceVersion := rs_ResourceVersion rs; rs_Generation := rs_Generation rs;
     rs_DeletionTimestamp := rs_DeletionTimestamp rs; rs_Labels := rs_Labels rs;
     rs_Finalizers := fs; rs_Selector := rs_Selector rs;
     rs_Status := rs_Status rs |}.

(** [r.Status().Update]: only the status of the stored object changes. *)
Definition client_Status_Update (rs : RuleSet) : Client RuleSet := λ w,
  let '(fault, w) := api_call (EvUpdateStatus (rs_key rs)) w in
  match fault with
  | Some err => (inl err, w)
  | None =>
      match w_rulesets w !! rs_key rs with
      | None => (inl ErrNotFound, w)
      | Some cur =>
          if bool_decide (rs_ResourceVersion cur = rs_ResourceVersion rs) then
            let stored := with_rs_ResourceVersion (N.succ (rs_ResourceVersion cur))
                            (with_rs_Status (rs_Status rs) cur) in
            (inr stored, with_rulesets (<[rs_key rs := stored]> (w_rulesets w)) w)
          else (inl ErrConflict, w)
      end
  end.

(** [r.Update] on a ruleset: everything but the status is written; an
    object under deletion disappears with its last finalizer. *)
Definition client_Update_RuleSet (rs : RuleSet) : Client RuleSet := λ w,
  let '(fault, w) := api_call (EvUpdateRuleSet (rs_key rs)) w in
  match fault with
  | Some err => (inl err, w)
  | None =>
      match w_rulesets w !! rs_key rs with
      | None => (inl ErrNotFound, w)
      | Some cur =>
          if bool_decide (rs_ResourceVersion cur = rs_ResourceVersion rs) then
            let stored := with_rs_ResourceVersion (N.succ (rs_ResourceVersion cur))
                            (with_rs_Status (rs_Status cur) rs) in
            if bool_decide (is_Some (rs_DeletionTimestamp stored) ∧ rs_Finalizers stored = [])
            then (inr stored, with_rulesets (delete (rs_key rs) (w_rulesets w)) w)
            else (inr stored, with_rulesets (<[rs_key rs := stored]> (w_rulesets w)) w)
          else (inl ErrConflict, w)
      end
  end.

(** Modelled from the spec: [utils.AddFinalizer] and
    [utils.RemoveFinalizer] are not part of the controller file.  The
    finalizer is added if absent, removed if present, with one write. *)
Definition utils_AddFinalizer (rs : RuleSet) (finalizer : string)
    : World → (option Err * RuleSet) * World := λ w,
  if bool_decide (finalizer ∈ rs_Finalizers rs) then ((None, rs), w)
  else
    let rs' := with_rs_Finalizers (rs_Finalizers rs ++ [finalizer]) rs in
    match client_Update_RuleSet rs' w with
    | (inl err, w) => ((Some err, rs'), w)
    | (inr stored, w) => ((None, stored), w)
    end.

Definition utils_RemoveFinalizer (rs : RuleSet) (finalizer : string)
    : World → option Err * World := λ w,
  if bool_decide (finalizer ∈ rs_Finalizers rs) then
    let rs' := with_rs_Finalizers (filter (λ f, f ≠ finalizer) (rs_Finalizers rs)) rs in
    match client_Update_RuleSet rs' w with
    | (inl err, w) => (Some err, w)
    | (inr _, w) => (None, w)
    end
  else (None, w).

(** ** The expectation guard (package [rulesetutils])

    Modelled from the spec: the tracker is an external collaborator, a
    keyed table of base versions.  [ExpectUpdate] records the version a
    write was issued from; [SatisfiedExpectations] is false while the
    observed version has not moved past it, and clears the record once it
    has; [DeleteExpectations] clears the record. *)
Definition SatisfiedExpectations (tbl : gmap ObjKey N) (key : ObjKey) (observed : N)
    : bool * gmap ObjKey N :=
  match tbl !! key with
  | None => (true, tbl)
  | Some base =>
      if bool_decide (base < observed)%N then (true, delete key tbl) else (false, tbl)
  end.

Definition ExpectUpdate (tbl : gmap ObjKey N) (key : ObjKey) (base : N) : gmap ObjKey N :=
  <[key := base]> tbl.

Definition DeleteExpectations (tbl : gmap ObjKey N) (key : ObjKey) : gmap ObjKey N :=
  delete key tbl.

(** ** [retry.RetryOnConflict] (client-go)

    [retry.OnError] runs the closure up to [Steps] times; a retriable
    error leads to another attempt, any other outcome is returned; when
    the attempts are used up the last retriable error is returned.  The
    closure's captured variables are its state [S]. *)
Fixpoint OnError {S : Type} (steps : nat) (retriable : Err → bool)
    (fn : S → World → (option Err * S) * World)
    (lastErr : option Err) (s : S) (w : World) : (option Err * S) * World :=
  match steps with
  | O => ((lastErr, s), w)
  | Datatypes.S steps' =>
      match fn s w with
      | ((None, s'), w') => ((None, s'), w')
      | ((Some err, s'), w') =>
          if retriable err then OnError steps' retriable fn (Some err) s' w'
          else ((Some err, s'), w')
      end
  end.

(** [retry.DefaultRetry.Steps] *)
Definition DefaultRetry_Steps : nat := 5.

Definition RetryOnConflict {S : Type} (steps : nat)
    (fn : S → World → (option Err * S) * World) : S → World → (option Err * S) * World :=
  OnError steps IsConflict fn None.

(** ** The reconciler *)

(** [RuleSetReconciler]: the stage list of the embedded [register.Policy]
    and the rule processor it builds per stage.  A stage evaluation is an
    external collaborator; it is a function of the stage, the ruleset and
    the target pods. *)
Record RuleSetReconciler := {
  GetStages : list string;
  Process : string → RuleSet → gmap string Pod → ProcessResult
}.

(** *** Control flow of a pass

    A step of [Reconcile] either leaves the function with its return
    values or goes on with a value. *)
Definition Step (A : Type) : Type := World → (Return + A) * World.

Definition step_ret {A} (a : A) : Step A := λ w, (inr a, w).
Definition step_exit {A} (r : Return) : Step A := λ w, (inl r, w).
Definition step_bind {A B} (c : Step A) (k : A → Step B) : Step B := λ w,
  match c w with
  | (inl r, w') => (inl r, w')
  | (inr a, w') => k a w'
  end.

Notation "'let*' x ':=' c 'in' k" := (step_bind c (λ x, k))
  (at level 10, x pattern, c at level 100, k at level 200).

(** a call returning a value and an error: [if err != nil { return h err }] *)
Definition on_err {A} (c : Client A) (h : Err → Return) : Step A := λ w,
  match c w with
  | (inl err, w') => (inl (h err), w')
  | (inr a, w') => (inr a, w')
  end.

(** a call returning only an error *)
Definition on_fail (c : World → option Err * World) (h : Err → Return) : Step unit := λ w,
  match c w with
  | (Some err, w') => (inl (h err), w')
  | (None, w') => (inr tt, w')
  end.

(** a [for] loop whose body may return from the function *)
Fixpoint step_for {A B} (body : A → B → Step A) (a : A) (l : list B) : Step A :=
  match l with
  | [] => step_ret a
  | b :: l' => let* a' := body a b in step_for body a' l'
  end.

Definition step_run (c : Step Return) : World → Return * World := λ w,
  match c w with
  | (inl r, w') => (r, w')
  | (inr r, w') => (r, w')
  end.

(** *** [updateRuleSetOnPod] *)

(** The closure handed to [retry.RetryOnConflict]; [pod] is the captured
    pointer, refreshed by [Get] and edited by [fn]. *)
Definition updateRuleSetOnPod_attempt (ruleSet : string) (fn : OwnerFn)
    (pod : Pod) : World → (option Err * Pod) * World := λ w,
  match client_Get_Pod (pod_key pod) w with
  | (inl err, w) =>
      if IsNotFound err then ((None, pod), w)
      else ((Some err, pod), w)
  | (inr pod, w) =>
      let w := log (EvMutate fn (pod_key pod) ruleSet) w in
      let '(pod, changed) := OwnerFn_apply fn pod ruleSet in
      if changed then
        match client_Update_Pod pod w with
        | (inl err, w) =>
            if IsNotFound err then ((None, pod), w)
            else ((None, pod), w)
        | (inr stored, w) => ((None, stored), w)
        end
      else ((None, pod), w)
  end.

Definition updateRuleSetOnPod (ruleSet : string) (pod : Pod) (fn : OwnerFn)
    : World → (option Err * Pod) * World :=
  RetryOnConflict DefaultRetry_Steps (updateRuleSetOnPod_attempt ruleSet fn) pod.

(** *** [hasRunningPod] *)
Definition hasRunningPod (pods : list Pod) : bool :=
  existsb (λ pod, bool_decide (pod_DeletionTimestamp pod = None)) pods.

(** *** [cleanUpPod] *)
Definition blank_Pod (namespace name : string) : Pod :=
  {| pod_Namespace := namespace; pod_Name := name; pod_ResourceVersion := 0%N;
     pod_DeletionTimestamp := None; pod_Labels := ∅; pod_RuleSets := [] |}.

Fixpoint cleanUpPod_loop (ruleSet : RuleSet) (names : list string)
    : World → option Err * World := λ w,
  match names with
  | [] => (None, w)
  | name :: names' =>
      match client_Get_Pod (rs_Namespace ruleSet, name) w with
      | (inl err, w) =>
          if IsNotFound err then cleanUpPod_loop ruleSet names' w
          else (Some err, w)
      | (inr pod, w) =>
          match updateRuleSetOnPod (rs_Name ruleSet) pod MoveRulesetAnno w with
          | ((Some err, _), w) =>
              (Some (ErrErrorf "fail to remove RuleSet %s on pod %s: %v"
                       [ArgKey (rs_key ruleSet); ArgName name] err), w)
          | ((None, _), w) => cleanUpPod_loop ruleSet names' w
          end
      end
  end.

Definition cleanUpPod (ruleSet : RuleSet) : World → option Err * World :=
  cleanUpPod_loop ruleSet (status_Targets (rs_Status ruleSet)).

(** *** [process] *)
Definition process (rt : GoRuntime) (r : RuleSetReconciler) (rs : RuleSet)
    (pods : gmap string Pod) : World → Merged * World := λ w,
  let stages := GetStages r in
  (* the order in which the goroutines reach the lock *)
  let schedule := range_order rt stages in
  let results := (λ currentStage, (currentStage, Process r currentStage rs pods)) <$> schedule in
  (merge_all rt results, foldl (λ w stage, log (EvProcess stage) w) w schedule).

(** *** [Reconcile], block by block *)

(** lines 135-148: the deletion gate *)
Definition Reconcile_delete (request : ObjKey) (ruleSet : RuleSet)
    (selectedPods : list Pod) (result : Result) : Step (Result * RuleSet) :=
  match rs_DeletionTimestamp ruleSet with
  | Some _ =>
      if bool_decide (is_Some (rs_Labels ruleSet !! rulesetTerminatingLabel))
         || negb (hasRunningPod selectedPods)
      then
        let* _ := on_fail (cleanUpPod ruleSet) (λ err, (Result_empty, Some err)) in
        λ w, let '(err, w) := utils_RemoveFinalizer ruleSet cleanUpFinalizer w in
             (inl (Result_empty, err), w)
      else
        let result := {| Requeue := Requeue result; RequeueAfter := 5 * Second |} in
        λ w, (inr (result, ruleSet), log (EvRecord "Warning" "BlockProtection") w)
  | None =>
      λ w, match utils_AddFinalizer ruleSet cleanUpFinalizer w with
           | ((Some err, _), w) =>
               (inl (result, Some (ErrErrorf "fail to add finalizer on RuleSet %s: %s"
                                     [ArgKey request] err)), w)
           | ((None, ruleSet), w) => (inr (result, ruleSet), w)
           end
  end.

(** lines 150-161: the selected names and the target map *)
Definition Reconcile_select (selectedPods : list Pod)
    : Step (gset string * gmap string Pod) :=
  let* selectedPodNames :=
    step_for (λ (names : gset string) (pod : Pod) (w : World),
                let '(ok, tbl) := SatisfiedExpectations (w_podExpect w) (pod_key pod)
                                    (pod_ResourceVersion pod) in
                let w := with_podExpect tbl w in
                if negb ok then (inl (Result_empty, None), w)
                else (inr (names ∪ {[pod_Name pod]}), w))
             ∅ selectedPods in
  let targetPods :=
    foldl (λ (m : gmap string Pod) pod, <[pod_Name pod := pod]> m) ∅ selectedPods in
  step_ret (selectedPodNames, targetPods).

(** lines 163-175: remove unselected pods *)
Definition Reconcile_release (ruleSet : RuleSet) (selectedPodNames : gset string)
    (result : Result) : Step unit :=
  step_for (λ (_ : unit) (name : string),
              if bool_decide (name ∈ selectedPodNames) then step_ret tt
              else λ w,
                match updateRuleSetOnPod (rs_Name ruleSet)
                        (blank_Pod (rs_Namespace ruleSet) name) MoveRulesetAnno w with
                | ((Some err, _), w) => (inl (result, Some err), w)
                | ((None, _), w) => (inr tt, w)
                end)
           tt (status_Targets (rs_Status ruleSet)).

(** lines 177-183: own selected pods; the map holds pointers, so it sees
    what [updateRuleSetOnPod] did to each pod *)
Definition Reconcile_own (rt : GoRuntime) (ruleSet : RuleSet)
    (targetPods : gmap string Pod) (result : Result) : Step (gmap string Pod) :=
  step_for (λ (pods : gmap string Pod) '(name, pod) w,
              match updateRuleSetOnPod (rs_Name ruleSet) pod AddRuleSetAnno w with
              | ((Some err, _), w) => (inl (result, Some err), w)
              | ((None, pod'), w) => (inr (<[name := pod']> pods), w)
              end)
           targetPods (go_range rt targetPods).

(** lines 217-225: write the status if it changed *)
Definition Reconcile_status (ruleSet : RuleSet) (newStatus : RuleSetStatus)
    : Step RuleSet :=
  if negb (equalStatus newStatus (rs_Status ruleSet)) then λ w,
    let w := with_rsExpect (ExpectUpdate (w_rsExpect w) (rs_key ruleSet)
                              (rs_ResourceVersion ruleSet)) w in
    let ruleSet := with_rs_Status newStatus ruleSet in
    match client_Status_Update ruleSet w with
    | (inl err, w) =>
        let w := with_rsExpect (DeleteExpectations (w_rsExpect w) (rs_key ruleSet)) w in
        (inl (Result_empty, Some err), w)
    | (inr ruleSet, w) => (inr ruleSet, w)
    end
  else step_ret ruleSet.

(** lines 227-232: notify *)
Definition Reconcile_oldDetails (ruleSet : RuleSet) : gmap string Detail :=
  foldl (λ (m : gmap string Detail) de, <[detail_Name de := de]> m) ∅
        (status_Details (rs_Status ruleSet)).

Definition Reconcile_notify (rt : GoRuntime) (ruleSet : RuleSet)
    (details : gmap string Detail) : World → World := λ w,
  with_queues (addQueues rt (w_queues w) ruleSet details (Reconcile_oldDetails ruleSet)) w.

(** lines 150-233: everything after the deletion gate *)
Definition Reconcile_pipeline (rt : GoRuntime) (r : RuleSetReconciler)
    (ruleSet : RuleSet) (selectedPods : list Pod) (result : Result) : Step Return :=
  let* (selectedPodNames, targetPods) := Reconcile_select selectedPods in
  let* _ := Reconcile_release ruleSet selectedPodNames result in
  let* targetPods := Reconcile_own rt ruleSet targetPods result in
  let* merged := (λ w, let '(m, w) := process rt r ruleSet targetPods w in (inr m, w)) in
  let res := {| Requeue := m_shouldRetry merged;
                RequeueAfter := match m_interval merged with
                                | Some interval => interval
                                | None => 0
                                end |} in
  let* now := (λ w, (inr (w_now w), w)) in
  let newStatus := newStatus rt ruleSet selectedPodNames (m_details merged)
                     (m_ruleStates merged) now in
  let* ruleSet := Reconcile_status ruleSet newStatus in
  λ w, (inr (res, None), Reconcile_notify rt ruleSet (m_details merged) w).

(** [RuleSetReconciler.Reconcile].  Log lines ([r.Info], [r.Error],
    [fmt.Printf]) have no effect on the cluster and are left out. *)
Definition Reconcile (rt : GoRuntime) (r : RuleSetReconciler) (request : ObjKey)
    : World → Return * World :=
  step_run (
    let result := Result_empty in
    let* ruleSet :=
      on_err (client_Get_RuleSet request)
             (λ err, if IsNotFound err then (Result_empty, None)
                     else (Result_empty, Some err)) in
    let* satisfied := (λ w,
      let '(ok, tbl) := SatisfiedExpectations (w_rsExpect w) (rs_key ruleSet)
                          (rs_ResourceVersion ruleSet) in
      (inr ok, with_rsExpect tbl w)) in
    if negb satisfied then step_exit (Result_empty, None) else
    let* selectedPods :=
      on_err (client_List_Pods rt (rs_Namespace ruleSet) (rs_Selector ruleSet))
             (λ err, (Result_empty, Some err)) in
    let* (result, ruleSet) := Reconcile_delete request ruleSet selectedPods result in
    Reconcile_pipeline rt r ruleSet selectedPods result).

(** [m] is the least of the intervals [ivs], if there is any. *)
Definition least_interval (m : option Z) (ivs : list Z) : Prop :=
  match m with
  | None => ivs = []
  | Some m => m ∈ ivs ∧ Forall (Z.le m) ivs
  end.

(** The three stage results of the merge example: intervals 2s, 5s and
    none, retry flags false, true and false. *)
Definition example_stage (interval : option Z) (retry : bool) (states : list RuleState)
    : ProcessResult :=
  {| res_Interval := interval; res_RuleStates := states; res_Retry := retry;
     res_PassRules := ∅; res_Rejected := ∅ |}.

Definition example_results : list (string * ProcessResult) :=
  [("pre", example_stage (Some (2 * Second)) false ["rule-a"]);
   ("check", example_stage (Some (5 * Second)) true ["rule-b"; "rule-c"]);
   ("post", example_stage None false [])].

(** A stage that passes rule [rule-a] on pod [web-0] and rejects nothing. *)
Definition example_pass : ProcessResult :=
  {| res_Interval := None; res_RuleStates := []; res_Retry := false;
     res_PassRules := {["web-0" := {["rule-a"]}]}; res_Rejected := ∅ |}.

(** A stage that reports on pod [web-0] and rejects it by rule [rule-b]. *)
Definition example_reject : ProcessResult :=
  {| res_Interval := None; res_RuleStates := []; res_Retry := false;
     res_PassRules := {["web-0" := ∅]};
     res_Rejected := {["web-0" := {| rej_RuleName := "rule-b"; rej_Reason := "not ready" |}]} |}.

(** A stage whose result rejects pod [web-0] without listing it among the
    keys of [PassRules]. *)
Definition example_reject_only : ProcessResult :=
  {| res_Interval := None; res_RuleStates := []; res_Retry := false;
     res_PassRules := ∅;
     res_Rejected := {["web-0" := {| rej_RuleName := "rule-b"; rej_Reason := "not ready" |}]} |}.

Definition example_web0_detail : Detail :=
  {| detail_Name := "web-0"; detail_Stage := "pre"; detail_Passed := false;
     detail_PassedRules := ["rule-a"];
     detail_RejectInfo := [{| reject_RuleName := "rule-b"; reject_Reason := "not ready" |}] |}.

(** The names [addQueues] hands to the sinks, in order: first the old
    entries that are gone or differ, then the new entries that were not
    there before. *)
Definition notified (rt : GoRuntime) (details oldDetails : gmap string Detail)
    : list string :=
  (filter (λ e, details !! e.1 ≠ Some e.2) (go_range rt oldDetails)).*1 ++
  (filter (λ e, oldDetails !! e.1 = None) (go_range rt details)).*1.

(** What a sink looks like after [keys] were offered to it. *)
Definition offered (keys : list ObjKey) (q : Queue) : Queue :=
  if q_shuttingDown q then q
  else {| q_shuttingDown := q_shuttingDown q; q_added := q_added q ++ keys |}.

(** The notification example: old details [A] passed and [B] rejected,
    new details [A] passed and [C] passed. *)
Definition example_detail (name : string) (rejects : list RejectInfo) : Detail :=
  {| detail_Name := name; detail_Stage := "pre";
     detail_Passed := bool_decide (length rejects = 0%nat);
     detail_PassedRules := []; detail_RejectInfo := rejects |}.

Definition example_old : gmap string Detail :=
  <["A" := example_detail "A" []]>
    (<["B" := example_detail "B" [{| reject_RuleName := "rule-b"; reject_Reason := "not ready" |}]]> ∅).

Definition example_new : gmap string Detail :=
  <["A" := example_detail "A" []]> (<["C" := example_detail "C" []]> ∅).

Definition example_ruleset (status : RuleSetStatus) : RuleSet :=
  {| rs_Namespace := "prod"; rs_Name := "rs"; rs_ResourceVersion := 4%N;
     rs_Generation := 1; rs_DeletionTimestamp := None; rs_Labels := ∅;
     rs_Finalizers := [cleanUpFinalizer]; rs_Selector := {["app" := "web"]};
     rs_Status := status |}.

Definition status_empty : RuleSetStatus :=
  {| status_Targets := []; status_ObservedGeneration := 0; status_Details := [];
     status_RuleStates := []; status_UpdateTime := None |}.

Definition queue_live : Queue := {| q_shuttingDown := false; q_added := [] |}.
Definition queue_down : Queue := {| q_shuttingDown := true; q_added := [] |}.

(** Two snapshots agree on everything but, possibly, the timestamp. *)
Definition same_snapshot (a b : RuleSetStatus) : Prop :=
  status_Targets a = status_Targets b
  ∧ status_Details a = status_Details b
  ∧ status_RuleStates a = status_RuleStates b
  ∧ status_ObservedGeneration a = status_ObservedGeneration b.

(** A stored ruleset whose recorded status is the snapshot of targets
    [web-0] and the example detail of [web-0]. *)
Definition example_status (now : Z) : RuleSetStatus :=
  {| status_Targets := ["web-0"]; status_ObservedGeneration := 1;
     status_Details := [example_web0_detail]; status_RuleStates := ["rule-a"];
     status_UpdateTime := Some now |}.

Definition world_of (rulesets : list RuleSet) (pods : list Pod)
    (faults : list (option Err)) (queues : list Queue) : World :=
  {| w_rulesets := list_to_map ((λ rs, (rs_key rs, rs)) <$> rulesets);
     w_pods := list_to_map ((λ pod, (pod_key pod, pod)) <$> pods);
     w_faults := faults; w_rsExpect := ∅; w_podExpect := ∅;
     w_queues := queues; w_now := 1700000000; w_trace := [] |}.

(** [w'] is [w] with the events [evs] appended to the trace and,
    possibly, part of the fault script used up: no object, expectation
    or sink changed. *)
Definition only_logged (evs : list Event) (w w' : World) : Prop :=
  w_rulesets w' = w_rulesets w
  ∧ w_pods w' = w_pods w
  ∧ w_rsExpect w' = w_rsExpect w
  ∧ w_podExpect w' = w_podExpect w
  ∧ w_queues w' = w_queues w
  ∧ w_trace w' = w_trace w ++ evs.

(** A store holding no ruleset at all. *)
Definition example_world_empty : World := world_of [] [] [] [queue_live].

(** A store whose ruleset has a write pending: the expectation recorded
    at version 4 has not been observed past. *)
Definition example_world_stale : World :=
  with_rsExpect {[("prod", "rs") := 4%N]}
    (world_of [example_ruleset status_empty]
       [{| pod_Namespace := "prod"; pod_Name := "web-0"; pod_ResourceVersion := 1%N;
           pod_DeletionTimestamp := None; pod_Labels := {["app" := "web"]};
           pod_RuleSets := [] |}]
       [] [queue_live]).

(** [w'] extends the trace of [w] by events that all satisfy [P]. *)
Definition extends (P : Event → Prop) (w w' : World) : Prop :=
  ∃ evs, w_trace w' = w_trace w ++ evs ∧ Forall P evs.

(** A computation only ever adds events satisfying [P]. *)
Definition emits {A} (P : Event → Prop) (c : World → A * World) : Prop :=
  ∀ w, extends P w (c w).2.

(** The events of an ownership mutation with [fn]. *)
Definition pod_event (fn : OwnerFn) (ev : Event) : Prop :=
  match ev with
  | EvGetPod _ | EvUpdatePod _ => True
  | EvMutate fn' _ _ => fn' = fn
  | _ => False
  end.

(** The events of the cleanup branch: releases and the finalizer write. *)
Definition cleanup_event (ev : Event) : Prop :=
  match ev with
  | EvGetPod _ | EvUpdatePod _ | EvUpdateRuleSet _ => True
  | EvMutate fn _ _ => fn = MoveRulesetAnno
  | _ => False
  end.

(** The events of the ownership and stage pipeline. *)
Definition pipeline_event (ev : Event) : Prop :=
  match ev with
  | EvGetPod _ | EvUpdatePod _ | EvMutate _ _ _ | EvProcess _ | EvUpdateStatus _ => True
  | _ => False
  end.

Definition example_pod (name : string) (deleting : option Z) (owners : list string) : Pod :=
  {| pod_Namespace := "prod"; pod_Name := name; pod_ResourceVersion := 1%N;
     pod_DeletionTimestamp := deleting; pod_Labels := {["app" := "web"]};
     pod_RuleSets := owners |}.

(** A ruleset under deletion, with or without the terminating label. *)
Definition example_ruleset_deleting (labels : gmap string string)
    (status : RuleSetStatus) : RuleSet :=
  {| rs_Namespace := "prod"; rs_Name := "rs"; rs_ResourceVersion := 4%N;
     rs_Generation := 1; rs_DeletionTimestamp := Some 1699999999; rs_Labels := labels;
     rs_Finalizers := [cleanUpFinalizer]; rs_Selector := {["app" := "web"]};
     rs_Status := status |}.

Definition example_reconciler : RuleSetReconciler :=
  {| GetStages := ["pre"];
     Process := λ _ _ pods,
       {| res_Interval := None; res_RuleStates := ["rule-a"]; res_Retry := false;
          res_PassRules := (λ _, {["rule-a"]}) <$> pods; res_Rejected := ∅ |} |}.

(** Deletion requested, one selected pod still running, no terminating
    label: cleanup is blocked. *)
Definition example_world_blocked : World :=
  world_of [example_ruleset_deleting ∅ status_empty] [example_pod "web-0" None []]
           [] [queue_live].

(** The same with the terminating label set and the pod recorded as a
    target and owned. *)
Definition example_world_forced : World :=
  world_of [example_ruleset_deleting {[rulesetTerminatingLabel := "true"]}
              {| status_Targets := ["web-0"]; status_ObservedGeneration := 1;
                 status_Details := []; status_RuleStates := [];
                 status_UpdateTime := None |}]
           [example_pod "web-0" None ["rs"]] [] [queue_live].

(** The store answers the read and fails the write, with a conflict or
    with a terminal error. *)
Definition example_world_write_fails (err : Err) : World :=
  world_of [] [example_pod "web-0" None []] [None; Some err] [].

(** A live policy selecting one unowned pod; the store fails the write of
    the pod (the fourth call of the pass) with a terminal error. *)
Definition example_world_claim_fails : World :=
  world_of [example_ruleset status_empty] [example_pod "web-0" None []]
           [None; None; None; Some (ErrOther "connection refused")] [queue_live].

(** A stored status whose details are [A] passed and [B] rejected. *)
Definition example_status_notify : RuleSetStatus :=
  {| status_Targets := ["A"; "B"]; status_ObservedGeneration := 1;
     status_Details :=
       [example_detail "A" [];
        example_detail "B" [{| reject_RuleName := "rule-b";
                               reject_Reason := "not ready" |}]];
     status_RuleStates := []; status_UpdateTime := None |}.

(** A pass over a policy with that stored status, which now selects [A]
    and [C]; one live sink is registered. *)
Definition example_world_notify : World :=
  world_of [example_ruleset example_status_notify]
           [example_pod "A" None ["rs"]; example_pod "C" None ["rs"]] [] [queue_live].

(** A policy of one stage, which reports on every target, passes no rule
    and rejects nothing. *)
Definition example_reconciler_notify : RuleSetReconciler :=
  {| GetStages := ["pre"];
     Process := λ _ _ pods,
       {| res_Interval := None; res_RuleStates := []; res_Retry := false;
          res_PassRules := (λ _, ∅) <$> pods; res_Rejected := ∅ |} |}.

(** The world after [n] calls that the store answered from its script
    without looking at the objects. *)
Definition after_calls (n : nat) (ev : Event) (w : World) : World :=
  Nat.iter n (λ w, (api_call ev w).2) w.

(** No scripted error is pending. *)
Definition fault_free (w : World) : Prop := w_faults w = [].

(** Every stored pod is stored under its own namespace and name. *)
Definition store_ok (w : World) : Prop :=
  ∀ key pod, w_pods w !! key = Some pod → pod_key pod = key.

Definition is_pod_read (ev : Event) : bool :=
  match ev with EvGetPod _ => true | _ => false end.
Definition is_pod_write (ev : Event) : bool :=
  match ev with EvUpdatePod _ => true | _ => false end.
Definition is_mutation (ev : Event) : bool :=
  match ev with EvMutate _ _ _ => true | _ => false end.

Definition count_events (f : Event → bool) (evs : list Event) : nat :=
  length (filter (λ ev, f ev = true) evs).

(** The store answers the next [n] calls with a conflict. *)
Definition example_world_conflicts (n : nat) (rest : list (option Err)) : World :=
  world_of [] [example_pod "web-0" None []] (replicate n (Some ErrConflict) ++ rest) [].

(** [w'] differs from [w] at most in its pods and its trace. *)
Definition pods_step (w w' : World) : Prop :=
  w_rulesets w' = w_rulesets w
  ∧ w_faults w' = w_faults w
  ∧ w_rsExpect w' = w_rsExpect w
  ∧ w_podExpect w' = w_podExpect w
  ∧ w_queues w' = w_queues w
  ∧ w_now w' = w_now w.

(** What a mutation function establishes about the ownership list. *)
Definition owner_goal (fn : OwnerFn) (ruleSet : string) (owners : list string) : Prop :=
  match fn with
  | AddRuleSetAnno => ruleSet ∈ owners
  | MoveRulesetAnno => ruleSet ∉ owners
  end.

(** The pod stored under [key], if there is one, has an ownership list
    satisfying [P]. *)
Definition pods_have (P : list string → Prop) (w : World) (key : ObjKey) : Prop :=
  ∀ pod, w_pods w !! key = Some pod → P (pod_RuleSets pod).

(** [w'] is [w] after fault-free ownership calls with [fn] on the pods
    under [keys]: those pods, where present, have reached the goal of
    [fn]; a pod that had reached it keeps it; no pod appeared or
    disappeared; pods under other keys, and everything that is not a pod,
    are untouched. *)
Definition touched (fn : OwnerFn) (ruleSet : string) (keys : list ObjKey)
    (w w' : World) : Prop :=
  pods_step w w'
  ∧ store_ok w'
  ∧ (∀ key, key ∈ keys → pods_have (owner_goal fn ruleSet) w' key)
  ∧ (∀ key, key ∉ keys → w_pods w' !! key = w_pods w !! key)
  ∧ (∀ key, is_Some (w_pods w' !! key) ↔ is_Some (w_pods w !! key))
  ∧ (∀ key, pods_have (owner_goal fn ruleSet) w key →
            pods_have (owner_goal fn ruleSet) w' key).

(** A policy that recorded targets [web-0] and [gone]; the store holds
    [web-0] and [web-1], both carrying the policy's name. *)
Definition example_ruleset_recorded : RuleSet :=
  example_ruleset {| status_Targets := ["web-0"; "gone"]; status_ObservedGeneration := 1;
                     status_Details := []; status_RuleStates := [];
                     status_UpdateTime := None |}.

Definition example_world_recorded : World :=
  world_of [example_ruleset_recorded]
           [example_pod "web-0" None ["rs"]; example_pod "web-1" None ["rs"]] [] [queue_live].

(** The stage results that report on [name]: those with [name] among the
    keys of [PassRules], in merge order. *)
Definition reporting (name : string) (results : list (string * ProcessResult))
    : list (string * ProcessResult) :=
  filter (λ sr, is_Some (res_PassRules sr.2 !! name)) results.

(** The rejection a stage result holds for [name], as a [RejectInfo]. *)
Definition rejection_of (name : string) (sr : string * ProcessResult) : option RejectInfo :=
  (λ rej, {| reject_RuleName := rej_RuleName rej; reject_Reason := rej_Reason rej |})
    <$> res_Rejected sr.2 !! name.

(** The passed rules a stage result holds for [name], sorted. *)
Definition passed_of (rt : GoRuntime) (name : string) (sr : string * ProcessResult)
    : list string :=
  sets_String_List rt (default ∅ (res_PassRules sr.2 !! name)).

(** The detail of [name] after merging the reporting results [reps]. *)
Definition merged_detail (rt : GoRuntime) (name : string)
    (reps : list (string * ProcessResult)) : option Detail :=
  match reps with
  | [] => None
  | (stage, _) :: _ =>
      Some {| detail_Name := name;
              detail_Stage := stage;
              detail_Passed := bool_decide (omap (rejection_of name) reps = []);
              detail_PassedRules := mjoin (passed_of rt name <$> reps);
              detail_RejectInfo := omap (rejection_of name) reps |}
  end.

(** A policy whose stored status is stale at resource version 4, in a
    store that fails the next call with a terminal error. *)
Definition example_world_status_fails : World :=
  world_of [example_ruleset status_empty] [] [Some (ErrOther "etcd unavailable")]
           [queue_live].

(** A live policy in a store that answers the fetch and fails the
    listing. *)
Definition example_world_list_fails : World :=
  world_of [example_ruleset status_empty] [example_pod "web-0" None []]
           [None; Some (ErrOther "list timeout")] [queue_live].

(** [w'] differs from [w] at most in its pods, its fault script and its
    trace. *)
Definition pods_only (w w' : World) : Prop :=
  w_rulesets w' = w_rulesets w
  ∧ w_rsExpect w' = w_rsExpect w
  ∧ w_podExpect w' = w_podExpect w
  ∧ w_queues w' = w_queues w.

(** A policy under forced deletion whose recorded target's read fails
    with a terminal error. *)
Definition example_world_cleanup_fails : World :=
  world_of [example_ruleset_deleting {[rulesetTerminatingLabel := "true"]}
              {| status_Targets := ["web-0"]; status_ObservedGeneration := 1;
                 status_Details := []; status_RuleStates := [];
                 status_UpdateTime := None |}]
           [example_pod "web-0" None ["rs"]]
           [Some (ErrOther "read timeout")] [queue_live].

(** A computation leaves the sinks as they are. *)
Definition keeps_queues {A} (c : World → A * World) : Prop :=
  ∀ w, w_queues (c w).2 = w_queues w.

(** Everything but the pod expectations is as before, the trace included. *)
Definition only_podExpect (w w' : World) : Prop :=
  w_rulesets w' = w_rulesets w ∧ w_pods w' = w_pods w ∧ w_faults w' = w_faults w
  ∧ w_rsExpect w' = w_rsExpect w ∧ w_queues w' = w_queues w
  ∧ w_now w' = w_now w ∧ w_trace w' = w_trace w.

(** A pod whose expectation, recorded at its current version, has not
    been observed past. *)
Definition example_world_stale_pod : World :=
  with_podExpect {[("prod", "web-0") := 1%N]}
    (world_of [example_ruleset status_empty]
       [example_pod "web-0" None []; example_pod "web-1" None []] [] [queue_live]).


(** A policy that recorded [web-0] and [gone] and now selects [web-1] and
    [web-2]. *)
Definition example_world_delta : World :=
  world_of [example_ruleset_recorded]
           [example_pod "web-0" None ["rs"]; example_pod "web-1" None ["rs"];
            example_pod "web-2" None []] [] [queue_live].

(** A policy of three stages that report the intervals 2s, 5s and none
    and the retry flags false, true and false. *)
Definition example_reconciler_stages : RuleSetReconciler :=
  {| GetStages := ["pre"; "check"; "post"];
     Process := λ stage _ _,
       if String.eqb stage "pre" then example_stage (Some (2 * Second)) false ["rule-a"]
       else if String.eqb stage "check"
            then example_stage (Some (5 * Second)) true ["rule-b"; "rule-c"]
            else example_stage None false [] |}.

(** A policy of two stages: [pre] passes [web-0], [check] rejects it
    without listing it among the keys of [PassRules]. *)
Definition example_reconciler_reject_only : RuleSetReconciler :=
  {| GetStages := ["pre"; "check"];
     Process := λ stage _ _,
       if String.eqb stage "pre" then example_pass else example_reject_only |}.

(* ================================================================== *)
(** * Part II: properties                                              *)
(* ================================================================== *)

(** ** The order on strings *)

Lemma ascii_compare_lt_trans (a b c : ascii) :
  Ascii.compare a b = Lt → Ascii.compare b c = Lt → Ascii.compare a c = Lt.
Proof.
  unfold Ascii.compare. rewrite !N.compare_lt_iff. intros. lia.
Qed.

Lemma string_compare_trans (s1 s2 s3 : string) :
  String.compare s1 s2 ≠ Gt → String.compare s2 s3 ≠ Gt → String.compare s1 s3 ≠ Gt.
Proof.
  revert s2 s3. induction s1 as [|a s1 IH]; intros [|b s2] [|c s3]; simpl; try congruence.
  destruct (Ascii.compare a b) eqn:Hab; try congruence;
    destruct (Ascii.compare b c) eqn:Hbc; try congruence.
  - apply Ascii.compare_eq_iff in Hab, Hbc. subst.
    unfold Ascii.compare. rewrite N.compare_refl. apply IH.
  - apply Ascii.compare_eq_iff in Hab. subst. rewrite Hbc. congruence.
  - apply Ascii.compare_eq_iff in Hbc. subst. rewrite Hab. congruence.
  - rewrite (ascii_compare_lt_trans _ _ _ Hab Hbc). congruence.
Qed.

Lemma string_le_compare (a b : string) : string_le a b ↔ String.compare a b ≠ Gt.
Proof.
  unfold string_le, String.leb. destruct (String.compare a b); split; congruence.
Qed.

Global Instance string_le_total : Total string_le.
Proof. intros a b. apply String.leb_total. Qed.

Global Instance string_le_trans : Transitive string_le.
Proof.
  intros a b c. rewrite !string_le_compare. apply string_compare_trans.
Qed.

Global Instance string_le_antisym : AntiSymm (=) string_le.
Proof. intros a b. apply String.leb_antisym. Qed.

Lemma string_lt_le_ne (a b : string) : string_lt a b ↔ string_le a b ∧ a ≠ b.
Proof.
  unfold string_lt, string_le, String.ltb, String.leb.
  destruct (String.compare a b) eqn:Hc.
  - apply String.compare_eq_iff in Hc. split; [discriminate|]. intros [_ Hne]. done.
  - split; [|done]. intros _. split; [done|]. intros Heq. subst b.
    pose proof (String.compare_antisym a a) as Ha. rewrite Hc in Ha. discriminate.
  - split; [discriminate|]. intros [? _]. discriminate.
Qed.

Lemma sort_Strings_perm (l : list string) : sort_Strings l ≡ₚ l.
Proof. apply merge_sort_Permutation. Qed.

Lemma sort_Strings_sorted (l : list string) : StronglySorted string_le (sort_Strings l).
Proof. apply StronglySorted_merge_sort; apply _. Qed.

(** Sorting forgets the order of its input. *)
Lemma sort_Strings_canonical (l1 l2 : list string) :
  l1 ≡ₚ l2 → sort_Strings l1 = sort_Strings l2.
Proof.
  intros Hp. apply (StronglySorted_unique string_le).
  - apply sort_Strings_sorted.
  - apply sort_Strings_sorted.
  - by rewrite !sort_Strings_perm.
Qed.

Lemma StronglySorted_le_lt (l : list string) :
  NoDup l → StronglySorted string_le l → StronglySorted string_lt l.
Proof.
  induction 2 as [|x l Hs IH Hall]; [constructor|].
  apply NoDup_cons in H as [Hx Hnd].
  constructor; [by apply IH|].
  apply Forall_forall. intros y Hy. apply string_lt_le_ne. split.
  - rewrite Forall_forall in Hall. by apply Hall.
  - intros ->. contradiction.
Qed.

Lemma sort_Strings_strict (l : list string) :
  NoDup l → StronglySorted string_lt (sort_Strings l).
Proof.
  intros Hnd. apply StronglySorted_le_lt; [|apply sort_Strings_sorted].
  by rewrite sort_Strings_perm.
Qed.

(** ** Ranging over a map *)

Lemma go_range_perm {A} (rt : GoRuntime) (m : gmap string A) :
  go_range rt m ≡ₚ map_to_list m.
Proof. apply range_order_perm. Qed.

Lemma go_range_NoDup {A} (rt : GoRuntime) (m : gmap string A) :
  NoDup (go_range rt m).*1.
Proof. rewrite go_range_perm. apply NoDup_fst_map_to_list. Qed.

Lemma go_range_elem_of {A} (rt : GoRuntime) (m : gmap string A) k v :
  (k, v) ∈ go_range rt m ↔ m !! k = Some v.
Proof. rewrite go_range_perm. apply elem_of_map_to_list. Qed.

Lemma go_range_to_map {A} (rt : GoRuntime) (m : gmap string A) :
  list_to_map (go_range rt m) = m.
Proof.
  rewrite <- (list_to_map_to_list m) at 2.
  apply list_to_map_proper; [apply go_range_NoDup | apply go_range_perm].
Qed.

(** A loop that rewrites, for every entry of an association list with
    distinct keys, the binding of that entry's key. *)
Lemma foldl_rebind_lookup {A B} (f : string → B → option A → A)
    (l : list (string * B)) (m : gmap string A) (k : string) :
  NoDup l.*1 →
  foldl (λ acc '(i, b), <[i := f i b (acc !! i)]> acc) m l !! k =
    match (list_to_map l : gmap string B) !! k with
    | Some b => Some (f k b (m !! k))
    | None => m !! k
    end.
Proof.
  revert m. induction l as [|[i b] l IH]; intros m Hnd; simpl in *.
  - by rewrite lookup_empty.
  - apply NoDup_cons in Hnd as [Hi Hnd]. rewrite IH by done.
    destruct (decide (i = k)) as [->|Hne].
    + rewrite (not_elem_of_list_to_map_1 l k) by done.
      by rewrite !lookup_insert_eq.
    + by rewrite !(lookup_insert_ne _ i k) by done.
Qed.

Lemma foldl_ext_eq {A B} (f g : A → B → A) (a : A) (l : list B) :
  (∀ x y, f x y = g x y) → foldl f a l = foldl g a l.
Proof.
  intros H. revert a. induction l as [|b l IH]; intros a; simpl; [done|].
  by rewrite H, IH.
Qed.

(** ** [updateDetail], key by key *)

Lemma updateDetail_body_entry rt passRules stage details po rules :
  updateDetail_body rt passRules stage details po rules =
  <[po := updateDetail_entry rt passRules stage po rules (details !! po)]> details.
Proof.
  unfold updateDetail_body, updateDetail_entry.
  destruct (res_Rejected passRules !! po); reflexivity.
Qed.

Lemma updateDetail_lookup rt details passRules stage po :
  updateDetail rt details passRules stage !! po =
    match res_PassRules passRules !! po with
    | Some rules => Some (updateDetail_entry rt passRules stage po rules (details !! po))
    | None => details !! po
    end.
Proof.
  unfold updateDetail.
  rewrite <- (go_range_to_map rt (res_PassRules passRules)) at 2.
  rewrite <- (foldl_rebind_lookup (updateDetail_entry rt passRules stage))
    by apply go_range_NoDup.
  f_equal. apply foldl_ext_eq. intros ds [i rules]. apply updateDetail_body_entry.
Qed.

Lemma updateDetail_entry_ok rt passRules stage po rules old :
  detail_ok (updateDetail_entry rt passRules stage po rules old).
Proof.
  unfold detail_ok, updateDetail_entry; simpl.
  rewrite bool_decide_eq_true. apply length_zero_iff_nil.
Qed.

Lemma updateDetail_entry_named rt passRules stage po rules old :
  (∀ d, old = Some d → detail_named po d) →
  detail_named po (updateDetail_entry rt passRules stage po rules old).
Proof.
  unfold detail_named, updateDetail_entry; simpl. intros H.
  destruct old as [d|]; simpl; [by apply H | done].
Qed.

Lemma updateDetail_entry_rejects_grow rt passRules stage po rules d :
  detail_RejectInfo d ≠ [] →
  detail_RejectInfo (updateDetail_entry rt passRules stage po rules (Some d)) ≠ [].
Proof.
  unfold updateDetail_entry; simpl. intros Hne.
  destruct (res_Rejected passRules !! po); [|done].
  intros Happ. by apply app_eq_nil in Happ as [? _].
Qed.

Lemma updateDetail_ok rt details passRules stage :
  map_Forall (λ _, detail_ok) details →
  map_Forall (λ _, detail_ok) (updateDetail rt details passRules stage).
Proof.
  intros H po d. rewrite updateDetail_lookup.
  destruct (res_PassRules passRules !! po).
  - intros [= <-]. apply updateDetail_entry_ok.
  - apply H.
Qed.

Lemma updateDetail_named rt details passRules stage :
  map_Forall detail_named details →
  map_Forall detail_named (updateDetail rt details passRules stage).
Proof.
  intros H po d. rewrite updateDetail_lookup.
  destruct (res_PassRules passRules !! po).
  - intros [= <-]. apply updateDetail_entry_named. intros d' Hd'. by apply H.
  - apply H.
Qed.

Lemma updateDetail_rejects_grow rt details passRules stage po d :
  details !! po = Some d → detail_RejectInfo d ≠ [] →
  ∃ d', updateDetail rt details passRules stage !! po = Some d'
        ∧ detail_RejectInfo d' ≠ [].
Proof.
  intros Hd Hne. rewrite updateDetail_lookup, Hd.
  destruct (res_PassRules passRules !! po); eauto using updateDetail_entry_rejects_grow.
Qed.

(** ** The merge, as a fold from any accumulator *)

Lemma merge_all_from rt results : merge_all rt results = merge_from rt Merged_init results.
Proof. reflexivity. Qed.

Lemma merge_from_app rt acc l1 l2 :
  merge_from rt acc (l1 ++ l2) = merge_from rt (merge_from rt acc l1) l2.
Proof. apply foldl_app. Qed.

Lemma merge_from_ok rt acc results :
  map_Forall (λ _, detail_ok) (m_details acc) →
  map_Forall (λ _, detail_ok) (m_details (merge_from rt acc results)).
Proof.
  revert acc. induction results as [|[stage res] results IH]; intros acc H; [done|].
  apply IH. simpl. by apply updateDetail_ok.
Qed.

Lemma merge_from_named rt acc results :
  map_Forall detail_named (m_details acc) →
  map_Forall detail_named (m_details (merge_from rt acc results)).
Proof.
  revert acc. induction results as [|[stage res] results IH]; intros acc H; [done|].
  apply IH. simpl. by apply updateDetail_named.
Qed.

Lemma merge_from_rejects_grow rt acc results po d :
  m_details acc !! po = Some d → detail_RejectInfo d ≠ [] →
  ∃ d', m_details (merge_from rt acc results) !! po = Some d'
        ∧ detail_RejectInfo d' ≠ [].
Proof.
  revert acc d. induction results as [|[stage res] results IH]; intros acc d Hd Hne.
  - eauto.
  - destruct (updateDetail_rejects_grow rt _ res stage _ _ Hd Hne) as (d' & Hd' & Hne').
    eapply (IH (merge_locked rt acc stage res)); eauto.
Qed.

Lemma merge_all_ok rt results :
  map_Forall (λ _, detail_ok) (m_details (merge_all rt results)).
Proof. apply merge_from_ok. simpl. apply map_Forall_empty. Qed.

Lemma merge_all_named rt results :
  map_Forall detail_named (m_details (merge_all rt results)).
Proof. apply merge_from_named. simpl. apply map_Forall_empty. Qed.

(** ** The merged interval, retry flag and rule states *)

Lemma merge_from_ruleStates rt acc results :
  m_ruleStates (merge_from rt acc results) =
  m_ruleStates acc ++ mjoin ((λ sr, res_RuleStates sr.2) <$> results).
Proof.
  revert acc. induction results as [|[stage res] results IH]; intros acc; simpl.
  - by rewrite app_nil_r.
  - rewrite IH. simpl. by rewrite app_assoc.
Qed.

Lemma merge_from_shouldRetry rt acc results :
  m_shouldRetry (merge_from rt acc results) =
  m_shouldRetry acc || existsb (λ sr, res_Retry sr.2) results.
Proof.
  revert acc. induction results as [|[stage res] results IH]; intros acc; simpl.
  - by rewrite orb_false_r.
  - rewrite IH. simpl. destruct (res_Retry res), (m_shouldRetry acc); reflexivity.
Qed.

Lemma merge_from_interval rt acc results (seen : list Z) :
  least_interval (m_interval acc) seen →
  least_interval (m_interval (merge_from rt acc results))
                 (seen ++ omap (λ sr, res_Interval sr.2) results).
Proof.
  revert acc seen. induction results as [|[stage res] results IH]; intros acc seen Hacc; simpl.
  - by rewrite app_nil_r.
  - assert (least_interval (m_interval (merge_locked rt acc stage res))
              (seen ++ from_option (λ i, [i]) [] (res_Interval res))) as Hstep.
    { unfold merge_locked; simpl. destruct (res_Interval res) as [ri|]; simpl.
      - destruct (m_interval acc) as [cur|]; simpl in *.
        + destruct Hacc as [Hin Hle]. case_bool_decide as Hcmp; simpl.
          * split; [set_solver|]. apply Forall_app. split; [|by repeat constructor].
            eapply Forall_impl; [exact Hle|]. simpl. intros. lia.
          * split; [set_solver|]. apply Forall_app. split; [done|].
            repeat constructor. lia.
        + subst seen. simpl. split; [set_solver|]. by repeat constructor.
      - by rewrite app_nil_r. }
    specialize (IH _ _ Hstep). destruct (res_Interval res); simpl in *.
    + by rewrite <- app_assoc in IH.
    + by rewrite app_nil_r in IH.
Qed.

(** The merge of any list of stage results, in the order given. *)
Lemma merge_all_summary (rt : GoRuntime) (results : list (string * ProcessResult)) :
  least_interval (m_interval (merge_all rt results))
                 (omap (λ sr, res_Interval sr.2) results)
  ∧ m_shouldRetry (merge_all rt results) = existsb (λ sr, res_Retry sr.2) results
  ∧ m_ruleStates (merge_all rt results) = mjoin ((λ sr, res_RuleStates sr.2) <$> results).
Proof.
  split_and!.
  - apply (merge_from_interval rt Merged_init results []). reflexivity.
  - apply (merge_from_shouldRetry rt Merged_init results).
  - apply (merge_from_ruleStates rt Merged_init results).
Qed.

Lemma least_interval_perm m (l1 l2 : list Z) :
  l1 ≡ₚ l2 → least_interval m l1 → least_interval m l2.
Proof.
  intros Hperm. destruct m as [m|]; simpl.
  - intros [Hin Hle]. split; [by rewrite <- Hperm | by rewrite <- Hperm].
  - intros ->. by apply Permutation_nil_l in Hperm.
Qed.

Lemma existsb_perm {A} (f : A → bool) (l1 l2 : list A) :
  l1 ≡ₚ l2 → existsb f l1 = existsb f l2.
Proof.
  intros Hperm. apply eq_true_iff_eq. rewrite !existsb_exists.
  split; intros (x & Hin & Hx); exists x; (split; [|done]);
    apply list_elem_of_In; apply list_elem_of_In in Hin;
    [by rewrite <- Hperm | by rewrite Hperm].
Qed.

Lemma omap_fmap_stage {A B C} (g : A → B) (f : B → option C) (l : list A) :
  omap f (g <$> l) = omap (f ∘ g) l.
Proof.
  induction l as [|a l IH]; [done|]. cbn [fmap list_fmap omap list_omap].
  unfold compose at 1. destruct (f (g a)); by rewrite <- IH.
Qed.

Lemma existsb_fmap_stage {A B} (g : A → B) (f : B → bool) (l : list A) :
  existsb f (g <$> l) = existsb (f ∘ g) l.
Proof.
  induction l as [|a l IH]; [done|]. cbn [fmap list_fmap existsb].
  unfold compose at 1. by rewrite <- IH.
Qed.

Lemma trace_foldl_log (evs : list Event) (w : World) :
  w_trace (foldl (λ w ev, log ev w) w evs) = w_trace w ++ evs.
Proof.
  revert w. induction evs as [|ev evs IH]; intros w; simpl.
  - by rewrite app_nil_r.
  - rewrite IH. simpl. by rewrite <- app_assoc.
Qed.

(** C6: what [process] hands back for the stages of the policy, in
    whatever order the goroutines reached the lock: the merged interval is
    the least of the intervals the stages reported and is absent exactly
    when no stage reported one, the merged retry flag is the disjunction
    of the stages' flags, and the merged rule states are the stages' rule
    states appended in the order of the lock, each stage of the policy
    being evaluated and merged exactly once.  For three stages reporting
    the intervals 2s, 5s and none the merged interval is 2s, and for their
    retry flags false, true and false the merged flag is true, in every
    order. *)
Theorem process_merges_interval_retry_ruleStates (rt : GoRuntime)
    (r : RuleSetReconciler) (rs : RuleSet) (pods : gmap string Pod) (w : World) :
  least_interval (m_interval (process rt r rs pods w).1)
    (omap (λ stage, res_Interval (Process r stage rs pods)) (GetStages r))
  ∧ m_shouldRetry (process rt r rs pods w).1
    = existsb (λ stage, res_Retry (Process r stage rs pods)) (GetStages r)
  ∧ (∃ schedule,
       schedule ≡ₚ GetStages r
       ∧ m_ruleStates (process rt r rs pods w).1
         = mjoin ((λ stage, res_RuleStates (Process r stage rs pods)) <$> schedule)
       ∧ w_trace (process rt r rs pods w).2 = w_trace w ++ (EvProcess <$> schedule))
  ∧ m_interval (process rt example_reconciler_stages rs pods w).1 = Some (2 * Second)
  ∧ m_shouldRetry (process rt example_reconciler_stages rs pods w).1 = true.
Proof.
  assert (∀ r',
    least_interval (m_interval (process rt r' rs pods w).1)
      (omap (λ stage, res_Interval (Process r' stage rs pods)) (GetStages r'))
    ∧ m_shouldRetry (process rt r' rs pods w).1
      = existsb (λ stage, res_Retry (Process r' stage rs pods)) (GetStages r')) as Hgen.
  { intros r'. unfold process. cbn [fst].
    destruct (merge_all_summary rt
                ((λ currentStage, (currentStage, Process r' currentStage rs pods))
                   <$> range_order rt (GetStages r'))) as (Hiv & Hretry & _).
    split.
    - rewrite omap_fmap_stage in Hiv.
      eapply least_interval_perm; [|exact Hiv].
      apply omap_Permutation, range_order_perm.
    - rewrite Hretry, existsb_fmap_stage. apply existsb_perm, range_order_perm. }
  split_and!.
  - apply Hgen.
  - apply Hgen.
  - exists (range_order rt (GetStages r)). split_and!.
    + apply range_order_perm.
    + unfold process. cbn [fst].
      destruct (merge_all_summary rt
                  ((λ currentStage, (currentStage, Process r currentStage rs pods))
                     <$> range_order rt (GetStages r))) as (_ & _ & Hstates).
      rewrite Hstates, <- list_fmap_compose. reflexivity.
    + unfold process. cbn [snd].
      rewrite <- (trace_foldl_log (EvProcess <$> range_order rt (GetStages r)) w).
      by rewrite foldl_fmap.
  - destruct (Hgen example_reconciler_stages) as [Hiv _].
    destruct (m_interval (process rt example_reconciler_stages rs pods w).1) as [m|];
      simpl in Hiv.
    + destruct Hiv as [Hin Hle]. unfold Second in *.
      apply Forall_cons in Hle as [Hle _].
      apply elem_of_cons in Hin as [->|Hin]; [done|].
      apply list_elem_of_singleton in Hin. subst m. lia.
    + discriminate.
  - destruct (Hgen example_reconciler_stages) as [_ ->]. reflexivity.
Qed.

(** ** The detail invariant and recorded rejections *)

(** C7, as the code has it: every detail the merge holds, after any
    number of stage updates, has [Passed] true exactly when its
    [RejectInfo] list is empty; and a target rejected by a stage that also
    lists it among the keys of its [PassRules] mapping (the mapping
    [updateDetail] ranges over) has a failed detail at the end of the
    pass, whatever the other stages report. *)
Theorem merge_all_detail_passed_iff_no_reject (rt : GoRuntime)
    (results : list (string * ProcessResult)) (name : string) (d : Detail) :
  m_details (merge_all rt results) !! name = Some d →
  (detail_Passed d = true ↔ detail_RejectInfo d = [])
  ∧ (∀ stage res, (stage, res) ∈ results →
       is_Some (res_PassRules res !! name) → is_Some (res_Rejected res !! name) →
       detail_Passed d = false).
Proof.
  intros Hd. split; [exact (merge_all_ok rt results name d Hd)|].
  intros stage res Hin [rules Hrules] [rej Hrej].
  apply list_elem_of_split in Hin as (l1 & l2 & ->).
  rewrite merge_all_from, merge_from_app in Hd. simpl in Hd.
  set (acc := merge_from rt Merged_init l1) in *.
  assert (∃ d1, m_details (merge_locked rt acc stage res) !! name = Some d1
                ∧ detail_RejectInfo d1 ≠ []) as (d1 & Hd1 & Hne1).
  { simpl. rewrite updateDetail_lookup, Hrules. eexists. split; [done|].
    unfold updateDetail_entry; simpl. rewrite Hrej.
    intros Happ. apply app_eq_nil in Happ as [_ ?]. done. }
  destruct (merge_from_rejects_grow rt _ l2 _ _ Hd1 Hne1) as (d' & Hd' & Hne').
  rewrite Hd in Hd'. injection Hd' as <-.
  pose proof (merge_all_ok rt (l1 ++ (stage, res) :: l2) name d) as Hok.
  rewrite merge_all_from, merge_from_app in Hok. specialize (Hok Hd).
  destruct Hok as [Hok _]. destruct (detail_Passed d); [|done].
  exfalso. apply Hne'. by apply Hok.
Qed.

Lemma merge_all_detail_passed_iff_no_reject_witness :
  (detail_Passed example_web0_detail = true ↔ detail_RejectInfo example_web0_detail = [])
  ∧ (∀ stage res, (stage, res) ∈ [("pre", example_pass); ("check", example_reject)] →
       is_Some (res_PassRules res !! "web-0") → is_Some (res_Rejected res !! "web-0") →
       detail_Passed example_web0_detail = false).
Proof.
  apply (merge_all_detail_passed_iff_no_reject runtime_inorder
           [("pre", example_pass); ("check", example_reject)] "web-0" example_web0_detail).
  vm_compute. reflexivity.
Defined.

(** C7 as stated fails in its second part: stage [pre] passes [web-0]
    and stage [check] rejects it without listing it among the keys of
    [PassRules]; the rejection is not recorded and the detail of [web-0]
    ends the pass with [Passed] true and an empty [RejectInfo] list, in
    the merge and in [process], in either order of the two stages. *)
Lemma merge_all_passed_despite_reject :
  res_Rejected example_reject_only !! "web-0"
    = Some {| rej_RuleName := "rule-b"; rej_Reason := "not ready" |}
  ∧ m_details (merge_all runtime_inorder
                 [("pre", example_pass); ("check", example_reject_only)]) !! "web-0"
    = Some {| detail_Name := "web-0"; detail_Stage := "pre"; detail_Passed := true;
              detail_PassedRules := ["rule-a"]; detail_RejectInfo := [] |}
  ∧ m_details (merge_all runtime_inorder
                 [("check", example_reject_only); ("pre", example_pass)]) !! "web-0"
    = Some {| detail_Name := "web-0"; detail_Stage := "pre"; detail_Passed := true;
              detail_PassedRules := ["rule-a"]; detail_RejectInfo := [] |}
  ∧ m_details (process runtime_inorder example_reconciler_reject_only
                 (example_ruleset status_empty) ∅ example_world_empty).1 !! "web-0"
    = Some {| detail_Name := "web-0"; detail_Stage := "pre"; detail_Passed := true;
              detail_PassedRules := ["rule-a"]; detail_RejectInfo := [] |}
  ∧ m_details (process runtime_reversed example_reconciler_reject_only
                 (example_ruleset status_empty) ∅ example_world_empty).1 !! "web-0"
    = Some {| detail_Name := "web-0"; detail_Stage := "pre"; detail_Passed := true;
              detail_PassedRules := ["rule-a"]; detail_RejectInfo := [] |}.
Proof. vm_compute. repeat split. Qed.

(** C8, as the code has it: when a stage result rejects a target that is
    also a key of its [PassRules] mapping (the mapping [updateDetail]
    ranges over), the update appends exactly one [RejectInfo] entry, with
    the rule name and reason of the rejection, to what the target's detail
    held before, and the detail is not passed. *)
Theorem updateDetail_appends_reject (rt : GoRuntime) (details : gmap string Detail)
    (passRules : ProcessResult) (stage po : string) (rules : gset string) (rej : Rejected) :
  res_PassRules passRules !! po = Some rules →
  res_Rejected passRules !! po = Some rej →
  ∃ d, updateDetail rt details passRules stage !! po = Some d
       ∧ detail_RejectInfo d =
           from_option detail_RejectInfo [] (details !! po) ++
           [{| reject_RuleName := rej_RuleName rej; reject_Reason := rej_Reason rej |}]
       ∧ detail_Passed d = false.
Proof.
  intros Hrules Hrej. rewrite updateDetail_lookup, Hrules. eexists. split; [done|].
  unfold updateDetail_entry; simpl. rewrite Hrej.
  destruct (details !! po) as [old|]; simpl; split; try done;
    rewrite length_app; simpl; apply bool_decide_eq_false; lia.
Qed.

Lemma updateDetail_appends_reject_witness :
  ∃ d, updateDetail runtime_inorder ∅ example_reject "check" !! "web-0" = Some d
       ∧ detail_RejectInfo d =
           from_option detail_RejectInfo [] ((∅ : gmap string Detail) !! "web-0") ++
           [{| reject_RuleName := rej_RuleName {| rej_RuleName := "rule-b"; rej_Reason := "not ready" |};
               reject_Reason := rej_Reason {| rej_RuleName := "rule-b"; rej_Reason := "not ready" |} |}]
       ∧ detail_Passed d = false.
Proof.
  apply (updateDetail_appends_reject runtime_inorder ∅ example_reject "check" "web-0" ∅);
    vm_compute; reflexivity.
Defined.

(** C8 as stated fails: a stage result may reject a target that is not a
    key of [PassRules]; the merge then records nothing for it. *)
Lemma merge_all_drops_reject_without_passrules :
  res_Rejected example_reject_only !! "web-0"
    = Some {| rej_RuleName := "rule-b"; rej_Reason := "not ready" |}
  ∧ m_details (merge_all runtime_inorder [("check", example_reject_only)]) !! "web-0" = None
  ∧ m_details (merge_all runtime_reversed [("check", example_reject_only)]) = ∅.
Proof. vm_compute. repeat split. Qed.

(** ** The status snapshot is canonical *)

Lemma sets_String_List_canonical rt1 rt2 (s : gset string) :
  sets_String_List rt1 s = sets_String_List rt2 s.
Proof.
  unfold sets_String_List. apply sort_Strings_canonical.
  by rewrite !range_order_perm.
Qed.

Lemma sets_String_List_elem_of rt (s : gset string) x :
  x ∈ sets_String_List rt s ↔ x ∈ s.
Proof.
  unfold sets_String_List. rewrite sort_Strings_perm, range_order_perm.
  apply elem_of_elements.
Qed.

Lemma sets_String_List_strict rt (s : gset string) :
  StronglySorted string_lt (sets_String_List rt s).
Proof.
  apply sort_Strings_strict. rewrite range_order_perm. apply NoDup_elements.
Qed.

Lemma detailList_canonical rt1 rt2 (details : gmap string Detail) :
  detailList rt1 details = detailList rt2 details.
Proof.
  unfold detailList. f_equal. apply sort_Strings_canonical.
  by rewrite !go_range_perm.
Qed.

Lemma omap_lookup_names (details : gmap string Detail) (keys : list string) :
  map_Forall detail_named details →
  Forall (λ k, is_Some (details !! k)) keys →
  detail_Name <$> omap (λ key, details !! key) keys = keys.
Proof.
  intros Hnamed. induction 1 as [|k keys [d Hd] _ IH]; [done|].
  cbn [omap list_omap]. rewrite Hd. cbn [fmap list_fmap].
  f_equal; [by apply (Hnamed k d) | exact IH].
Qed.

Lemma detailList_keys_present rt (details : gmap string Detail) :
  Forall (λ k, is_Some (details !! k)) (sort_Strings (go_range rt details).*1).
Proof.
  apply Forall_forall. intros k. rewrite sort_Strings_perm.
  intros ([k' d] & -> & Hin)%list_elem_of_fmap. simpl.
  apply go_range_elem_of in Hin. eauto.
Qed.

Lemma detailList_names rt (details : gmap string Detail) :
  map_Forall detail_named details →
  detail_Name <$> detailList rt details = sort_Strings (go_range rt details).*1.
Proof.
  intros Hnamed. unfold detailList.
  apply omap_lookup_names; [done | apply detailList_keys_present].
Qed.

Lemma detailList_elem_of rt (details : gmap string Detail) d :
  d ∈ detailList rt details ↔ ∃ k, details !! k = Some d.
Proof.
  unfold detailList. rewrite list_elem_of_omap. split.
  - intros (k & _ & Hk). eauto.
  - intros (k & Hk). exists k. split; [|done].
    rewrite sort_Strings_perm. apply list_elem_of_fmap.
    exists (k, d). split; [done|]. by apply go_range_elem_of.
Qed.

(** C9: the snapshot built from the merged details and the selected names
    lists the targets in strictly increasing order and the details in
    strictly increasing order of their names; it holds exactly the
    selected names and exactly the details of the map; and it does not
    depend on the order in which the runtime ranges over the map and the
    set: two runtimes build equal snapshots. *)
Theorem newStatus_sorted_and_order_independent (rt rt' : GoRuntime)
    (ruleSet : RuleSet) (selectedPodNames : gset string)
    (results : list (string * ProcessResult)) (now : Z) :
  let merged := merge_all rt results in
  let st := newStatus rt ruleSet selectedPodNames (m_details merged)
              (m_ruleStates merged) now in
  StronglySorted string_lt (status_Targets st)
  ∧ StronglySorted string_lt (detail_Name <$> status_Details st)
  ∧ (∀ name, name ∈ status_Targets st ↔ name ∈ selectedPodNames)
  ∧ (∀ d, d ∈ status_Details st ↔ ∃ name, m_details merged !! name = Some d)
  ∧ newStatus rt' ruleSet selectedPodNames (m_details merged)
      (m_ruleStates merged) now = st.
Proof.
  simpl. repeat split.
  - apply sets_String_List_strict.
  - rewrite detailList_names by apply merge_all_named.
    apply sort_Strings_strict, go_range_NoDup.
  - by apply sets_String_List_elem_of.
  - by apply sets_String_List_elem_of.
  - by apply detailList_elem_of.
  - by apply detailList_elem_of.
  - unfold newStatus. f_equal.
    + apply sets_String_List_canonical.
    + apply detailList_canonical.
Qed.

(** ** The change notifier *)

Lemma offered_nil q : offered [] q = q.
Proof. unfold offered. destruct q as [[] ?]; simpl; by rewrite ?app_nil_r. Qed.

Lemma offered_app keys1 keys2 q : offered keys2 (offered keys1 q) = offered (keys1 ++ keys2) q.
Proof.
  unfold offered. destruct (q_shuttingDown q) eqn:Hq; simpl; [by rewrite Hq|].
  by rewrite app_assoc.
Qed.

Lemma addToEveryQueue_offered queues namespace name :
  addToEveryQueue queues namespace name = offered [(namespace, name)] <$> queues.
Proof. reflexivity. Qed.

Lemma offered_fmap_compose keys1 keys2 (queues : list Queue) :
  offered keys2 <$> (offered keys1 <$> queues) = offered (keys1 ++ keys2) <$> queues.
Proof.
  rewrite <- list_fmap_compose. apply list_fmap_ext. intros _ q _. apply offered_app.
Qed.

(** A loop that offers the name of every entry passing a test. *)
Lemma foldl_offer {B} (queues : list Queue) (namespace : string)
    (P : string * B → Prop) `{∀ e, Decision (P e)}
    (step : list Queue → string * B → list Queue) (l : list (string * B)) :
  (∀ qs e, step qs e = if decide (P e) then addToEveryQueue qs namespace e.1 else qs) →
  foldl step queues l = offered ((namespace,.) <$> (filter P l).*1) <$> queues.
Proof.
  intros Hstep. revert queues. induction l as [|e l IH]; intros queues; simpl.
  - rewrite <- (list_fmap_id queues) at 1. apply list_fmap_ext. intros _ q _.
    by rewrite offered_nil.
  - rewrite IH, Hstep, filter_cons. destruct (decide (P e)); [|done].
    rewrite addToEveryQueue_offered, offered_fmap_compose. reflexivity.
Qed.

Lemma addQueues_offered rt queues rs details oldDetails :
  addQueues rt queues rs details oldDetails =
  offered ((rs_Namespace rs,.) <$> notified rt details oldDetails) <$> queues.
Proof.
  unfold addQueues. case_bool_decide as Hlen.
  - apply length_zero_iff_nil in Hlen. by subst.
  - unfold notified. rewrite fmap_app, <- offered_fmap_compose.
    rewrite (foldl_offer queues (rs_Namespace rs) (λ e, details !! e.1 ≠ Some e.2)).
    + apply (foldl_offer _ (rs_Namespace rs) (λ e, oldDetails !! e.1 = None)).
      intros qs [name d]. simpl. destruct (oldDetails !! name); by case_decide.
    + intros qs [name old]. simpl. destruct (details !! name) as [detail|].
      * case_bool_decide; case_decide; simpl; congruence.
      * by case_decide.
Qed.

Lemma notified_elem_of rt details oldDetails name :
  name ∈ notified rt details oldDetails ↔ oldDetails !! name ≠ details !! name.
Proof.
  unfold notified. rewrite elem_of_app, !list_elem_of_fmap. split.
  - intros [([k o] & -> & Hin)|([k d] & -> & Hin)];
      apply list_elem_of_filter in Hin as [Hp Hin];
      apply go_range_elem_of in Hin; simpl in *; congruence.
  - intros Hne. destruct (oldDetails !! name) as [o|] eqn:Ho.
    + left. exists (name, o). split; [done|]. apply list_elem_of_filter.
      split; [simpl; congruence | by apply go_range_elem_of].
    + right. destruct (details !! name) as [d|] eqn:Hd; [|done].
      exists (name, d). split; [done|]. apply list_elem_of_filter.
      split; [done | by apply go_range_elem_of].
Qed.

Lemma NoDup_fst_filter {B} (P : string * B → Prop) `{∀ e, Decision (P e)}
    (l : list (string * B)) :
  NoDup l.*1 → NoDup (filter P l).*1.
Proof.
  induction l as [|e l IH]; simpl; [done|]. intros [Hnotin Hnd]%NoDup_cons.
  rewrite filter_cons. destruct (decide (P e)); simpl; [|by apply IH].
  apply NoDup_cons. split; [|by apply IH].
  intros ([k b] & Hk & Hin)%list_elem_of_fmap. apply list_elem_of_filter in Hin as [_ Hin].
  apply Hnotin. apply list_elem_of_fmap. by exists (k, b).
Qed.

Lemma notified_NoDup rt details oldDetails : NoDup (notified rt details oldDetails).
Proof.
  unfold notified. apply NoDup_app. split; [|split].
  - apply NoDup_fst_filter, go_range_NoDup.
  - intros name ([k o] & -> & Hin)%list_elem_of_fmap ([k' d] & Hk & Hin')%list_elem_of_fmap.
    simpl in *. subst k'.
    apply list_elem_of_filter in Hin as [_ Hin]. apply go_range_elem_of in Hin.
    apply list_elem_of_filter in Hin' as [Hnone _]. simpl in *. congruence.
  - apply NoDup_fst_filter, go_range_NoDup.
Qed.

Lemma example_old_new_differ name :
  example_old !! name ≠ example_new !! name ↔ name = "B" ∨ name = "C".
Proof.
  unfold example_old, example_new.
  destruct (decide (name = "A")) as [->|HA]; [split; [by intros [] | by intros [|]]|].
  destruct (decide (name = "B")) as [->|HB]; [split; [by left | by intros _]|].
  destruct (decide (name = "C")) as [->|HC]; [split; [by right | by intros _]|].
  rewrite !lookup_insert_ne, !lookup_empty by done. split; [done | by intros [|]].
Qed.

(** X27: handed an old and a new detail map, the notifier offers to
    every registered sink that is not shutting down exactly the keys
    (policy namespace, target name) of the names whose detail differs
    between the two maps, a name present in only one of them included,
    each key once; an unchanged name is not offered, and a sink that is
    shutting down is skipped.  For old details [A] passed, [B] rejected
    and new details [A] passed, [C] passed, a live sink is offered exactly
    [B] and [C]. *)
Theorem addQueues_offers_changed_names (rt : GoRuntime) (queues : list Queue)
    (rs : RuleSet) (details oldDetails : gmap string Detail) (i : nat) (q : Queue) :
  queues !! i = Some q →
  (∃ added,
     addQueues rt queues rs details oldDetails !! i
       = Some {| q_shuttingDown := q_shuttingDown q; q_added := q_added q ++ added |}
     ∧ if q_shuttingDown q then added = []
       else NoDup added
            ∧ ∀ key, key ∈ added ↔
                ∃ name, key = (rs_Namespace rs, name) ∧ oldDetails !! name ≠ details !! name)
  ∧ (∃ added,
       addQueues rt [queue_live] rs example_new example_old
         = [{| q_shuttingDown := false; q_added := added |}]
       ∧ added ≡ₚ [(rs_Namespace rs, "B"); (rs_Namespace rs, "C")]).
Proof.
  intros Hq. split.
  - rewrite addQueues_offered, list_lookup_fmap, Hq.
    cbn [fmap option_fmap option_map]. unfold offered.
    destruct (q_shuttingDown q) eqn:Hsd.
    + exists []. split; [|done]. rewrite app_nil_r. destruct q; simpl in *. by subst.
    + exists ((rs_Namespace rs,.) <$> notified rt details oldDetails).
      split; [reflexivity|]. split.
      * apply NoDup_fmap_2; [|apply notified_NoDup]. by intros ?? [= ->].
      * intros key. rewrite list_elem_of_fmap. setoid_rewrite notified_elem_of. done.
  - rewrite addQueues_offered.
    exists ((rs_Namespace rs,.) <$> notified rt example_new example_old).
    split; [reflexivity|].
    apply NoDup_Permutation.
    + apply NoDup_fmap_2; [|apply notified_NoDup]. by intros ?? [= ->].
    + apply NoDup_cons. split; [|apply NoDup_singleton]. by intros [= ]%list_elem_of_singleton.
    + intros key. rewrite list_elem_of_fmap. setoid_rewrite notified_elem_of.
      setoid_rewrite example_old_new_differ. rewrite !elem_of_cons, elem_of_nil. split.
      * intros (name & -> & [->| ->]); auto.
      * intros [->|[->|[]]]; eauto.
Qed.

Lemma addQueues_offers_changed_names_witness :
  (∃ added,
     addQueues runtime_inorder [queue_down; queue_live] (example_ruleset status_empty)
        example_new example_old !! 1%nat
       = Some {| q_shuttingDown := q_shuttingDown queue_live;
                 q_added := q_added queue_live ++ added |}
     ∧ if q_shuttingDown queue_live then added = []
       else NoDup added
            ∧ ∀ key, key ∈ added ↔
                ∃ name, key = (rs_Namespace (example_ruleset status_empty), name)
                        ∧ example_old !! name ≠ example_new !! name)
  ∧ (∃ added,
       addQueues runtime_inorder [queue_live] (example_ruleset status_empty)
          example_new example_old
         = [{| q_shuttingDown := false; q_added := added |}]
       ∧ added ≡ₚ [(rs_Namespace (example_ruleset status_empty), "B");
                    (rs_Namespace (example_ruleset status_empty), "C")]).
Proof.
  apply (addQueues_offers_changed_names runtime_inorder [queue_down; queue_live]
           (example_ruleset status_empty) example_new example_old 1 queue_live).
  reflexivity.
Defined.

(** Two registered sinks, the first shutting down: the details of [B]
    and [C] differ between the old and the new map; the first sink is
    skipped and the live sink is offered both. *)
Example addQueues_example_sink_shutting_down :
  example_old !! "B" ≠ example_new !! "B"
  ∧ example_old !! "C" ≠ example_new !! "C"
  ∧ addQueues runtime_inorder [queue_down; queue_live] (example_ruleset status_empty)
      example_new example_old
    = [queue_down;
       {| q_shuttingDown := false; q_added := [("prod", "B"); ("prod", "C")] |}].
Proof.
  split; [|split].
  - apply example_old_new_differ. by left.
  - apply example_old_new_differ. by right.
  - vm_compute. reflexivity.
Qed.

(** ** The status write *)

Lemma equalStatus_same_snapshot (a b : RuleSetStatus) :
  equalStatus a b = true ↔ same_snapshot a b.
Proof.
  unfold equalStatus, same_snapshot.
  rewrite !andb_true_iff, !bool_decide_eq_true. tauto.
Qed.

Lemma same_snapshot_trans (a b c : RuleSetStatus) :
  same_snapshot a b → same_snapshot b c → same_snapshot a c.
Proof. unfold same_snapshot. intros (?&?&?&?) (?&?&?&?). repeat split; congruence. Qed.

Lemma same_snapshot_sym (a b : RuleSetStatus) : same_snapshot a b → same_snapshot b a.
Proof. unfold same_snapshot. intros (?&?&?&?). repeat split; congruence. Qed.

Lemma client_Status_Update_status rs w stored w' :
  client_Status_Update rs w = (inr stored, w') → rs_Status stored = rs_Status rs.
Proof.
  unfold client_Status_Update. destruct (api_call _ w) as [[err|] w1]; [discriminate|].
  destruct (w_rulesets w1 !! rs_key rs) as [cur|]; [|discriminate].
  case_bool_decide; [|discriminate]. by intros [= <- _].
Qed.

Lemma Reconcile_status_unchanged ruleSet st w :
  same_snapshot st (rs_Status ruleSet) →
  Reconcile_status ruleSet st w = (inr ruleSet, w).
Proof.
  intros Hsame. apply equalStatus_same_snapshot in Hsame.
  unfold Reconcile_status. by rewrite Hsame.
Qed.

Lemma Reconcile_status_stored ruleSet st w ruleSet' w' :
  Reconcile_status ruleSet st w = (inr ruleSet', w') →
  same_snapshot st (rs_Status ruleSet').
Proof.
  unfold Reconcile_status. destruct (equalStatus st (rs_Status ruleSet)) eqn:Heq; simpl.
  - intros [= <- _]. by apply equalStatus_same_snapshot.
  - destruct (client_Status_Update _ _) as [[err|stored] w1] eqn:Hupd; [discriminate|].
    intros [= <- _]. apply client_Status_Update_status in Hupd. rewrite Hupd. simpl.
    by repeat split.
Qed.

(** C5: when the new snapshot agrees with the stored status on targets,
    details, rule states and observed generation (whatever the two
    timestamps are), the status step leaves the world as it found it: no
    write is issued, no expectation is registered or deleted, and the
    ruleset object is unchanged.  And after a status step that went
    through, a second status step with a snapshot that differs from the
    first at most in its timestamp changes nothing either. *)
Theorem Reconcile_status_idempotent (ruleSet : RuleSet) (st : RuleSetStatus) (w : World) :
  status_Targets st = status_Targets (rs_Status ruleSet) →
  status_Details st = status_Details (rs_Status ruleSet) →
  status_RuleStates st = status_RuleStates (rs_Status ruleSet) →
  status_ObservedGeneration st = status_ObservedGeneration (rs_Status ruleSet) →
  Reconcile_status ruleSet st w = (inr ruleSet, w)
  ∧ (∀ (ruleSet0 ruleSet1 : RuleSet) (st0 st1 : RuleSetStatus) (w0 w1 : World),
       Reconcile_status ruleSet0 st0 w0 = (inr ruleSet1, w1) →
       same_snapshot st1 st0 →
       Reconcile_status ruleSet1 st1 w1 = (inr ruleSet1, w1)).
Proof.
  intros HT HD HR HG. split.
  - apply Reconcile_status_unchanged. by repeat split.
  - intros ruleSet0 ruleSet1 st0 st1 w0 w1 Hfirst Hsame.
    apply Reconcile_status_unchanged.
    eapply same_snapshot_trans; [exact Hsame|].
    by eapply Reconcile_status_stored.
Qed.

Lemma Reconcile_status_idempotent_witness :
  Reconcile_status (example_ruleset (example_status 5)) (example_status 9)
      (world_of [example_ruleset (example_status 5)] [] [] [queue_live])
    = (inr (example_ruleset (example_status 5)),
       world_of [example_ruleset (example_status 5)] [] [] [queue_live])
  ∧ (∀ (ruleSet0 ruleSet1 : RuleSet) (st0 st1 : RuleSetStatus) (w0 w1 : World),
       Reconcile_status ruleSet0 st0 w0 = (inr ruleSet1, w1) →
       same_snapshot st1 st0 →
       Reconcile_status ruleSet1 st1 w1 = (inr ruleSet1, w1)).
Proof.
  apply (Reconcile_status_idempotent (example_ruleset (example_status 5)) (example_status 9)
           (world_of [example_ruleset (example_status 5)] [] [] [queue_live]));
    reflexivity.
Defined.

(** ** What a step leaves untouched *)

Lemma api_call_only_logged ev w fault w' :
  api_call ev w = (fault, w') → only_logged [ev] w w'.
Proof.
  unfold api_call. destruct (w_faults (log ev w)) as [|f rest];
    intros [= <- <-]; by repeat split.
Qed.

Lemma client_Get_RuleSet_only_logged key w res w' :
  client_Get_RuleSet key w = (res, w') → only_logged [EvGetRuleSet key] w w'.
Proof.
  unfold client_Get_RuleSet.
  destruct (api_call (EvGetRuleSet key) w) as [fault w1] eqn:Hcall.
  apply api_call_only_logged in Hcall.
  destruct fault; [|destruct (w_rulesets w1 !! key)]; by intros [= <- <-].
Qed.

Lemma with_rsExpect_same w : with_rsExpect (w_rsExpect w) w = w.
Proof. by destruct w. Qed.

(** C10: when the fetch of the policy answers not-found, the pass returns
    the empty result and no error, and all it did was that one read: no
    pod listing, no ownership mutation, no status write, nothing offered
    to a sink, no expectation touched. *)
Theorem Reconcile_policy_not_found (rt : GoRuntime) (r : RuleSetReconciler)
    (request : ObjKey) (w w' : World) :
  client_Get_RuleSet request w = (inl ErrNotFound, w') →
  Reconcile rt r request w = ((Result_empty, None), w')
  ∧ only_logged [EvGetRuleSet request] w w'.
Proof.
  intros Hget. split.
  - unfold Reconcile, step_run, step_bind, on_err. by rewrite Hget.
  - by eapply client_Get_RuleSet_only_logged.
Qed.

Lemma Reconcile_policy_not_found_witness :
  Reconcile runtime_inorder {| GetStages := ["pre"]; Process := λ _ _ _, example_pass |}
      ("prod", "rs") example_world_empty
    = ((Result_empty, None), log (EvGetRuleSet ("prod", "rs")) example_world_empty)
  ∧ only_logged [EvGetRuleSet ("prod", "rs")] example_world_empty
      (log (EvGetRuleSet ("prod", "rs")) example_world_empty).
Proof.
  apply (Reconcile_policy_not_found runtime_inorder
           {| GetStages := ["pre"]; Process := λ _ _ _, example_pass |}
           ("prod", "rs") example_world_empty).
  reflexivity.
Defined.

(** C4: when the policy is fetched and its expectation is not satisfied,
    the pass returns the empty result and no error, and all it did was
    the read of the policy: no pod listing, no ownership mutation, no
    status write, nothing offered to a sink; the expectation stays
    recorded. *)
Theorem Reconcile_stale_view_noop (rt : GoRuntime) (r : RuleSetReconciler)
    (request : ObjKey) (w w' : World) (ruleSet : RuleSet) :
  client_Get_RuleSet request w = (inr ruleSet, w') →
  (SatisfiedExpectations (w_rsExpect w') (rs_key ruleSet) (rs_ResourceVersion ruleSet)).1
    = false →
  Reconcile rt r request w = ((Result_empty, None), w')
  ∧ only_logged [EvGetRuleSet request] w w'.
Proof.
  intros Hget Hsat. split.
  - unfold Reconcile, step_run, step_bind, on_err. rewrite Hget.
    unfold SatisfiedExpectations in *.
    destruct (w_rsExpect w' !! rs_key ruleSet) as [base|]; [|discriminate].
    case_bool_decide; [discriminate|]. simpl. by rewrite with_rsExpect_same.
  - by eapply client_Get_RuleSet_only_logged.
Qed.

Lemma Reconcile_stale_view_noop_witness :
  Reconcile runtime_inorder {| GetStages := ["pre"]; Process := λ _ _ _, example_pass |}
      ("prod", "rs") example_world_stale
    = ((Result_empty, None), log (EvGetRuleSet ("prod", "rs")) example_world_stale)
  ∧ only_logged [EvGetRuleSet ("prod", "rs")] example_world_stale
      (log (EvGetRuleSet ("prod", "rs")) example_world_stale).
Proof.
  apply (Reconcile_stale_view_noop runtime_inorder
           {| GetStages := ["pre"]; Process := λ _ _ _, example_pass |}
           ("prod", "rs") example_world_stale _ (example_ruleset status_empty));
    vm_compute; reflexivity.
Defined.

(** ** Which events a step can add to the trace *)

Lemma extends_refl P w : extends P w w.
Proof. exists []. by rewrite app_nil_r. Qed.

Lemma extends_trans P w1 w2 w3 : extends P w1 w2 → extends P w2 w3 → extends P w1 w3.
Proof.
  intros (e1 & H1 & F1) (e2 & H2 & F2). exists (e1 ++ e2). split.
  - by rewrite H2, H1, app_assoc.
  - by apply Forall_app.
Qed.

Lemma extends_mono (P Q : Event → Prop) w w' :
  (∀ ev, P ev → Q ev) → extends P w w' → extends Q w w'.
Proof. intros HPQ (evs & H & F). exists evs. split; [done|]. by eapply Forall_impl. Qed.

Lemma extends_same_trace P w w' : w_trace w' = w_trace w → extends P w w'.
Proof. intros H. exists []. by rewrite app_nil_r. Qed.

Lemma extends_log P ev w : P ev → extends P w (log ev w).
Proof. intros H. exists [ev]. split; [done|]. by repeat constructor. Qed.

Lemma emits_mono {A} (P Q : Event → Prop) (c : World → A * World) :
  (∀ ev, P ev → Q ev) → emits P c → emits Q c.
Proof. intros HPQ Hc w. eapply extends_mono; [exact HPQ | apply Hc]. Qed.

Lemma api_call_emits P ev : P ev → emits P (api_call ev).
Proof.
  intros HP w. unfold api_call. destruct (w_faults (log ev w)); simpl;
    exists [ev]; split; try done; by repeat constructor.
Qed.

Lemma client_Get_Pod_emits P key : P (EvGetPod key) → emits P (client_Get_Pod key).
Proof.
  intros HP w. unfold client_Get_Pod.
  pose proof (api_call_emits P _ HP w) as Hext.
  destruct (api_call (EvGetPod key) w) as [[err|] w1]; simpl in *; [done|].
  by destruct (w_pods w1 !! key).
Qed.

Lemma client_Update_Pod_emits P pod :
  P (EvUpdatePod (pod_key pod)) → emits P (client_Update_Pod pod).
Proof.
  intros HP w. unfold client_Update_Pod.
  pose proof (api_call_emits P _ HP w) as Hext.
  destruct (api_call (EvUpdatePod (pod_key pod)) w) as [[err|] w1]; simpl in *; [done|].
  destruct (w_pods w1 !! pod_key pod); [|done]. by case_bool_decide.
Qed.

Lemma client_Update_RuleSet_emits P rs :
  P (EvUpdateRuleSet (rs_key rs)) → emits P (client_Update_RuleSet rs).
Proof.
  intros HP w. unfold client_Update_RuleSet.
  pose proof (api_call_emits P _ HP w) as Hext.
  destruct (api_call (EvUpdateRuleSet (rs_key rs)) w) as [[err|] w1]; simpl in *; [done|].
  destruct (w_rulesets w1 !! rs_key rs); [|done].
  case_bool_decide; [|done]. by case_bool_decide.
Qed.

Lemma client_Status_Update_emits P rs :
  P (EvUpdateStatus (rs_key rs)) → emits P (client_Status_Update rs).
Proof.
  intros HP w. unfold client_Status_Update.
  pose proof (api_call_emits P _ HP w) as Hext.
  destruct (api_call (EvUpdateStatus (rs_key rs)) w) as [[err|] w1]; simpl in *; [done|].
  destruct (w_rulesets w1 !! rs_key rs); [|done]. by case_bool_decide.
Qed.

Lemma client_Get_Pod_key key w pod w' :
  client_Get_Pod key w = (inr pod, w') → w_pods w' !! key = Some pod.
Proof.
  unfold client_Get_Pod. destruct (api_call _ w) as [[err|] w1]; [discriminate|].
  destruct (w_pods w1 !! key) eqn:Hk; [|discriminate]. by intros [= <- <-].
Qed.

Lemma OwnerFn_apply_key fn pod name : pod_key (OwnerFn_apply fn pod name).1 = pod_key pod.
Proof. unfold OwnerFn_apply. destruct fn; by case_bool_decide. Qed.

Lemma updateRuleSetOnPod_attempt_emits ruleSet fn pod :
  emits (pod_event fn) (updateRuleSetOnPod_attempt ruleSet fn pod).
Proof.
  intros w. unfold updateRuleSetOnPod_attempt.
  pose proof (client_Get_Pod_emits (pod_event fn) (pod_key pod) I w) as Hget.
  destruct (client_Get_Pod (pod_key pod) w) as [[err|pod1] w1]; simpl in *.
  - by destruct (IsNotFound err).
  - destruct (OwnerFn_apply fn pod1 ruleSet) as [pod2 changed].
    assert (extends (pod_event fn) w (log (EvMutate fn (pod_key pod1) ruleSet) w1)) as Hmut.
    { eapply extends_trans; [exact Hget|]. by apply extends_log. }
    destruct changed; [|done].
    pose proof (client_Update_Pod_emits (pod_event fn) pod2 I
                  (log (EvMutate fn (pod_key pod1) ruleSet) w1)) as Hupd.
    destruct (client_Update_Pod pod2 _) as [[err|stored] w2]; simpl in *.
    + destruct (IsNotFound err); simpl; by eapply extends_trans.
    + by eapply extends_trans.
Qed.

Lemma OnError_emits {S} P steps retriable
    (fn : S → World → (option Err * S) * World) lastErr s :
  (∀ s, emits P (fn s)) → emits P (OnError steps retriable fn lastErr s).
Proof.
  intros Hfn. revert lastErr s.
  induction steps as [|steps IH]; intros lastErr s w; simpl; [apply extends_refl|].
  pose proof (Hfn s w) as Hext.
  destruct (fn s w) as [[[err|] s1] w1]; simpl in *; [|done].
  destruct (retriable err); [|done].
  eapply extends_trans; [exact Hext | apply IH].
Qed.

Lemma updateRuleSetOnPod_emits ruleSet pod fn :
  emits (pod_event fn) (updateRuleSetOnPod ruleSet pod fn).
Proof. apply OnError_emits. intros s. apply updateRuleSetOnPod_attempt_emits. Qed.

Lemma cleanUpPod_emits ruleSet : emits (pod_event MoveRulesetAnno) (cleanUpPod ruleSet).
Proof.
  unfold cleanUpPod. induction (status_Targets (rs_Status ruleSet)) as [|name names IH];
    intros w; simpl; [apply extends_refl|].
  pose proof (client_Get_Pod_emits (pod_event MoveRulesetAnno)
                (rs_Namespace ruleSet, name) I w) as Hget.
  destruct (client_Get_Pod (rs_Namespace ruleSet, name) w) as [[err|pod] w1]; simpl in *.
  - destruct (IsNotFound err); [|done]. eapply extends_trans; [exact Hget | apply IH].
  - pose proof (updateRuleSetOnPod_emits (rs_Name ruleSet) pod MoveRulesetAnno w1) as Hupd.
    destruct (updateRuleSetOnPod (rs_Name ruleSet) pod MoveRulesetAnno w1)
      as [[[err|] pod'] w2]; simpl in *.
    + by eapply extends_trans.
    + eapply extends_trans; [exact Hget|]. eapply extends_trans; [exact Hupd | apply IH].
Qed.

Lemma utils_RemoveFinalizer_emits rs finalizer :
  emits cleanup_event (utils_RemoveFinalizer rs finalizer).
Proof.
  intros w. unfold utils_RemoveFinalizer. case_bool_decide; [|apply extends_refl].
  set (rs' := with_rs_Finalizers _ rs).
  pose proof (client_Update_RuleSet_emits cleanup_event rs' I w) as Hupd.
  by destruct (client_Update_RuleSet rs' w) as [[err|stored] w1].
Qed.

Lemma pod_event_cleanup ev : pod_event MoveRulesetAnno ev → cleanup_event ev.
Proof. by destruct ev. Qed.

Lemma pod_event_pipeline fn ev : pod_event fn ev → pipeline_event ev.
Proof. by destruct ev. Qed.

Lemma step_ret_emits {A} P (a : A) : emits P (step_ret a).
Proof. intros w. apply extends_refl. Qed.

Lemma step_bind_emits {A B} P (c : Step A) (k : A → Step B) :
  emits P c → (∀ a, emits P (k a)) → emits P (step_bind c k).
Proof.
  intros Hc Hk w. unfold step_bind. pose proof (Hc w) as Hext.
  destruct (c w) as [[ret|a] w1]; simpl in *; [done|].
  eapply extends_trans; [exact Hext | apply Hk].
Qed.

Lemma step_for_emits {A B} P (body : A → B → Step A) (a : A) (l : list B) :
  (∀ a b, emits P (body a b)) → emits P (step_for body a l).
Proof.
  intros Hbody. revert a. induction l as [|b l IH]; intros a; simpl.
  - apply step_ret_emits.
  - apply step_bind_emits; [apply Hbody | intros a'; apply IH].
Qed.

Lemma step_run_emits P (c : Step Return) : emits P c → emits P (step_run c).
Proof.
  intros Hc w. unfold step_run. pose proof (Hc w) as Hext.
  by destruct (c w) as [[ret|ret] w1].
Qed.

Lemma on_fail_emits P (c : World → option Err * World) h :
  emits P c → emits P (on_fail c h).
Proof.
  intros Hc w. unfold on_fail. pose proof (Hc w) as Hext.
  by destruct (c w) as [[err|] w1].
Qed.

Lemma Reconcile_select_emits P selectedPods : emits P (Reconcile_select selectedPods).
Proof.
  unfold Reconcile_select. apply step_bind_emits; [|intros; apply step_ret_emits].
  apply step_for_emits. intros names pod w.
  destruct (SatisfiedExpectations _ _ _) as [ok tbl]. apply extends_same_trace.
  by destruct ok.
Qed.

Lemma Reconcile_release_emits ruleSet selectedPodNames result :
  emits (pod_event MoveRulesetAnno) (Reconcile_release ruleSet selectedPodNames result).
Proof.
  unfold Reconcile_release. apply step_for_emits. intros [] name w.
  case_bool_decide; [apply extends_refl|].
  pose proof (updateRuleSetOnPod_emits (rs_Name ruleSet)
                (blank_Pod (rs_Namespace ruleSet) name) MoveRulesetAnno w) as Hupd.
  by destruct (updateRuleSetOnPod _ _ _ w) as [[[err|] pod'] w1].
Qed.

Lemma Reconcile_own_emits rt ruleSet targetPods result :
  emits (pod_event AddRuleSetAnno) (Reconcile_own rt ruleSet targetPods result).
Proof.
  unfold Reconcile_own. apply step_for_emits. intros pods [name pod] w.
  pose proof (updateRuleSetOnPod_emits (rs_Name ruleSet) pod AddRuleSetAnno w) as Hupd.
  by destruct (updateRuleSetOnPod _ _ _ w) as [[[err|] pod'] w1].
Qed.

Lemma log_stages_extends P (stages : list string) w :
  (∀ stage, P (EvProcess stage)) →
  extends P w (foldl (λ w stage, log (EvProcess stage) w) w stages).
Proof.
  intros HP. revert w. induction stages as [|stage stages IH]; intros w; simpl.
  - apply extends_refl.
  - eapply extends_trans; [apply extends_log, HP | apply IH].
Qed.

Lemma process_emits rt r rs pods : emits pipeline_event (process rt r rs pods).
Proof. intros w. unfold process. simpl. by apply log_stages_extends. Qed.

Lemma Reconcile_status_emits ruleSet st : emits pipeline_event (Reconcile_status ruleSet st).
Proof.
  intros w. unfold Reconcile_status. destruct (equalStatus _ _); simpl; [apply extends_refl|].
  set (w0 := with_rsExpect _ w). set (rs' := with_rs_Status st ruleSet).
  pose proof (client_Status_Update_emits pipeline_event rs' I w0) as Hupd.
  by destruct (client_Status_Update rs' w0) as [[err|stored] w1].
Qed.

Lemma Reconcile_pipeline_emits rt r ruleSet selectedPods result :
  emits pipeline_event (Reconcile_pipeline rt r ruleSet selectedPods result).
Proof.
  unfold Reconcile_pipeline.
  apply step_bind_emits; [apply Reconcile_select_emits|]. intros [selectedPodNames targetPods].
  apply step_bind_emits.
  { eapply emits_mono; [apply pod_event_pipeline | apply Reconcile_release_emits]. }
  intros _. apply step_bind_emits.
  { eapply emits_mono; [apply pod_event_pipeline | apply Reconcile_own_emits]. }
  intros targetPods'. apply step_bind_emits.
  { intros w. pose proof (process_emits rt r ruleSet targetPods' w) as Hp.
    by destruct (process rt r ruleSet targetPods' w). }
  intros merged. apply step_bind_emits; [intros w; apply extends_refl|].
  intros now. apply step_bind_emits; [apply Reconcile_status_emits|].
  intros ruleSet' w. by apply extends_same_trace.
Qed.

Lemma Reconcile_delete_cleanup_emits request ruleSet selectedPods result ts :
  rs_DeletionTimestamp ruleSet = Some ts →
  bool_decide (is_Some (rs_Labels ruleSet !! rulesetTerminatingLabel))
    || negb (hasRunningPod selectedPods) = true →
  emits cleanup_event (Reconcile_delete request ruleSet selectedPods result)
  ∧ ∀ w, ∃ ret, (Reconcile_delete request ruleSet selectedPods result w).1 = inl ret.
Proof.
  intros Hdel Hperm. unfold Reconcile_delete. rewrite Hdel, Hperm. split.
  - apply step_bind_emits.
    + apply on_fail_emits. eapply emits_mono; [apply pod_event_cleanup | apply cleanUpPod_emits].
    + intros _ w. pose proof (utils_RemoveFinalizer_emits ruleSet cleanUpFinalizer w) as Hrm.
      by destruct (utils_RemoveFinalizer ruleSet cleanUpFinalizer w).
  - intros w. unfold step_bind, on_fail.
    destruct (cleanUpPod ruleSet w) as [[err|] w1]; simpl; [eauto|].
    destruct (utils_RemoveFinalizer ruleSet cleanUpFinalizer w1). simpl. eauto.
Qed.

(** ** The deletion gate *)

(** C1, as the code has it: on a pass that fetched a policy whose
    deletion marker is set, (a) when cleanup is permitted -- the
    terminating label is present or no selected target is still running --
    everything the pass does after listing the targets is release-style
    cleanup: pod reads, remove-ownership mutations, pod writes and the
    finalizer write; no add-ownership mutation and no stage evaluation;
    (b) when cleanup is blocked, the pass records the warning and then
    runs the ownership and stage pipeline as for a live policy; it does
    no finalizer write. *)
Theorem Reconcile_deletion_gate (rt : GoRuntime) (r : RuleSetReconciler)
    (request : ObjKey) (w w1 w3 : World) (ruleSet : RuleSet)
    (tbl : gmap ObjKey N) (selectedPods : list Pod) (ts : Z) :
  client_Get_RuleSet request w = (inr ruleSet, w1) →
  SatisfiedExpectations (w_rsExpect w1) (rs_key ruleSet) (rs_ResourceVersion ruleSet)
    = (true, tbl) →
  client_List_Pods rt (rs_Namespace ruleSet) (rs_Selector ruleSet) (with_rsExpect tbl w1)
    = (inr selectedPods, w3) →
  rs_DeletionTimestamp ruleSet = Some ts →
  if bool_decide (is_Some (rs_Labels ruleSet !! rulesetTerminatingLabel))
     || negb (hasRunningPod selectedPods)
  then extends cleanup_event w3 (Reconcile rt r request w).2
  else Reconcile rt r request w
         = step_run (Reconcile_pipeline rt r ruleSet selectedPods
                       {| Requeue := false; RequeueAfter := 5 * Second |})
             (log (EvRecord "Warning" "BlockProtection") w3)
       ∧ extends pipeline_event (log (EvRecord "Warning" "BlockProtection") w3)
           (Reconcile rt r request w).2.
Proof.
  intros Hget Hsat Hlist Hdel.
  assert (Reconcile rt r request w
          = step_run (let* (result, ruleSet) :=
                        Reconcile_delete request ruleSet selectedPods Result_empty in
                      Reconcile_pipeline rt r ruleSet selectedPods result) w3) as Hrun.
  { unfold Reconcile, step_run, step_bind, on_err. rewrite Hget, Hsat. simpl.
    by rewrite Hlist. }
  destruct (bool_decide _ || negb _) eqn:Hperm.
  - rewrite Hrun.
    destruct (Reconcile_delete_cleanup_emits request ruleSet selectedPods Result_empty ts
                Hdel Hperm)
      as [Hem Hexit].
    unfold step_run, step_bind. specialize (Hem w3). destruct (Hexit w3) as [ret Hret].
    destruct (Reconcile_delete request ruleSet selectedPods Result_empty w3) as [res w4].
    simpl in *. by subst res.
  - assert (Reconcile rt r request w
            = step_run (Reconcile_pipeline rt r ruleSet selectedPods
                          {| Requeue := false; RequeueAfter := 5 * Second |})
                (log (EvRecord "Warning" "BlockProtection") w3)) as Hpipe.
    { rewrite Hrun. unfold step_run, step_bind, Reconcile_delete.
      by rewrite Hdel, Hperm. }
    split; [exact Hpipe|]. rewrite Hpipe.
    apply step_run_emits, Reconcile_pipeline_emits.
Qed.

Lemma Reconcile_deletion_gate_witness :
  extends cleanup_event
    (log (EvListPods "prod") (log (EvGetRuleSet ("prod", "rs")) example_world_forced))
    (Reconcile runtime_inorder example_reconciler ("prod", "rs") example_world_forced).2.
Proof.
  pose proof (Reconcile_deletion_gate runtime_inorder example_reconciler ("prod", "rs")
           example_world_forced
           (log (EvGetRuleSet ("prod", "rs")) example_world_forced)
           (log (EvListPods "prod") (log (EvGetRuleSet ("prod", "rs")) example_world_forced))
           (example_ruleset_deleting {[rulesetTerminatingLabel := "true"]}
              {| status_Targets := ["web-0"]; status_ObservedGeneration := 1;
                 status_Details := []; status_RuleStates := [];
                 status_UpdateTime := None |})
           ∅ [example_pod "web-0" None ["rs"]] 1699999999) as Hgate.
  specialize (Hgate ltac:(vm_compute; reflexivity) ltac:(vm_compute; reflexivity)
                    ltac:(vm_compute; reflexivity) ltac:(reflexivity)).
  exact Hgate.
Defined.

(** C1 as stated fails: with the deletion marker set, a selected pod
    still running and no terminating label, the pass goes on to claim the
    pod and to evaluate the stage. *)
Lemma Reconcile_blocked_deletion_claims_and_evaluates :
  rs_DeletionTimestamp (example_ruleset_deleting ∅ status_empty) = Some 1699999999
  ∧ rs_Labels (example_ruleset_deleting ∅ status_empty) !! rulesetTerminatingLabel = None
  ∧ hasRunningPod [example_pod "web-0" None []] = true
  ∧ w_trace (Reconcile runtime_inorder example_reconciler ("prod", "rs")
               example_world_blocked).2
    = [EvGetRuleSet ("prod", "rs"); EvListPods "prod";
       EvRecord "Warning" "BlockProtection";
       EvGetPod ("prod", "web-0"); EvMutate AddRuleSetAnno ("prod", "web-0") "rs";
       EvUpdatePod ("prod", "web-0"); EvProcess "pre"; EvUpdateStatus ("prod", "rs")]
  ∧ pod_RuleSets <$> w_pods (Reconcile runtime_inorder example_reconciler ("prod", "rs")
                              example_world_blocked).2 !! ("prod", "web-0")
    = Some ["rs"].
Proof. vm_compute. repeat split. Qed.

(** ** The ownership write *)

(** Whatever error the write of the pod comes back with, the attempt
    reports success. *)
Lemma updateRuleSetOnPod_attempt_write_error ruleSet fn pod w pod1 w1 pod2 err w2 :
  client_Get_Pod (pod_key pod) w = (inr pod1, w1) →
  OwnerFn_apply fn pod1 ruleSet = (pod2, true) →
  client_Update_Pod pod2 (log (EvMutate fn (pod_key pod1) ruleSet) w1) = (inl err, w2) →
  updateRuleSetOnPod ruleSet pod fn w = ((None, pod2), w2).
Proof.
  intros Hget Hfn Hupd.
  unfold updateRuleSetOnPod, RetryOnConflict, DefaultRetry_Steps. simpl.
  unfold updateRuleSetOnPod_attempt. rewrite Hget, Hfn, Hupd.
  by destruct (IsNotFound err).
Qed.

(** C2 fails on the code at the write: [updateRuleSetOnPod] drops the
    error of [r.Update].  With a conflict answered to the write, the call
    returns no error after a single attempt (one read, one mutation, one
    write: no retry) and the stored pod is not claimed; with a terminal
    error answered to the write, likewise; and a pass in which the claim
    of a pod fails that way goes on to evaluate the stage and to write
    the status, and returns no error, while the pod in the store is still
    unclaimed. *)
Theorem updateRuleSetOnPod_swallows_write_errors :
  (updateRuleSetOnPod "rs" (example_pod "web-0" None []) AddRuleSetAnno
     (example_world_write_fails ErrConflict)).1.1 = None
  ∧ w_trace (updateRuleSetOnPod "rs" (example_pod "web-0" None []) AddRuleSetAnno
               (example_world_write_fails ErrConflict)).2
    = [EvGetPod ("prod", "web-0"); EvMutate AddRuleSetAnno ("prod", "web-0") "rs";
       EvUpdatePod ("prod", "web-0")]
  ∧ pod_RuleSets <$>
      w_pods (updateRuleSetOnPod "rs" (example_pod "web-0" None []) AddRuleSetAnno
                (example_world_write_fails ErrConflict)).2 !! ("prod", "web-0")
    = Some []
  ∧ (updateRuleSetOnPod "rs" (example_pod "web-0" None []) AddRuleSetAnno
       (example_world_write_fails (ErrOther "connection refused"))).1.1 = None
  ∧ (Reconcile runtime_inorder example_reconciler ("prod", "rs")
       example_world_claim_fails).1
    = ({| Requeue := false; RequeueAfter := 0 |}, None)
  ∧ w_trace (Reconcile runtime_inorder example_reconciler ("prod", "rs")
               example_world_claim_fails).2
    = [EvGetRuleSet ("prod", "rs"); EvListPods "prod"; EvGetPod ("prod", "web-0");
       EvMutate AddRuleSetAnno ("prod", "web-0") "rs"; EvUpdatePod ("prod", "web-0");
       EvProcess "pre"; EvUpdateStatus ("prod", "rs")]
  ∧ pod_RuleSets <$>
      w_pods (Reconcile runtime_inorder example_reconciler ("prod", "rs")
                example_world_claim_fails).2 !! ("prod", "web-0")
    = Some [].
Proof. vm_compute. repeat split. Qed.

(** ** The notifier inside a pass

    The status step stores the new snapshot in [ruleSet.Status] before the
    old details are read back from it, so the notifier compares the new
    details with themselves. *)

Lemma Reconcile_oldDetails_lookup (l : list Detail) :
  foldl (λ (m : gmap string Detail) de, <[detail_Name de := de]> m) ∅ l
  = foldl (λ (m : gmap string Detail) '(i, de), <[i := de]> m) ∅
          ((λ de, (detail_Name de, de)) <$> l).
Proof. by rewrite foldl_fmap. Qed.

Lemma detailList_to_map rt (details : gmap string Detail) :
  map_Forall detail_named details →
  foldl (λ (m : gmap string Detail) de, <[detail_Name de := de]> m) ∅
        (detailList rt details) = details.
Proof.
  intros Hnamed. rewrite Reconcile_oldDetails_lookup.
  set (pairs := (λ de, (detail_Name de, de)) <$> detailList rt details).
  assert (NoDup pairs.*1) as Hnd.
  { unfold pairs. rewrite <- list_fmap_compose.
    change (NoDup (detail_Name <$> detailList rt details)).
    rewrite detailList_names by done. rewrite sort_Strings_perm. apply go_range_NoDup. }
  apply map_eq. intros k.
  rewrite (foldl_rebind_lookup (λ _ de _, de) pairs ∅ k Hnd), lookup_empty.
  transitivity ((list_to_map pairs : gmap string Detail) !! k);
    [by destruct (list_to_map pairs !! k)|].
  apply option_eq. intros d. rewrite <- elem_of_list_to_map by done.
  unfold pairs. rewrite list_elem_of_fmap. split.
  - intros (d' & [= -> ->] & Hin). apply detailList_elem_of in Hin as (k & Hk).
    by rewrite (Hnamed k d' Hk).
  - intros Hk. exists d. split; [by rewrite (Hnamed k d Hk)|].
    apply detailList_elem_of. eauto.
Qed.

Lemma notified_same rt (details : gmap string Detail) : notified rt details details = [].
Proof.
  apply elem_of_nil_inv. intros name Hin. by apply notified_elem_of in Hin.
Qed.

Lemma offered_nil_fmap (queues : list Queue) : offered [] <$> queues = queues.
Proof.
  rewrite <- (list_fmap_id queues) at 2.
  apply list_fmap_ext. intros _ q _. apply offered_nil.
Qed.

Lemma with_queues_same w : with_queues (w_queues w) w = w.
Proof. by destruct w. Qed.

(** After the status step of a pass, the notify step offers nothing to
    any sink, whatever the stored details were. *)
Lemma Reconcile_notify_after_status_silent rt ruleSet ruleSet' selectedPodNames results now w w' :
  Reconcile_status ruleSet
    (newStatus rt ruleSet selectedPodNames (m_details (merge_all rt results))
       (m_ruleStates (merge_all rt results)) now) w = (inr ruleSet', w') →
  Reconcile_notify rt ruleSet' (m_details (merge_all rt results)) w' = w'.
Proof.
  intros Hst. apply Reconcile_status_stored in Hst as (_ & Hdet & _).
  unfold Reconcile_notify, Reconcile_oldDetails. rewrite <- Hdet.
  cbn [status_Details newStatus].
  rewrite detailList_to_map by apply merge_all_named.
  rewrite addQueues_offered, notified_same, fmap_nil.
  etrans; [|apply with_queues_same]. f_equal. apply offered_nil_fmap.
Qed.

(** C3 fails on the code inside a pass: [Reconcile] stores the new
    snapshot in [ruleSet.Status] (line 219) before it reads the old
    details back from [ruleSet.Status.Details] (lines 227-231), so the
    notifier is handed the new details twice.  The stored status holds
    [A] passed and [B] rejected; the pass selects [A] and [C] and computes
    [A] passed and [C] passed.  Handed the stored and the computed
    details, the notifier offers exactly [B] and [C] to the live sink;
    the pass writes the new status, returns no error, and offers nothing
    to the sink, in either iteration order. *)
Theorem Reconcile_notifier_reads_overwritten_status :
  Reconcile_oldDetails (example_ruleset example_status_notify) = example_old
  ∧ addQueues runtime_inorder [queue_live] (example_ruleset example_status_notify)
      example_new example_old
    = [{| q_shuttingDown := false; q_added := [("prod", "B"); ("prod", "C")] |}]
  ∧ (Reconcile runtime_inorder example_reconciler_notify ("prod", "rs")
       example_world_notify).1
    = ({| Requeue := false; RequeueAfter := 0 |}, None)
  ∧ w_trace (Reconcile runtime_inorder example_reconciler_notify ("prod", "rs")
               example_world_notify).2
    = [EvGetRuleSet ("prod", "rs"); EvListPods "prod"; EvGetPod ("prod", "B");
       EvGetPod ("prod", "C"); EvMutate AddRuleSetAnno ("prod", "C") "rs";
       EvGetPod ("prod", "A"); EvMutate AddRuleSetAnno ("prod", "A") "rs";
       EvProcess "pre"; EvUpdateStatus ("prod", "rs")]
  ∧ Reconcile_oldDetails
      (default (example_ruleset status_empty)
         (w_rulesets (Reconcile runtime_inorder example_reconciler_notify ("prod", "rs")
                        example_world_notify).2 !! ("prod", "rs")))
    = example_new
  ∧ w_queues (Reconcile runtime_inorder example_reconciler_notify ("prod", "rs")
                example_world_notify).2
    = [{| q_shuttingDown := false; q_added := [] |}]
  ∧ w_queues (Reconcile runtime_reversed example_reconciler_notify ("prod", "rs")
                example_world_notify).2
    = [{| q_shuttingDown := false; q_added := [] |}].
Proof. vm_compute. repeat split. Qed.

(* ------------------------------------------------------------------ *)
(** ** [updateRuleSetOnPod]: the read side, bounds, and the write       *)
(* ------------------------------------------------------------------ *)

Lemma client_Get_Pod_only_logged key w res w' :
  client_Get_Pod key w = (res, w') → only_logged [EvGetPod key] w w'.
Proof.
  unfold client_Get_Pod.
  destruct (api_call (EvGetPod key) w) as [fault w1] eqn:Hcall.
  apply api_call_only_logged in Hcall.
  destruct fault; [|destruct (w_pods w1 !! key)]; by intros [= <- <-].
Qed.

Lemma updateRuleSetOnPod_unfold ruleSet pod fn w :
  updateRuleSetOnPod ruleSet pod fn w
  = OnError 5 IsConflict (updateRuleSetOnPod_attempt ruleSet fn) None pod w.
Proof. reflexivity. Qed.

(** An attempt that fails has done nothing but its read, and failed with
    the error of that read. *)
Lemma updateRuleSetOnPod_attempt_error ruleSet fn pod w err pod' w' :
  updateRuleSetOnPod_attempt ruleSet fn pod w = ((Some err, pod'), w') →
  client_Get_Pod (pod_key pod) w = (inl err, w') ∧ pod' = pod ∧ IsNotFound err = false.
Proof.
  unfold updateRuleSetOnPod_attempt.
  destruct (client_Get_Pod (pod_key pod) w) as [[e|pod1] w1].
  - destruct (IsNotFound e) eqn:Hnf; [discriminate|]. by intros [= -> -> ->].
  - destruct (OwnerFn_apply fn pod1 ruleSet) as [pod2 []]; [|discriminate].
    destruct (client_Update_Pod pod2 _) as [[e|stored] w2]; [|discriminate].
    by destruct (IsNotFound e).
Qed.

(** X1: a not-found answer to the read ends the call with success: the pod
    object is as it was handed in, nothing was mutated or written, and the
    world differs only by the logged read. *)
Theorem updateRuleSetOnPod_read_not_found (ruleSet : string) (pod : Pod) (fn : OwnerFn)
    (w w1 : World) :
  client_Get_Pod (pod_key pod) w = (inl ErrNotFound, w1) →
  updateRuleSetOnPod ruleSet pod fn w = ((None, pod), w1)
  ∧ only_logged [EvGetPod (pod_key pod)] w w1.
Proof.
  intros Hget. split; [|by eapply client_Get_Pod_only_logged].
  rewrite updateRuleSetOnPod_unfold. simpl. unfold updateRuleSetOnPod_attempt.
  by rewrite Hget.
Qed.

Lemma updateRuleSetOnPod_read_not_found_witness :
  updateRuleSetOnPod "rs" (example_pod "web-9" None []) MoveRulesetAnno example_world_empty
    = ((None, example_pod "web-9" None []),
       log (EvGetPod ("prod", "web-9")) example_world_empty)
  ∧ only_logged [EvGetPod (pod_key (example_pod "web-9" None []))] example_world_empty
      (log (EvGetPod ("prod", "web-9")) example_world_empty).
Proof.
  apply (updateRuleSetOnPod_read_not_found "rs" (example_pod "web-9" None [])
           MoveRulesetAnno example_world_empty).
  reflexivity.
Defined.

(** X2: an error of the read that is neither not-found nor a conflict is
    returned as it is, after that single read: no retry, no mutation, no
    write. *)
Theorem updateRuleSetOnPod_read_terminal_error (ruleSet : string) (pod : Pod) (fn : OwnerFn)
    (w w1 : World) (err : Err) :
  client_Get_Pod (pod_key pod) w = (inl err, w1) →
  IsNotFound err = false → IsConflict err = false →
  updateRuleSetOnPod ruleSet pod fn w = ((Some err, pod), w1)
  ∧ only_logged [EvGetPod (pod_key pod)] w w1.
Proof.
  intros Hget Hnf Hc. split; [|by eapply client_Get_Pod_only_logged].
  rewrite updateRuleSetOnPod_unfold. simpl. unfold updateRuleSetOnPod_attempt.
  by rewrite Hget, Hnf, Hc.
Qed.

Lemma updateRuleSetOnPod_read_terminal_error_witness :
  updateRuleSetOnPod "rs" (example_pod "web-0" None []) AddRuleSetAnno
      (world_of [] [example_pod "web-0" None []] [Some (ErrOther "timeout")] [])
    = ((Some (ErrOther "timeout"), example_pod "web-0" None []),
       with_faults [] (log (EvGetPod ("prod", "web-0"))
         (world_of [] [example_pod "web-0" None []] [Some (ErrOther "timeout")] [])))
  ∧ only_logged [EvGetPod (pod_key (example_pod "web-0" None []))]
      (world_of [] [example_pod "web-0" None []] [Some (ErrOther "timeout")] [])
      (with_faults [] (log (EvGetPod ("prod", "web-0"))
         (world_of [] [example_pod "web-0" None []] [Some (ErrOther "timeout")] []))).
Proof.
  apply (updateRuleSetOnPod_read_terminal_error "rs" (example_pod "web-0" None [])
           AddRuleSetAnno
           (world_of [] [example_pod "web-0" None []] [Some (ErrOther "timeout")] []));
    reflexivity.
Defined.

Lemma after_calls_S n ev w :
  after_calls (S n) ev w = after_calls n ev (api_call ev w).2.
Proof.
  unfold after_calls. induction n as [|n IH]; [done|].
  change (Nat.iter (S (S n)) (λ w, (api_call ev w).2) w)
    with ((api_call ev (Nat.iter (S n) (λ w, (api_call ev w).2) w)).2).
  by rewrite IH.
Qed.

Lemma api_call_scripted ev w fault rest :
  w_faults w = fault :: rest →
  api_call ev w = (fault, with_faults rest (log ev w)).
Proof. unfold api_call. simpl. by intros ->. Qed.

Lemma after_calls_scripted n ev w rest :
  w_faults w = replicate n (Some ErrConflict) ++ rest →
  only_logged (replicate n ev) w (after_calls n ev w)
  ∧ w_faults (after_calls n ev w) = rest.
Proof.
  revert w. induction n as [|n IH]; intros w Hf.
  - simpl in *. repeat split; try done. by rewrite app_nil_r.
  - rewrite after_calls_S. simpl in Hf.
    rewrite (api_call_scripted ev w _ _ Hf). simpl.
    destruct (IH (with_faults (replicate n (Some ErrConflict) ++ rest) (log ev w)) eq_refl)
      as [(H1 & H2 & H3 & H4 & H5 & H6) Hrest].
    split; [|done]. repeat split; try done.
    rewrite H6. simpl. by rewrite <- app_assoc.
Qed.

Lemma updateRuleSetOnPod_attempt_conflict ruleSet fn pod w rest :
  w_faults w = Some ErrConflict :: rest →
  updateRuleSetOnPod_attempt ruleSet fn pod w
  = ((Some ErrConflict, pod), (api_call (EvGetPod (pod_key pod)) w).2).
Proof.
  intros Hf. unfold updateRuleSetOnPod_attempt, client_Get_Pod.
  by rewrite (api_call_scripted _ w _ _ Hf).
Qed.

Lemma OnError_read_conflicts ruleSet fn pod steps n lastErr w rest :
  w_faults w = replicate n (Some ErrConflict) ++ rest →
  OnError (n + steps) IsConflict (updateRuleSetOnPod_attempt ruleSet fn) lastErr pod w
  = OnError steps IsConflict (updateRuleSetOnPod_attempt ruleSet fn)
      (match n with O => lastErr | _ => Some ErrConflict end) pod
      (after_calls n (EvGetPod (pod_key pod)) w).
Proof.
  revert lastErr w. induction n as [|n IH]; intros lastErr w Hf; [done|].
  rewrite after_calls_S. simpl in Hf. cbn [Nat.add OnError].
  rewrite (updateRuleSetOnPod_attempt_conflict _ _ _ _ _ Hf). cbn [IsConflict].
  rewrite (IH (Some ErrConflict)).
  - by destruct n.
  - by rewrite (api_call_scripted _ w _ _ Hf).
Qed.

(** X3: conflicts answered to the read are retried, and the attempts are
    bounded: when the store answers five reads in a row with a conflict,
    the call gives up with the conflict error after exactly those five
    reads, having mutated and written nothing. *)
Theorem updateRuleSetOnPod_read_conflicts_exhausted (ruleSet : string) (pod : Pod)
    (fn : OwnerFn) (w : World) (rest : list (option Err)) :
  w_faults w = replicate 5 (Some ErrConflict) ++ rest →
  updateRuleSetOnPod ruleSet pod fn w
    = ((Some ErrConflict, pod), after_calls 5 (EvGetPod (pod_key pod)) w)
  ∧ only_logged (replicate 5 (EvGetPod (pod_key pod))) w
      (after_calls 5 (EvGetPod (pod_key pod)) w)
  ∧ w_faults (after_calls 5 (EvGetPod (pod_key pod)) w) = rest.
Proof.
  intros Hf. split; [|by apply after_calls_scripted].
  rewrite updateRuleSetOnPod_unfold.
  exact (OnError_read_conflicts ruleSet fn pod 0 5 None w rest Hf).
Qed.

Lemma updateRuleSetOnPod_read_conflicts_exhausted_witness :
  updateRuleSetOnPod "rs" (example_pod "web-0" None []) AddRuleSetAnno
      (example_world_conflicts 5 [None])
    = ((Some ErrConflict, example_pod "web-0" None []),
       after_calls 5 (EvGetPod (pod_key (example_pod "web-0" None [])))
         (example_world_conflicts 5 [None]))
  ∧ only_logged (replicate 5 (EvGetPod (pod_key (example_pod "web-0" None []))))
      (example_world_conflicts 5 [None])
      (after_calls 5 (EvGetPod (pod_key (example_pod "web-0" None [])))
         (example_world_conflicts 5 [None]))
  ∧ w_faults (after_calls 5 (EvGetPod (pod_key (example_pod "web-0" None [])))
                (example_world_conflicts 5 [None])) = [None].
Proof.
  exact (updateRuleSetOnPod_read_conflicts_exhausted "rs" (example_pod "web-0" None [])
           AddRuleSetAnno (example_world_conflicts 5 [None]) [None] eq_refl).
Defined.

(** X4: after up to four reads answered with a conflict, the outcome of the
    call is the outcome of the next attempt, whenever that attempt does
    not end in a conflict itself. *)
Theorem updateRuleSetOnPod_read_conflicts_then (ruleSet : string) (pod pod' : Pod)
    (fn : OwnerFn) (n : nat) (w w' : World) (rest : list (option Err))
    (res : option Err) :
  (n < 5)%nat →
  w_faults w = replicate n (Some ErrConflict) ++ rest →
  updateRuleSetOnPod_attempt ruleSet fn pod (after_calls n (EvGetPod (pod_key pod)) w)
    = ((res, pod'), w') →
  from_option IsConflict false res = false →
  updateRuleSetOnPod ruleSet pod fn w = ((res, pod'), w').
Proof.
  intros Hn Hf Hatt Hres. rewrite updateRuleSetOnPod_unfold.
  replace 5%nat with (n + S (4 - n))%nat by lia.
  rewrite (OnError_read_conflicts ruleSet fn pod (S (4 - n)) n None w rest Hf).
  cbn [OnError]. rewrite Hatt. destruct res as [err|]; [|done].
  simpl in Hres. by rewrite Hres.
Qed.

Lemma updateRuleSetOnPod_read_conflicts_then_witness :
  updateRuleSetOnPod "rs" (example_pod "web-0" None []) AddRuleSetAnno
      (example_world_conflicts 4 [])
  = updateRuleSetOnPod_attempt "rs" AddRuleSetAnno (example_pod "web-0" None [])
      (after_calls 4 (EvGetPod (pod_key (example_pod "web-0" None [])))
         (example_world_conflicts 4 [])).
Proof.
  assert (updateRuleSetOnPod_attempt "rs" AddRuleSetAnno (example_pod "web-0" None [])
            (after_calls 4 (EvGetPod (pod_key (example_pod "web-0" None [])))
               (example_world_conflicts 4 []))
          = ((None, with_pod_ResourceVersion 2 (example_pod "web-0" None ["rs"])),
             (updateRuleSetOnPod_attempt "rs" AddRuleSetAnno (example_pod "web-0" None [])
                (after_calls 4 (EvGetPod (pod_key (example_pod "web-0" None [])))
                   (example_world_conflicts 4 []))).2)) as Hatt.
  { vm_compute. reflexivity. }
  rewrite Hatt at 1.
  exact (updateRuleSetOnPod_read_conflicts_then "rs" (example_pod "web-0" None [])
           _ AddRuleSetAnno 4 (example_world_conflicts 4 []) _ [] None
           ltac:(lia) eq_refl Hatt eq_refl).
Defined.

Lemma OnError_attempt_never_not_found ruleSet fn steps lastErr pod w :
  from_option IsNotFound false lastErr = false →
  from_option IsNotFound false
    (OnError steps IsConflict (updateRuleSetOnPod_attempt ruleSet fn) lastErr pod w).1.1
  = false.
Proof.
  revert lastErr pod w. induction steps as [|steps IH]; intros lastErr pod w Hlast; [done|].
  cbn [OnError].
  destruct (updateRuleSetOnPod_attempt ruleSet fn pod w) as [[[err|] pod'] w'] eqn:Hatt;
    [|done].
  apply updateRuleSetOnPod_attempt_error in Hatt as (_ & _ & Hnf).
  destruct (IsConflict err); [by apply IH | done].
Qed.

(** X5: whatever the store answers, the error [updateRuleSetOnPod] hands
    back is never a not-found error: a pod that is gone, at the read or at
    the write, counts as done. *)
Theorem updateRuleSetOnPod_never_not_found (ruleSet : string) (pod : Pod) (fn : OwnerFn)
    (w : World) :
  from_option IsNotFound false (updateRuleSetOnPod ruleSet pod fn w).1.1 = false.
Proof. rewrite updateRuleSetOnPod_unfold. by apply OnError_attempt_never_not_found. Qed.

Lemma count_events_app f evs1 evs2 :
  count_events f (evs1 ++ evs2) = (count_events f evs1 + count_events f evs2)%nat.
Proof. unfold count_events. by rewrite filter_app, length_app. Qed.

Lemma client_Update_Pod_trace pod w res w' :
  client_Update_Pod pod w = (res, w') →
  w_trace w' = w_trace w ++ [EvUpdatePod (pod_key pod)].
Proof.
  unfold client_Update_Pod, api_call. simpl.
  destruct (w_faults w) as [|[err|] rest]; simpl.
  - destruct (w_pods w !! pod_key pod); [case_bool_decide|]; by intros [= <- <-].
  - by intros [= <- <-].
  - destruct (w_pods w !! pod_key pod); [case_bool_decide|]; by intros [= <- <-].
Qed.

Ltac count_trace :=
  vm_compute; (split; [lia|]); (split; [lia|]); (split; [lia|]);
  first [ by intros [? [=]] | intros _; split; reflexivity ].

(** What one attempt adds to the trace: its read, then at most one
    mutation and one write; a failed attempt adds the read only. *)
Lemma updateRuleSetOnPod_attempt_trace ruleSet fn pod w res pod' w' :
  updateRuleSetOnPod_attempt ruleSet fn pod w = ((res, pod'), w') →
  ∃ evs, w_trace w' = w_trace w ++ evs
         ∧ count_events is_pod_read evs = 1%nat
         ∧ (count_events is_pod_write evs ≤ 1)%nat
         ∧ (count_events is_mutation evs ≤ 1)%nat
         ∧ (is_Some res → count_events is_pod_write evs = 0%nat
                          ∧ count_events is_mutation evs = 0%nat).
Proof.
  unfold updateRuleSetOnPod_attempt.
  destruct (client_Get_Pod (pod_key pod) w) as [[e|pod1] w1] eqn:Hget;
    apply client_Get_Pod_only_logged in Hget as (_ & _ & _ & _ & _ & Htr).
  - intros Hres. exists [EvGetPod (pod_key pod)].
    assert (w' = w1) as -> by (destruct (IsNotFound e); by injection Hres).
    split; [done|]. count_trace.
  - destruct (OwnerFn_apply fn pod1 ruleSet) as [pod2 changed]. destruct changed.
    + destruct (client_Update_Pod pod2 _) as [[e|stored] w2] eqn:Hupd;
        apply client_Update_Pod_trace in Hupd; simpl in Hupd;
        intros Hres;
        assert (w' = w2 ∧ res = None) as [-> ->]
          by (try destruct (IsNotFound e); by injection Hres);
        exists [EvGetPod (pod_key pod); EvMutate fn (pod_key pod1) ruleSet;
                EvUpdatePod (pod_key pod2)];
        (split; [rewrite Hupd, Htr; by rewrite <- !app_assoc|]);
        count_trace.
    + intros [= <- <- <-].
      exists [EvGetPod (pod_key pod); EvMutate fn (pod_key pod1) ruleSet].
      split; [simpl; rewrite Htr; by rewrite <- app_assoc|].
      count_trace.
Qed.

Lemma OnError_attempt_bounded ruleSet fn steps lastErr pod w :
  ∃ evs,
    w_trace (OnError steps IsConflict (updateRuleSetOnPod_attempt ruleSet fn)
               lastErr pod w).2 = w_trace w ++ evs
    ∧ (count_events is_pod_read evs ≤ steps)%nat
    ∧ (count_events is_pod_write evs ≤ 1)%nat
    ∧ (count_events is_mutation evs ≤ 1)%nat.
Proof.
  revert lastErr pod w. induction steps as [|steps IH]; intros lastErr pod w.
  - exists []. simpl. rewrite app_nil_r. vm_compute. repeat split; lia.
  - cbn [OnError].
    destruct (updateRuleSetOnPod_attempt ruleSet fn pod w) as [[res pod'] w'] eqn:Hatt.
    apply updateRuleSetOnPod_attempt_trace in Hatt as (evs & Htr & Hr & Hw & Hm & Hfail).
    destruct res as [err|]; [destruct (IsConflict err)|].
    + destruct (IH (Some err) pod' w') as (evs' & Htr' & Hr' & Hw' & Hm').
      destruct Hfail as [Hw0 Hm0]; [by eexists|].
      exists (evs ++ evs'). rewrite Htr', Htr, <- app_assoc, !count_events_app.
      repeat split; try done; lia.
    + exists evs. simpl. repeat split; try done; lia.
    + exists evs. simpl. repeat split; try done; lia.
Qed.

(** X6: one call of [updateRuleSetOnPod] reads the pod at most five times,
    applies the mutation at most once and writes the pod at most once,
    whatever the store answers. *)
Theorem updateRuleSetOnPod_bounded (ruleSet : string) (pod : Pod) (fn : OwnerFn)
    (w : World) :
  ∃ evs,
    w_trace (updateRuleSetOnPod ruleSet pod fn w).2 = w_trace w ++ evs
    ∧ (count_events is_pod_read evs ≤ 5)%nat
    ∧ (count_events is_pod_write evs ≤ 1)%nat
    ∧ (count_events is_mutation evs ≤ 1)%nat.
Proof. rewrite updateRuleSetOnPod_unfold. apply OnError_attempt_bounded. Qed.

(** ** [updateRuleSetOnPod] on a store that answers every call *)

Lemma pods_step_refl w : pods_step w w.
Proof. by repeat split. Qed.

Lemma pods_step_trans w1 w2 w3 : pods_step w1 w2 → pods_step w2 w3 → pods_step w1 w3.
Proof.
  intros (?&?&?&?&?&?) (?&?&?&?&?&?). repeat split; congruence.
Qed.

Lemma api_call_fault_free ev w : fault_free w → api_call ev w = (None, log ev w).
Proof. unfold fault_free, api_call. simpl. by intros ->. Qed.

Lemma client_Get_Pod_fault_free key w :
  fault_free w →
  client_Get_Pod key w
  = (match w_pods w !! key with Some pod => inr pod | None => inl ErrNotFound end,
     log (EvGetPod key) w).
Proof.
  intros Hff. unfold client_Get_Pod. rewrite api_call_fault_free by done. simpl.
  by destruct (w_pods w !! key).
Qed.

Lemma OwnerFn_apply_ResourceVersion fn pod name :
  pod_ResourceVersion (OwnerFn_apply fn pod name).1 = pod_ResourceVersion pod.
Proof. unfold OwnerFn_apply. destruct fn; by case_bool_decide. Qed.

Lemma OwnerFn_apply_unchanged fn pod name :
  (OwnerFn_apply fn pod name).2 = false → (OwnerFn_apply fn pod name).1 = pod.
Proof. unfold OwnerFn_apply. destruct fn; by case_bool_decide. Qed.

Lemma store_ok_insert w pod :
  store_ok w → store_ok (with_pods (<[pod_key pod := pod]> (w_pods w)) w).
Proof.
  intros Hok key p. simpl. destruct (decide (pod_key pod = key)) as [<-|Hne].
  - rewrite lookup_insert_eq. by intros [= <-].
  - rewrite lookup_insert_ne by done. apply Hok.
Qed.

(** The whole call, when nothing is scripted to fail and the pod is in
    the store: one attempt, and the store holds the returned pod. *)
Lemma updateRuleSetOnPod_fault_free ruleSet pod fn w stored :
  fault_free w → store_ok w → w_pods w !! pod_key pod = Some stored →
  ∃ pod' w',
    updateRuleSetOnPod ruleSet pod fn w = ((None, pod'), w')
    ∧ pods_step w w' ∧ store_ok w'
    ∧ pod_key pod' = pod_key pod
    ∧ pod_RuleSets pod' = pod_RuleSets (OwnerFn_apply fn stored ruleSet).1
    ∧ w_pods w' = <[pod_key pod := pod']> (w_pods w).
Proof.
  intros Hff Hok Hstored. pose proof (Hok _ _ Hstored) as Hkey.
  rewrite updateRuleSetOnPod_unfold. cbn [OnError]. unfold updateRuleSetOnPod_attempt.
  rewrite client_Get_Pod_fault_free, Hstored by done.
  pose proof (OwnerFn_apply_key fn stored ruleSet) as Hk2.
  pose proof (OwnerFn_apply_ResourceVersion fn stored ruleSet) as Hrv.
  pose proof (OwnerFn_apply_unchanged fn stored ruleSet) as Hsame.
  destruct (OwnerFn_apply fn stored ruleSet) as [pod2 changed]. simpl in *.
  destruct changed.
  - unfold client_Update_Pod. rewrite api_call_fault_free by done. simpl.
    rewrite Hk2, Hkey, Hstored, Hrv. rewrite bool_decide_eq_true_2 by done.
    eexists _, _. split; [reflexivity|]. simpl. repeat split; try done.
    + rewrite <- Hkey at 1. rewrite <- Hk2.
      change (pod_key pod2) with (pod_key (with_pod_ResourceVersion
                                             (N.succ (pod_ResourceVersion pod2)) pod2)).
      intros key p. simpl. destruct (decide (pod_key pod2 = key)) as [<-|Hne].
      * rewrite lookup_insert_eq. by intros [= <-].
      * rewrite lookup_insert_ne by done. apply Hok.
    + by rewrite <- Hkey, <- Hk2.
  - rewrite Hsame by done. eexists _, _. split; [reflexivity|]. simpl.
    repeat split; try done. by rewrite insert_id.
Qed.

(** X7: when the mutation function reports that the pod did not change,
    the call issues no write: after the read and the mutation it returns
    success, and the world differs only by those two trace entries. *)
Theorem updateRuleSetOnPod_no_change_no_write (ruleSet : string) (pod pod1 : Pod)
    (fn : OwnerFn) (w w1 : World) :
  client_Get_Pod (pod_key pod) w = (inr pod1, w1) →
  (OwnerFn_apply fn pod1 ruleSet).2 = false →
  updateRuleSetOnPod ruleSet pod fn w
    = ((None, pod1), log (EvMutate fn (pod_key pod1) ruleSet) w1)
  ∧ only_logged [EvGetPod (pod_key pod); EvMutate fn (pod_key pod1) ruleSet] w
      (log (EvMutate fn (pod_key pod1) ruleSet) w1).
Proof.
  intros Hget Hsame. split.
  - rewrite updateRuleSetOnPod_unfold. cbn [OnError]. unfold updateRuleSetOnPod_attempt.
    rewrite Hget. pose proof (OwnerFn_apply_unchanged fn pod1 ruleSet Hsame) as Hpod.
    destruct (OwnerFn_apply fn pod1 ruleSet) as [pod2 changed]. simpl in *. by subst.
  - apply client_Get_Pod_only_logged in Hget as (?&?&?&?&?&Htr).
    repeat split; try done. simpl. rewrite Htr. by rewrite <- app_assoc.
Qed.

Lemma updateRuleSetOnPod_no_change_no_write_witness :
  updateRuleSetOnPod "rs" (blank_Pod "prod" "web-0") AddRuleSetAnno
      (world_of [] [example_pod "web-0" None ["rs"]] [] [])
    = ((None, example_pod "web-0" None ["rs"]),
       log (EvMutate AddRuleSetAnno (pod_key (example_pod "web-0" None ["rs"])) "rs")
         (log (EvGetPod ("prod", "web-0"))
            (world_of [] [example_pod "web-0" None ["rs"]] [] [])))
  ∧ only_logged [EvGetPod (pod_key (blank_Pod "prod" "web-0"));
                 EvMutate AddRuleSetAnno (pod_key (example_pod "web-0" None ["rs"])) "rs"]
      (world_of [] [example_pod "web-0" None ["rs"]] [] [])
      (log (EvMutate AddRuleSetAnno (pod_key (example_pod "web-0" None ["rs"])) "rs")
         (log (EvGetPod ("prod", "web-0"))
            (world_of [] [example_pod "web-0" None ["rs"]] [] []))).
Proof.
  exact (updateRuleSetOnPod_no_change_no_write "rs" (blank_Pod "prod" "web-0")
           (example_pod "web-0" None ["rs"]) AddRuleSetAnno
           (world_of [] [example_pod "web-0" None ["rs"]] [] [])
           (log (EvGetPod ("prod", "web-0"))
              (world_of [] [example_pod "web-0" None ["rs"]] [] []))
           eq_refl eq_refl).
Defined.

Lemma OwnerFn_apply_goal fn pod ruleSet :
  owner_goal fn ruleSet (pod_RuleSets (OwnerFn_apply fn pod ruleSet).1).
Proof.
  unfold OwnerFn_apply, owner_goal. destruct fn; case_bool_decide; simpl; try done.
  - set_solver.
  - intros Hin. apply list_elem_of_filter in Hin as [Hne _]. done.
Qed.

Lemma fault_free_log ev w : fault_free w → fault_free (log ev w).
Proof. done. Qed.

Lemma store_ok_log ev w : store_ok w → store_ok (log ev w).
Proof. done. Qed.

Lemma pods_step_fault_free w w' : pods_step w w' → fault_free w → fault_free w'.
Proof. unfold fault_free. intros (_ & -> & _). done. Qed.

(** One fault-free call: it succeeds; the pod under the key, if present,
    ends with the goal of the mutation; no pod appears or disappears and
    every other pod is untouched. *)
Lemma updateRuleSetOnPod_touch ruleSet pod fn w :
  fault_free w → store_ok w →
  ∃ pod' w',
    updateRuleSetOnPod ruleSet pod fn w = ((None, pod'), w')
    ∧ pods_step w w' ∧ store_ok w'
    ∧ pods_have (owner_goal fn ruleSet) w' (pod_key pod)
    ∧ (∀ key, key ≠ pod_key pod → w_pods w' !! key = w_pods w !! key)
    ∧ (∀ key, is_Some (w_pods w' !! key) ↔ is_Some (w_pods w !! key))
    ∧ pod_key pod' = pod_key pod.
Proof.
  intros Hff Hok. destruct (w_pods w !! pod_key pod) as [stored|] eqn:Hstored.
  - destruct (updateRuleSetOnPod_fault_free ruleSet pod fn w stored Hff Hok Hstored)
      as (pod' & w' & Hrun & Hstep & Hok' & Hkey & Howners & Hpods).
    exists pod', w'. split_and!; try done.
    + intros p. rewrite Hpods, lookup_insert_eq. intros [= <-]. rewrite Howners.
      apply OwnerFn_apply_goal.
    + intros key Hne. by rewrite Hpods, lookup_insert_ne.
    + intros key. rewrite Hpods. destruct (decide (pod_key pod = key)) as [<-|Hne].
      * rewrite lookup_insert_eq, Hstored. split; eauto.
      * by rewrite lookup_insert_ne.
  - exists pod, (log (EvGetPod (pod_key pod)) w).
    assert (client_Get_Pod (pod_key pod) w
            = (inl ErrNotFound, log (EvGetPod (pod_key pod)) w)) as Hget.
    { by rewrite client_Get_Pod_fault_free, Hstored. }
    rewrite updateRuleSetOnPod_unfold. cbn [OnError]. unfold updateRuleSetOnPod_attempt.
    rewrite Hget. simpl. split_and!; try done.
    intros p. simpl. by rewrite Hstored.
Qed.

(** X8: on a store that answers every call and holds the pod under its own
    key, a claim succeeds and leaves the stored pod carrying the ruleset's
    name, a release succeeds and leaves it without; every other pod and
    every ruleset is as before. *)
Theorem updateRuleSetOnPod_establishes_ownership (ruleSet : string) (pod stored : Pod)
    (fn : OwnerFn) (w : World) :
  fault_free w → store_ok w → w_pods w !! pod_key pod = Some stored →
  (updateRuleSetOnPod ruleSet pod fn w).1.1 = None
  ∧ (∃ pod', w_pods (updateRuleSetOnPod ruleSet pod fn w).2 !! pod_key pod = Some pod'
             ∧ match fn with
               | AddRuleSetAnno => ruleSet ∈ pod_RuleSets pod'
               | MoveRulesetAnno => ruleSet ∉ pod_RuleSets pod'
               end)
  ∧ (∀ key, key ≠ pod_key pod →
       w_pods (updateRuleSetOnPod ruleSet pod fn w).2 !! key = w_pods w !! key)
  ∧ w_rulesets (updateRuleSetOnPod ruleSet pod fn w).2 = w_rulesets w.
Proof.
  intros Hff Hok Hstored.
  destruct (updateRuleSetOnPod_touch ruleSet pod fn w Hff Hok)
    as (pod' & w' & Hrun & Hstep & _ & Hgoal & Hother & Hdom & _).
  rewrite Hrun. simpl. split; [done|]. split; [|split; [done | by destruct Hstep]].
  destruct (proj2 (Hdom (pod_key pod))) as [p Hp]; [by eexists|].
  exists p. split; [done|]. specialize (Hgoal p Hp). by destruct fn.
Qed.

Lemma updateRuleSetOnPod_establishes_ownership_witness :
  (updateRuleSetOnPod "rs" (blank_Pod "prod" "web-0") MoveRulesetAnno
     (world_of [] [example_pod "web-0" None ["rs"; "other"]] [] [])).1.1 = None
  ∧ (∃ pod', w_pods (updateRuleSetOnPod "rs" (blank_Pod "prod" "web-0") MoveRulesetAnno
                       (world_of [] [example_pod "web-0" None ["rs"; "other"]] [] [])).2
               !! pod_key (blank_Pod "prod" "web-0") = Some pod'
             ∧ "rs" ∉ pod_RuleSets pod')
  ∧ (∀ key, key ≠ pod_key (blank_Pod "prod" "web-0") →
       w_pods (updateRuleSetOnPod "rs" (blank_Pod "prod" "web-0") MoveRulesetAnno
                 (world_of [] [example_pod "web-0" None ["rs"; "other"]] [] [])).2 !! key
       = w_pods (world_of [] [example_pod "web-0" None ["rs"; "other"]] [] []) !! key)
  ∧ w_rulesets (updateRuleSetOnPod "rs" (blank_Pod "prod" "web-0") MoveRulesetAnno
                  (world_of [] [example_pod "web-0" None ["rs"; "other"]] [] [])).2
    = w_rulesets (world_of [] [example_pod "web-0" None ["rs"; "other"]] [] []).
Proof.
  apply (updateRuleSetOnPod_establishes_ownership "rs" (blank_Pod "prod" "web-0")
           (example_pod "web-0" None ["rs"; "other"]) MoveRulesetAnno
           (world_of [] [example_pod "web-0" None ["rs"; "other"]] [] [])).
  - reflexivity.
  - intros key p Hp.
    destruct (decide (key = ("prod", "web-0"))) as [->|Hne].
    + vm_compute in Hp. by injection Hp as <-.
    + unfold world_of in Hp. simpl in Hp. rewrite lookup_insert_ne in Hp by done.
      by rewrite lookup_empty in Hp.
  - vm_compute. reflexivity.
Defined.

(** ** The ownership loops on a store that answers every call *)

Lemma touched_nil fn ruleSet w w' :
  store_ok w → pods_step w w' → w_pods w' = w_pods w → touched fn ruleSet [] w w'.
Proof.
  intros Hok Hstep Hpods. split_and!.
  - done.
  - intros key pod. rewrite Hpods. apply Hok.
  - by intros key ?%elem_of_nil.
  - intros key _. by rewrite Hpods.
  - intros key. by rewrite Hpods.
  - intros key Hgoal pod. rewrite Hpods. apply Hgoal.
Qed.

Lemma touched_app fn ruleSet keys1 keys2 w1 w2 w3 :
  touched fn ruleSet keys1 w1 w2 → touched fn ruleSet keys2 w2 w3 →
  touched fn ruleSet (keys1 ++ keys2) w1 w3.
Proof.
  intros (Hs1 & _ & Hg1 & Ho1 & Hd1 & Hm1) (Hs2 & Hok2 & Hg2 & Ho2 & Hd2 & Hm2).
  split_and!.
  - by eapply pods_step_trans.
  - done.
  - intros key [Hin|Hin]%elem_of_app; [apply Hm2, Hg1 | apply Hg2]; done.
  - intros key Hnotin. rewrite Ho2, Ho1; [done| |];
      intros Hin; apply Hnotin, elem_of_app; auto.
  - intros key. by rewrite Hd2.
  - intros key Hgoal. by apply Hm2, Hm1.
Qed.

Lemma touched_one ruleSet pod fn w :
  fault_free w → store_ok w →
  ∃ pod' w',
    updateRuleSetOnPod ruleSet pod fn w = ((None, pod'), w')
    ∧ touched fn ruleSet [pod_key pod] w w'
    ∧ pod_key pod' = pod_key pod.
Proof.
  intros Hff Hok.
  destruct (updateRuleSetOnPod_touch ruleSet pod fn w Hff Hok)
    as (pod' & w' & Hrun & Hstep & Hok' & Hgoal & Hother & Hdom & Hkey).
  exists pod', w'. split; [done|]. split; [|done]. split_and!; try done.
  - by intros key ->%list_elem_of_singleton.
  - intros key Hnotin. apply Hother. intros ->. apply Hnotin. by apply list_elem_of_singleton.
  - intros key Hw. destruct (decide (key = pod_key pod)) as [->|Hne]; [done|].
    unfold pods_have. by rewrite Hother.
Qed.

Lemma touched_fault_free fn ruleSet keys w w' :
  touched fn ruleSet keys w w' → fault_free w → fault_free w'.
Proof. intros (Hstep & _). by apply pods_step_fault_free. Qed.

Lemma touched_store_ok fn ruleSet keys w w' : touched fn ruleSet keys w w' → store_ok w'.
Proof. by intros (_ & Hok & _). Qed.

Lemma cleanUpPod_loop_fault_free ruleSet names w :
  fault_free w → store_ok w →
  ∃ w', cleanUpPod_loop ruleSet names w = (None, w')
        ∧ touched MoveRulesetAnno (rs_Name ruleSet)
            ((rs_Namespace ruleSet,.) <$> names) w w'.
Proof.
  revert w. induction names as [|name names IH]; intros w Hff Hok.
  - exists w. split; [done|]. apply touched_nil; [done | apply pods_step_refl | done].
  - cbn [cleanUpPod_loop]. rewrite client_Get_Pod_fault_free by done.
    set (w0 := log (EvGetPod (rs_Namespace ruleSet, name)) w).
    destruct (w_pods w !! _) as [pod|] eqn:Hpod in |- *; cbv beta iota.
    + pose proof (Hok _ _ Hpod) as Hkey.
      destruct (touched_one (rs_Name ruleSet) pod MoveRulesetAnno w0)
        as (pod' & w1 & Hrun & Htouch & _); [done..|].
      rewrite Hrun. rewrite Hkey in Htouch.
      destruct (IH w1) as (w2 & Hloop & Htouch2);
        [by eapply touched_fault_free | by eapply touched_store_ok |].
      exists w2. split; [done|].
      rewrite fmap_cons. apply (touched_app _ _ [_] _ w w1 w2); [|done].
      destruct Htouch as (Hs & Ho & Hg & Hot & Hd & Hm). by split_and!.
    + cbn [IsNotFound]. destruct (IH w0) as (w2 & Hloop & Htouch2); [done..|].
      exists w2. split; [done|].
      rewrite fmap_cons. apply (touched_app _ _ [_] _ w w0 w2); [|done].
      split_and!; try done. intros key ->%list_elem_of_singleton p. simpl.
      by rewrite Hpod.
Qed.

(** X9: on a store that answers every call, [cleanUpPod] returns no error,
    and afterwards no pod recorded in the policy's status targets still
    carries the policy's name; recorded targets that are gone are passed
    over; pods that are not recorded targets, and all rulesets, are
    untouched, and no pod appears or disappears. *)
Theorem cleanUpPod_releases_recorded_targets (ruleSet : RuleSet) (w : World) :
  fault_free w → store_ok w →
  (cleanUpPod ruleSet w).1 = None
  ∧ (∀ name pod, name ∈ status_Targets (rs_Status ruleSet) →
       w_pods (cleanUpPod ruleSet w).2 !! (rs_Namespace ruleSet, name) = Some pod →
       rs_Name ruleSet ∉ pod_RuleSets pod)
  ∧ (∀ key, key ∉ (rs_Namespace ruleSet,.) <$> status_Targets (rs_Status ruleSet) →
       w_pods (cleanUpPod ruleSet w).2 !! key = w_pods w !! key)
  ∧ (∀ key, is_Some (w_pods (cleanUpPod ruleSet w).2 !! key) ↔ is_Some (w_pods w !! key))
  ∧ w_rulesets (cleanUpPod ruleSet w).2 = w_rulesets w.
Proof.
  intros Hff Hok. unfold cleanUpPod.
  destruct (cleanUpPod_loop_fault_free ruleSet (status_Targets (rs_Status ruleSet)) w Hff Hok)
    as (w' & -> & Hstep & _ & Hgoal & Hother & Hdom & _).
  simpl. split_and!; try done.
  - intros name pod Hin Hpod.
    apply (Hgoal (rs_Namespace ruleSet, name)); [|done].
    apply list_elem_of_fmap. by exists name.
  - by destruct Hstep.
Qed.

Lemma world_of_store_ok rulesets pods faults queues :
  store_ok (world_of rulesets pods faults queues).
Proof.
  intros key pod Hpod. simpl in Hpod. apply elem_of_list_to_map_2 in Hpod.
  apply list_elem_of_fmap in Hpod as (p & [= -> ->] & _). done.
Qed.

Lemma cleanUpPod_releases_recorded_targets_witness :
  (cleanUpPod example_ruleset_recorded example_world_recorded).1 = None
  ∧ (∀ name pod, name ∈ status_Targets (rs_Status example_ruleset_recorded) →
       w_pods (cleanUpPod example_ruleset_recorded example_world_recorded).2
         !! (rs_Namespace example_ruleset_recorded, name) = Some pod →
       rs_Name example_ruleset_recorded ∉ pod_RuleSets pod)
  ∧ (∀ key, key ∉ (rs_Namespace example_ruleset_recorded,.)
                     <$> status_Targets (rs_Status example_ruleset_recorded) →
       w_pods (cleanUpPod example_ruleset_recorded example_world_recorded).2 !! key
       = w_pods example_world_recorded !! key)
  ∧ (∀ key, is_Some (w_pods (cleanUpPod example_ruleset_recorded
                               example_world_recorded).2 !! key)
            ↔ is_Some (w_pods example_world_recorded !! key))
  ∧ w_rulesets (cleanUpPod example_ruleset_recorded example_world_recorded).2
    = w_rulesets example_world_recorded.
Proof.
  exact (cleanUpPod_releases_recorded_targets example_ruleset_recorded
           example_world_recorded eq_refl (world_of_store_ok _ _ _ _)).
Defined.

Lemma Reconcile_release_loop_fault_free ruleSet (selectedPodNames : gset string)
    result names w :
  fault_free w → store_ok w →
  ∃ w',
    step_for (λ (_ : unit) (name : string),
                if bool_decide (name ∈ selectedPodNames) then step_ret tt
                else λ w,
                  match updateRuleSetOnPod (rs_Name ruleSet)
                          (blank_Pod (rs_Namespace ruleSet) name) MoveRulesetAnno w with
                  | ((Some err, _), w) => (inl (result, Some err), w)
                  | ((None, _), w) => (inr tt, w)
                  end)
             tt names w = (inr tt, w')
    ∧ touched MoveRulesetAnno (rs_Name ruleSet)
        ((rs_Namespace ruleSet,.) <$> filter (λ name, name ∉ selectedPodNames) names) w w'.
Proof.
  revert w. induction names as [|name names IH]; intros w Hff Hok.
  - exists w. split; [done|]. apply touched_nil; [done | apply pods_step_refl | done].
  - cbn [step_for]. unfold step_bind at 1. rewrite filter_cons.
    case_bool_decide as Hsel.
    + destruct (decide (name ∉ selectedPodNames)); [done|]. cbn [step_ret]. by apply IH.
    + destruct (decide (name ∉ selectedPodNames)); [|done].
      destruct (touched_one (rs_Name ruleSet) (blank_Pod (rs_Namespace ruleSet) name)
                  MoveRulesetAnno w Hff Hok) as (pod' & w1 & Hrun & Htouch & _).
      rewrite Hrun.
      destruct (IH w1) as (w2 & Hloop & Htouch2);
        [by eapply touched_fault_free | by eapply touched_store_ok |].
      exists w2. split; [done|]. rewrite fmap_cons.
      by apply (touched_app _ _ [_] _ w w1 w2).
Qed.

(** X10: on a store that answers every call, the release loop returns
    without error, and afterwards no pod that is recorded in the status
    targets but no longer selected carries the policy's name; pods that
    are still selected, pods that were never recorded, and all rulesets
    are untouched. *)
Theorem Reconcile_release_releases_unselected (ruleSet : RuleSet)
    (selectedPodNames : gset string) (result : Result) (w : World) :
  fault_free w → store_ok w →
  (Reconcile_release ruleSet selectedPodNames result w).1 = inr tt
  ∧ (∀ name pod, name ∈ status_Targets (rs_Status ruleSet) → name ∉ selectedPodNames →
       w_pods (Reconcile_release ruleSet selectedPodNames result w).2
         !! (rs_Namespace ruleSet, name) = Some pod →
       rs_Name ruleSet ∉ pod_RuleSets pod)
  ∧ (∀ name, name ∈ selectedPodNames ∨ name ∉ status_Targets (rs_Status ruleSet) →
       w_pods (Reconcile_release ruleSet selectedPodNames result w).2
         !! (rs_Namespace ruleSet, name)
       = w_pods w !! (rs_Namespace ruleSet, name))
  ∧ w_rulesets (Reconcile_release ruleSet selectedPodNames result w).2 = w_rulesets w.
Proof.
  intros Hff Hok. unfold Reconcile_release.
  destruct (Reconcile_release_loop_fault_free ruleSet selectedPodNames result
              (status_Targets (rs_Status ruleSet)) w Hff Hok)
    as (w' & -> & Hstep & _ & Hgoal & Hother & _ & _).
  simpl. split_and!; try done.
  - intros name pod Hin Hsel Hpod.
    apply (Hgoal (rs_Namespace ruleSet, name)); [|done].
    apply list_elem_of_fmap. exists name. split; [done|]. by apply list_elem_of_filter.
  - intros name Hname. apply Hother.
    intros (name' & [= <-] & [Hsel Hin]%list_elem_of_filter)%list_elem_of_fmap.
    by destruct Hname.
  - by destruct Hstep.
Qed.

Lemma Reconcile_release_releases_unselected_witness :
  (Reconcile_release example_ruleset_recorded {["web-1"]} Result_empty
     example_world_recorded).1 = inr tt
  ∧ (∀ name pod, name ∈ status_Targets (rs_Status example_ruleset_recorded) →
       name ∉ ({["web-1"]} : gset string) →
       w_pods (Reconcile_release example_ruleset_recorded {["web-1"]} Result_empty
                 example_world_recorded).2
         !! (rs_Namespace example_ruleset_recorded, name) = Some pod →
       rs_Name example_ruleset_recorded ∉ pod_RuleSets pod)
  ∧ (∀ name, name ∈ ({["web-1"]} : gset string)
             ∨ name ∉ status_Targets (rs_Status example_ruleset_recorded) →
       w_pods (Reconcile_release example_ruleset_recorded {["web-1"]} Result_empty
                 example_world_recorded).2
         !! (rs_Namespace example_ruleset_recorded, name)
       = w_pods example_world_recorded !! (rs_Namespace example_ruleset_recorded, name))
  ∧ w_rulesets (Reconcile_release example_ruleset_recorded {["web-1"]} Result_empty
                  example_world_recorded).2
    = w_rulesets example_world_recorded.
Proof.
  exact (Reconcile_release_releases_unselected example_ruleset_recorded {["web-1"]}
           Result_empty example_world_recorded eq_refl (world_of_store_ok _ _ _ _)).
Defined.

Lemma Reconcile_own_loop_fault_free ruleSet result (l : list (string * Pod))
    (pods : gmap string Pod) w :
  fault_free w → store_ok w →
  ∃ pods' w',
    step_for (λ (pods : gmap string Pod) '(name, pod) w,
                match updateRuleSetOnPod (rs_Name ruleSet) pod AddRuleSetAnno w with
                | ((Some err, _), w) => (inl (result, Some err), w)
                | ((None, pod'), w) => (inr (<[name := pod']> pods), w)
                end)
             pods l w = (inr pods', w')
    ∧ touched AddRuleSetAnno (rs_Name ruleSet) ((λ e, pod_key e.2) <$> l) w w'
    ∧ dom pods' = dom pods ∪ list_to_set l.*1.
Proof.
  revert pods w. induction l as [|[name pod] l IH]; intros pods w Hff Hok.
  - exists pods, w. split; [done|]. split.
    + apply touched_nil; [done | apply pods_step_refl | done].
    + simpl. by rewrite (right_id_L ∅ (∪)).
  - cbn [step_for]. unfold step_bind at 1.
    destruct (touched_one (rs_Name ruleSet) pod AddRuleSetAnno w Hff Hok)
      as (pod' & w1 & Hrun & Htouch & _).
    rewrite Hrun.
    destruct (IH (<[name := pod']> pods) w1) as (pods' & w2 & Hloop & Htouch2 & Hdom);
      [by eapply touched_fault_free | by eapply touched_store_ok |].
    exists pods', w2. split; [done|]. split.
    + rewrite fmap_cons. by apply (touched_app _ _ [_] _ w w1 w2).
    + rewrite Hdom, dom_insert_L. simpl.
      by rewrite (comm_L (∪) {[name]} (dom pods)), (assoc_L (∪)).
Qed.

(** X11: on a store that answers every call, the claim loop returns
    without error and with a target map over the same names; afterwards
    every target pod that is in the store carries the policy's name; pods
    that are not targets, and all rulesets, are untouched. *)
Theorem Reconcile_own_claims_targets (rt : GoRuntime) (ruleSet : RuleSet)
    (targetPods : gmap string Pod) (result : Result) (w : World) :
  fault_free w → store_ok w →
  (∃ pods', (Reconcile_own rt ruleSet targetPods result w).1 = inr pods'
            ∧ dom pods' = dom targetPods)
  ∧ (∀ name pod stored, targetPods !! name = Some pod →
       w_pods (Reconcile_own rt ruleSet targetPods result w).2 !! pod_key pod = Some stored →
       rs_Name ruleSet ∈ pod_RuleSets stored)
  ∧ (∀ key, (∀ name pod, targetPods !! name = Some pod → pod_key pod ≠ key) →
       w_pods (Reconcile_own rt ruleSet targetPods result w).2 !! key = w_pods w !! key)
  ∧ w_rulesets (Reconcile_own rt ruleSet targetPods result w).2 = w_rulesets w.
Proof.
  intros Hff Hok. unfold Reconcile_own.
  destruct (Reconcile_own_loop_fault_free ruleSet result (go_range rt targetPods)
              targetPods w Hff Hok)
    as (pods' & w' & -> & (Hstep & _ & Hgoal & Hother & _ & _) & Hdom).
  simpl. split_and!.
  - exists pods'. split; [done|]. rewrite Hdom.
    assert (list_to_set (go_range rt targetPods).*1 = dom targetPods) as ->;
      [|by rewrite (idemp_L (∪))].
    apply set_eq. intros name. rewrite elem_of_list_to_set, elem_of_dom, list_elem_of_fmap.
    split.
    + intros ([n p] & -> & Hin). apply go_range_elem_of in Hin. by eexists.
    + intros [p Hp]. exists (name, p). split; [done|]. by apply go_range_elem_of.
  - intros name pod stored Htarget Hstored.
    apply (Hgoal (pod_key pod)); [|done].
    apply list_elem_of_fmap. exists (name, pod). split; [done|]. by apply go_range_elem_of.
  - intros key Hnot. apply Hother.
    intros ([name pod] & -> & Hin%go_range_elem_of)%list_elem_of_fmap.
    by apply (Hnot name pod).
  - by destruct Hstep.
Qed.

Lemma Reconcile_own_claims_targets_witness :
  (∃ pods', (Reconcile_own runtime_reversed example_ruleset_recorded
               {["web-0" := example_pod "web-0" None []]} Result_empty
               (world_of [] [example_pod "web-0" None []; example_pod "web-1" None []]
                  [] [])).1 = inr pods'
            ∧ dom pods' = dom ({["web-0" := example_pod "web-0" None []]} : gmap string Pod))
  ∧ (∀ name pod stored,
       ({["web-0" := example_pod "web-0" None []]} : gmap string Pod) !! name = Some pod →
       w_pods (Reconcile_own runtime_reversed example_ruleset_recorded
                 {["web-0" := example_pod "web-0" None []]} Result_empty
                 (world_of [] [example_pod "web-0" None []; example_pod "web-1" None []]
                    [] [])).2 !! pod_key pod = Some stored →
       rs_Name example_ruleset_recorded ∈ pod_RuleSets stored)
  ∧ (∀ key,
       (∀ name pod,
          ({["web-0" := example_pod "web-0" None []]} : gmap string Pod) !! name = Some pod →
          pod_key pod ≠ key) →
       w_pods (Reconcile_own runtime_reversed example_ruleset_recorded
                 {["web-0" := example_pod "web-0" None []]} Result_empty
                 (world_of [] [example_pod "web-0" None []; example_pod "web-1" None []]
                    [] [])).2 !! key
       = w_pods (world_of [] [example_pod "web-0" None []; example_pod "web-1" None []]
                   [] []) !! key)
  ∧ w_rulesets (Reconcile_own runtime_reversed example_ruleset_recorded
                  {["web-0" := example_pod "web-0" None []]} Result_empty
                  (world_of [] [example_pod "web-0" None []; example_pod "web-1" None []]
                     [] [])).2
    = w_rulesets (world_of [] [example_pod "web-0" None []; example_pod "web-1" None []]
                    [] []).
Proof.
  exact (Reconcile_own_claims_targets runtime_reversed example_ruleset_recorded
           {["web-0" := example_pod "web-0" None []]} Result_empty
           (world_of [] [example_pod "web-0" None []; example_pod "web-1" None []] [] [])
           eq_refl (world_of_store_ok _ _ _ _)).
Defined.

(** ** What the merge leaves under a target *)

Lemma merge_all_snoc rt results stage res :
  merge_all rt (results ++ [(stage, res)])
  = merge_locked rt (merge_all rt results) stage res.
Proof. unfold merge_all. by rewrite foldl_snoc. Qed.

Lemma merge_all_snoc_lookup rt results stage res name :
  m_details (merge_all rt (results ++ [(stage, res)])) !! name
  = match res_PassRules res !! name with
    | Some rules =>
        Some (updateDetail_entry rt res stage name rules
                (m_details (merge_all rt results) !! name))
    | None => m_details (merge_all rt results) !! name
    end.
Proof. rewrite merge_all_snoc. simpl. apply updateDetail_lookup. Qed.

Lemma reporting_snoc name results sr :
  reporting name (results ++ [sr])
  = reporting name results
    ++ match res_PassRules sr.2 !! name with Some _ => [sr] | None => [] end.
Proof.
  unfold reporting. rewrite filter_app. f_equal.
  rewrite filter_cons, filter_nil.
  destruct (res_PassRules sr.2 !! name) eqn:Hp; case_decide as Hd; try done.
  exfalso. apply Hd. by eexists.
Qed.

Lemma bool_decide_length_nil {A} `{EqDecision A} (l : list A) :
  bool_decide (length l = 0%nat) = bool_decide (l = []).
Proof. apply bool_decide_ext. apply length_zero_iff_nil. Qed.

Lemma omap_rejection_snoc name reps stage res :
  omap (rejection_of name) (reps ++ [(stage, res)])
  = omap (rejection_of name) reps
    ++ match res_Rejected res !! name with
       | Some rej => [{| reject_RuleName := rej_RuleName rej;
                         reject_Reason := rej_Reason rej |}]
       | None => []
       end.
Proof.
  rewrite omap_app. f_equal. cbn [omap list_omap]. unfold rejection_of. cbn [snd].
  by destruct (res_Rejected res !! name).
Qed.

Lemma join_passed_snoc rt name reps stage res :
  mjoin (passed_of rt name <$> reps ++ [(stage, res)])
  = mjoin (passed_of rt name <$> reps) ++ passed_of rt name (stage, res).
Proof.
  rewrite fmap_app, join_app. f_equal. cbn [fmap list_fmap mjoin list_join].
  apply app_nil_r.
Qed.

Lemma merged_detail_snoc rt name reps stage res rules :
  res_PassRules res !! name = Some rules →
  Some (updateDetail_entry rt res stage name rules (merged_detail rt name reps))
  = merged_detail rt name (reps ++ [(stage, res)]).
Proof.
  intros Hrules.
  assert (passed_of rt name (stage, res) = sets_String_List rt rules) as Hpassed.
  { unfold passed_of. cbn [snd]. by rewrite Hrules. }
  unfold updateDetail_entry. destruct reps as [|[stage0 res0] reps].
  - cbn [app merged_detail]. rewrite <- (app_nil_l [(stage, res)]).
    rewrite omap_rejection_snoc, join_passed_snoc, Hpassed. cbn [omap list_omap fmap list_fmap mjoin list_join app
                           detail_Name detail_Stage detail_PassedRules detail_RejectInfo].
    rewrite bool_decide_length_nil. by destruct (res_Rejected res !! name).
  - change (merged_detail rt name (((stage0, res0) :: reps) ++ [(stage, res)]))
      with (Some {| detail_Name := name; detail_Stage := stage0;
                    detail_Passed :=
                      bool_decide (omap (rejection_of name)
                                     (((stage0, res0) :: reps) ++ [(stage, res)]) = []);
                    detail_PassedRules :=
                      mjoin (passed_of rt name <$> ((stage0, res0) :: reps) ++ [(stage, res)]);
                    detail_RejectInfo :=
                      omap (rejection_of name)
                        (((stage0, res0) :: reps) ++ [(stage, res)]) |}).
    rewrite omap_rejection_snoc, join_passed_snoc, Hpassed.
    cbn [merged_detail detail_Name detail_Stage detail_PassedRules detail_RejectInfo].
    rewrite bool_decide_length_nil.
    destruct (res_Rejected res !! name); [done|]. by rewrite !app_nil_r.
Qed.

(** X12: the detail the merge holds for a target is determined by the stage
    results that report on it (those listing it as a key of [PassRules]),
    in merge order: there is none when no stage reports on it; otherwise
    its name is the target's, its stage is the first reporting stage (the
    one that created it; later stages do not overwrite it), its passed
    rules are the reporting stages' sorted rule lists appended, its reject
    entries are the reporting stages' rejections of it in order, and it is
    passed exactly when there are no reject entries. *)
Theorem merge_all_detail_of_target (rt : GoRuntime)
    (results : list (string * ProcessResult)) (name : string) :
  m_details (merge_all rt results) !! name
  = merged_detail rt name (reporting name results).
Proof.
  induction results as [|[stage res] results IH] using rev_ind; [done|].
  rewrite merge_all_snoc_lookup, reporting_snoc, IH. cbn [snd].
  destruct (res_PassRules res !! name) as [rules|] eqn:Hrules.
  - by apply merged_detail_snoc.
  - by rewrite app_nil_r.
Qed.

(** X13: the merge holds a detail for a target exactly when some stage
    result lists the target among the keys of its [PassRules]; a target
    that stages only reject, or do not mention, has no detail. *)
Theorem merge_all_detail_exists_iff_reported (rt : GoRuntime)
    (results : list (string * ProcessResult)) (name : string) :
  is_Some (m_details (merge_all rt results) !! name)
  ↔ ∃ stage res, (stage, res) ∈ results ∧ is_Some (res_PassRules res !! name).
Proof.
  induction results as [|[stage res] results IH] using rev_ind.
  - split; [by intros [? [=]] | by intros (? & ? & []%elem_of_nil & _)].
  - rewrite merge_all_snoc_lookup.
    setoid_rewrite elem_of_app. setoid_rewrite list_elem_of_singleton.
    destruct (res_PassRules res !! name) as [rules|] eqn:Hrules.
    + split; [|by eexists]. intros _. exists stage, res. rewrite Hrules. split; [auto | by eexists].
    + rewrite IH. split.
      * intros (st & r & Hin & Hsome). exists st, r. auto.
      * intros (st & r & [Hin|[= -> ->]] & Hsome); [by exists st, r|].
        rewrite Hrules in Hsome. by destruct Hsome.
Qed.

(** ** The status write and the expectation guard *)

Lemma rs_key_with_rs_Status st rs : rs_key (with_rs_Status st rs) = rs_key rs.
Proof. done. Qed.

Lemma client_Status_Update_error rs w err w' :
  client_Status_Update rs w = (inl err, w') →
  only_logged [EvUpdateStatus (rs_key rs)] w w'.
Proof.
  unfold client_Status_Update.
  destruct (api_call (EvUpdateStatus (rs_key rs)) w) as [fault w1] eqn:Hcall.
  apply api_call_only_logged in Hcall.
  destruct fault; [by intros [= <- <-]|].
  destruct (w_rulesets w1 !! rs_key rs); [|by intros [= <- <-]].
  case_bool_decide; [discriminate | by intros [= <- <-]].
Qed.

Lemma client_Status_Update_stored rs w stored w' :
  client_Status_Update rs w = (inr stored, w') →
  ∃ cur, w_rulesets w !! rs_key rs = Some cur
         ∧ rs_ResourceVersion cur = rs_ResourceVersion rs
         ∧ stored = with_rs_ResourceVersion (N.succ (rs_ResourceVersion cur))
                      (with_rs_Status (rs_Status rs) cur)
         ∧ w_rulesets w' = <[rs_key rs := stored]> (w_rulesets w)
         ∧ w_pods w' = w_pods w ∧ w_rsExpect w' = w_rsExpect w
         ∧ w_podExpect w' = w_podExpect w ∧ w_queues w' = w_queues w.
Proof.
  unfold client_Status_Update.
  destruct (api_call (EvUpdateStatus (rs_key rs)) w) as [fault w1] eqn:Hcall.
  apply api_call_only_logged in Hcall as (Hrs & Hpods & Hre & Hpe & Hq & _).
  destruct fault; [discriminate|]. rewrite Hrs.
  destruct (w_rulesets w !! rs_key rs) as [cur|]; [|discriminate].
  case_bool_decide as Hrv; [|discriminate]. intros [= <- <-]. exists cur. simpl.
  by split_and!.
Qed.

(** X14: when the status step leaves the pass, the snapshot differed
    from the stored status and the status write ([r.Status().Update] of
    the ruleset carrying the new snapshot, issued after the expectation
    was registered) failed; the step returns the empty result together
    with exactly the error that write answered, and the write is the only
    call it made.  The store holds the rulesets and pods it held before,
    no sink was offered anything, and no expectation is left recorded for
    the policy: the one registered just before the write has been deleted
    again.  Expectations of other policies are untouched. *)
Theorem Reconcile_status_failure_clears_expectation (ruleSet : RuleSet)
    (st : RuleSetStatus) (w w' : World) (ret : Return) :
  Reconcile_status ruleSet st w = (inl ret, w') →
  equalStatus st (rs_Status ruleSet) = false
  ∧ (∃ err w1,
       client_Status_Update (with_rs_Status st ruleSet)
         (with_rsExpect (ExpectUpdate (w_rsExpect w) (rs_key ruleSet)
                           (rs_ResourceVersion ruleSet)) w)
       = (inl err, w1)
       ∧ ret = (Result_empty, Some err))
  ∧ w_trace w' = w_trace w ++ [EvUpdateStatus (rs_key ruleSet)]
  ∧ w_rsExpect w' !! rs_key ruleSet = None
  ∧ (∀ key, key ≠ rs_key ruleSet → w_rsExpect w' !! key = w_rsExpect w !! key)
  ∧ w_rulesets w' = w_rulesets w
  ∧ w_pods w' = w_pods w
  ∧ w_queues w' = w_queues w.
Proof.
  unfold Reconcile_status.
  destruct (equalStatus st (rs_Status ruleSet)) eqn:Heq; [discriminate|].
  cbn [negb]. rewrite rs_key_with_rs_Status.
  destruct (client_Status_Update _ _) as [[err|stored] w1] eqn:Hupd; [|discriminate].
  intros [= <- <-].
  pose proof Hupd as Hlogged.
  apply client_Status_Update_error in Hlogged as (Hrs & Hpods & Hre & _ & Hq & Htr).
  rewrite rs_key_with_rs_Status in Htr.
  simpl in *. split_and!; try done.
  - by exists err, w1.
  - unfold DeleteExpectations. apply lookup_delete_eq.
  - intros key Hne. unfold DeleteExpectations, ExpectUpdate in *.
    rewrite lookup_delete_ne by done. rewrite Hre. by rewrite lookup_insert_ne.
Qed.

Lemma Reconcile_status_failure_clears_expectation_witness :
  client_Status_Update (with_rs_Status (example_status 9) (example_ruleset status_empty))
    (with_rsExpect (ExpectUpdate (w_rsExpect example_world_status_fails)
                      (rs_key (example_ruleset status_empty))
                      (rs_ResourceVersion (example_ruleset status_empty)))
       example_world_status_fails)
  = (inl (ErrOther "etcd unavailable"),
     (client_Status_Update (with_rs_Status (example_status 9) (example_ruleset status_empty))
        (with_rsExpect (ExpectUpdate (w_rsExpect example_world_status_fails)
                          (rs_key (example_ruleset status_empty))
                          (rs_ResourceVersion (example_ruleset status_empty)))
           example_world_status_fails)).2)
  ∧ (Reconcile_status (example_ruleset status_empty) (example_status 9)
       example_world_status_fails).1
    = inl (Result_empty, Some (ErrOther "etcd unavailable"))
  ∧ w_rsExpect (Reconcile_status (example_ruleset status_empty) (example_status 9)
                  example_world_status_fails).2 !! ("prod", "rs") = None.
Proof.
  destruct (Reconcile_status_failure_clears_expectation (example_ruleset status_empty)
              (example_status 9) example_world_status_fails
              (Reconcile_status (example_ruleset status_empty) (example_status 9)
                 example_world_status_fails).2
              (Result_empty, Some (ErrOther "etcd unavailable")) eq_refl)
    as (_ & _ & _ & Hnone & _).
  split_and!; [reflexivity | reflexivity | exact Hnone].
Defined.

(** X15: when the status step goes on after a snapshot that differs from
    the stored status, the write has gone through: the object it goes on
    with is the one the store now holds under the policy's key, carrying
    the new snapshot and the next resource version, with the rest of the
    stored object untouched; and an expectation is recorded for the
    policy at the resource version the write was issued from. *)
Theorem Reconcile_status_write_arms_expectation (ruleSet ruleSet' : RuleSet)
    (st : RuleSetStatus) (w w' : World) :
  Reconcile_status ruleSet st w = (inr ruleSet', w') →
  equalStatus st (rs_Status ruleSet) = false →
  w_rsExpect w' = <[rs_key ruleSet := rs_ResourceVersion ruleSet]> (w_rsExpect w)
  ∧ w_rulesets w' = <[rs_key ruleSet := ruleSet']> (w_rulesets w)
  ∧ rs_Status ruleSet' = st
  ∧ rs_ResourceVersion ruleSet' = N.succ (rs_ResourceVersion ruleSet)
  ∧ (∃ cur, w_rulesets w !! rs_key ruleSet = Some cur
            ∧ rs_Finalizers ruleSet' = rs_Finalizers cur
            ∧ rs_Labels ruleSet' = rs_Labels cur
            ∧ rs_DeletionTimestamp ruleSet' = rs_DeletionTimestamp cur)
  ∧ w_pods w' = w_pods w
  ∧ w_queues w' = w_queues w.
Proof.
  unfold Reconcile_status. intros Hrun Hneq. rewrite Hneq in Hrun. cbn [negb] in Hrun.
  destruct (client_Status_Update _ _) as [[err|stored] w1] eqn:Hupd; [discriminate|].
  injection Hrun as <- <-.
  apply client_Status_Update_stored in Hupd
    as (cur & Hcur & Hrv & -> & Hrs & Hpods & Hre & _ & Hq).
  rewrite rs_key_with_rs_Status in *. simpl in *.
  split_and!; try done.
  - by rewrite Hrv.
  - by exists cur.
Qed.

Lemma Reconcile_status_write_arms_expectation_witness :
  w_rsExpect (Reconcile_status (example_ruleset status_empty) (example_status 9)
                (world_of [example_ruleset status_empty] [] [] [queue_live])).2
  = <[rs_key (example_ruleset status_empty) :=
        rs_ResourceVersion (example_ruleset status_empty)]>
      (w_rsExpect (world_of [example_ruleset status_empty] [] [] [queue_live])).
Proof.
  assert (Reconcile_status (example_ruleset status_empty) (example_status 9)
            (world_of [example_ruleset status_empty] [] [] [queue_live])
          = (inr (with_rs_ResourceVersion 5 (example_ruleset (example_status 9))),
             (Reconcile_status (example_ruleset status_empty) (example_status 9)
                (world_of [example_ruleset status_empty] [] [] [queue_live])).2)) as Hrun.
  { vm_compute. reflexivity. }
  exact (proj1 (Reconcile_status_write_arms_expectation _ _ _ _ _ Hrun eq_refl)).
Defined.

(** ** Failing reads at the start of a pass *)

Lemma client_List_Pods_only_logged rt namespace selector w res w' :
  client_List_Pods rt namespace selector w = (res, w') →
  only_logged [EvListPods namespace] w w'.
Proof.
  unfold client_List_Pods.
  destruct (api_call (EvListPods namespace) w) as [fault w1] eqn:Hcall.
  apply api_call_only_logged in Hcall.
  destruct fault; by intros [= <- <-].
Qed.

(** X16: when the fetch of the policy fails with an error other than
    not-found, the pass returns the empty result together with that very
    error, and all it did was that one read. *)
Theorem Reconcile_policy_fetch_error (rt : GoRuntime) (r : RuleSetReconciler)
    (request : ObjKey) (w w' : World) (err : Err) :
  client_Get_RuleSet request w = (inl err, w') →
  IsNotFound err = false →
  Reconcile rt r request w = ((Result_empty, Some err), w')
  ∧ only_logged [EvGetRuleSet request] w w'.
Proof.
  intros Hget Hnf. split.
  - unfold Reconcile, step_run, step_bind, on_err. by rewrite Hget, Hnf.
  - by eapply client_Get_RuleSet_only_logged.
Qed.

Lemma Reconcile_policy_fetch_error_witness :
  Reconcile runtime_inorder example_reconciler ("prod", "rs") example_world_status_fails
    = ((Result_empty, Some (ErrOther "etcd unavailable")),
       with_faults [] (log (EvGetRuleSet ("prod", "rs")) example_world_status_fails))
  ∧ only_logged [EvGetRuleSet ("prod", "rs")] example_world_status_fails
      (with_faults [] (log (EvGetRuleSet ("prod", "rs")) example_world_status_fails)).
Proof.
  exact (Reconcile_policy_fetch_error runtime_inorder example_reconciler ("prod", "rs")
           example_world_status_fails _ (ErrOther "etcd unavailable") eq_refl eq_refl).
Defined.

(** X17: when the policy is fetched, its expectation is satisfied and the
    listing of the pods fails, the pass returns the empty result together
    with the listing error; it has read the policy and tried the listing,
    and it has touched no pod, no ruleset and no sink, and registered no
    expectation. *)
Theorem Reconcile_list_error (rt : GoRuntime) (r : RuleSetReconciler)
    (request : ObjKey) (w w1 w3 : World) (ruleSet : RuleSet)
    (tbl : gmap ObjKey N) (err : Err) :
  client_Get_RuleSet request w = (inr ruleSet, w1) →
  SatisfiedExpectations (w_rsExpect w1) (rs_key ruleSet) (rs_ResourceVersion ruleSet)
    = (true, tbl) →
  client_List_Pods rt (rs_Namespace ruleSet) (rs_Selector ruleSet) (with_rsExpect tbl w1)
    = (inl err, w3) →
  Reconcile rt r request w = ((Result_empty, Some err), w3)
  ∧ w_trace w3 = w_trace w ++ [EvGetRuleSet request; EvListPods (rs_Namespace ruleSet)]
  ∧ w_rulesets w3 = w_rulesets w
  ∧ w_pods w3 = w_pods w
  ∧ w_queues w3 = w_queues w
  ∧ (∀ key, key ≠ rs_key ruleSet → w_rsExpect w3 !! key = w_rsExpect w !! key).
Proof.
  intros Hget Hsat Hlist.
  apply client_Get_RuleSet_only_logged in Hget as Hg.
  apply client_List_Pods_only_logged in Hlist as Hl.
  destruct Hg as (Hg1 & Hg2 & Hg3 & _ & Hg5 & Hg6).
  destruct Hl as (Hl1 & Hl2 & Hl3 & _ & Hl5 & Hl6). simpl in *.
  split_and!; try congruence.
  - unfold Reconcile, step_run, step_bind, on_err. rewrite Hget, Hsat. simpl.
    by rewrite Hlist.
  - rewrite Hl6, Hg6. by rewrite <- app_assoc.
  - intros key Hne. rewrite Hl3, <- Hg3. unfold SatisfiedExpectations in Hsat.
    destruct (w_rsExpect w1 !! rs_key ruleSet); [case_bool_decide|];
      try discriminate; injection Hsat as Htbl; subst tbl; [|done].
    by rewrite lookup_delete_ne.
Qed.

Lemma Reconcile_list_error_witness :
  Reconcile runtime_inorder example_reconciler ("prod", "rs") example_world_list_fails
  = ((Result_empty, Some (ErrOther "list timeout")),
     with_faults [] (log (EvListPods "prod")
       (with_faults [Some (ErrOther "list timeout")]
          (log (EvGetRuleSet ("prod", "rs")) example_world_list_fails)))).
Proof.
  exact (proj1 (Reconcile_list_error runtime_inorder example_reconciler ("prod", "rs")
           example_world_list_fails
           (with_faults [Some (ErrOther "list timeout")]
              (log (EvGetRuleSet ("prod", "rs")) example_world_list_fails))
           _ (example_ruleset status_empty) ∅ (ErrOther "list timeout")
           eq_refl eq_refl eq_refl)).
Defined.

(** ** What the pod calls and the pass leave alone *)

Lemma pods_only_refl w : pods_only w w.
Proof. by repeat split. Qed.

Lemma pods_only_trans w1 w2 w3 : pods_only w1 w2 → pods_only w2 w3 → pods_only w1 w3.
Proof. intros (?&?&?&?) (?&?&?&?). repeat split; congruence. Qed.

Lemma only_logged_pods_only evs w w' : only_logged evs w w' → pods_only w w'.
Proof. intros (?&?&?&?&?&?). by repeat split. Qed.

Lemma client_Update_Pod_pods_only pod w : pods_only w (client_Update_Pod pod w).2.
Proof.
  unfold client_Update_Pod.
  destruct (api_call (EvUpdatePod (pod_key pod)) w) as [fault w1] eqn:Hcall.
  apply api_call_only_logged, only_logged_pods_only in Hcall.
  destruct fault; [done|]. destruct (w_pods w1 !! pod_key pod); [|done].
  by case_bool_decide.
Qed.

Lemma updateRuleSetOnPod_attempt_pods_only ruleSet fn pod w :
  pods_only w (updateRuleSetOnPod_attempt ruleSet fn pod w).2.
Proof.
  unfold updateRuleSetOnPod_attempt.
  destruct (client_Get_Pod (pod_key pod) w) as [[e|pod1] w1] eqn:Hget;
    apply client_Get_Pod_only_logged, only_logged_pods_only in Hget.
  - by destruct (IsNotFound e).
  - destruct (OwnerFn_apply fn pod1 ruleSet) as [pod2 changed]. destruct changed; [|done].
    pose proof (client_Update_Pod_pods_only pod2
                  (log (EvMutate fn (pod_key pod1) ruleSet) w1)) as Hupd.
    destruct (client_Update_Pod pod2 _) as [[e|stored] w2]; simpl in *.
    + destruct (IsNotFound e); simpl; eapply pods_only_trans; eauto.
    + eapply pods_only_trans; eauto.
Qed.

Lemma updateRuleSetOnPod_pods_only ruleSet pod fn w :
  pods_only w (updateRuleSetOnPod ruleSet pod fn w).2.
Proof.
  rewrite updateRuleSetOnPod_unfold. generalize 5%nat (@None Err). intros steps.
  revert pod w. induction steps as [|steps IH]; intros pod w lastErr; [apply pods_only_refl|].
  cbn [OnError].
  pose proof (updateRuleSetOnPod_attempt_pods_only ruleSet fn pod w) as Hatt.
  destruct (updateRuleSetOnPod_attempt ruleSet fn pod w) as [[[err|] pod'] w']; [|done].
  destruct (IsConflict err); [|done].
  eapply pods_only_trans; [exact Hatt | apply IH].
Qed.

Lemma cleanUpPod_pods_only ruleSet w : pods_only w (cleanUpPod ruleSet w).2.
Proof.
  unfold cleanUpPod. revert w.
  induction (status_Targets (rs_Status ruleSet)) as [|name names IH]; intros w;
    [apply pods_only_refl|].
  cbn [cleanUpPod_loop].
  destruct (client_Get_Pod (rs_Namespace ruleSet, name) w) as [[e|pod] w1] eqn:Hget;
    apply client_Get_Pod_only_logged, only_logged_pods_only in Hget.
  - destruct (IsNotFound e); [|done]. eapply pods_only_trans; [exact Hget | apply IH].
  - pose proof (updateRuleSetOnPod_pods_only (rs_Name ruleSet) pod MoveRulesetAnno w1) as Hupd.
    destruct (updateRuleSetOnPod (rs_Name ruleSet) pod MoveRulesetAnno w1)
      as [[[err|] pod'] w2]; simpl in *.
    + eapply pods_only_trans; eauto.
    + eapply pods_only_trans; [exact Hget|]. eapply pods_only_trans; [exact Hupd | apply IH].
Qed.

(** X18: in the deletion gate, when cleanup is permitted and [cleanUpPod]
    fails, the pass ends with that error and the empty result, and the
    finalizer is left alone: no ruleset was written, the stored rulesets
    are as before, and the only events are pod reads, remove-ownership
    mutations and pod writes. *)
Theorem Reconcile_delete_cleanup_error_keeps_finalizer (request : ObjKey)
    (ruleSet : RuleSet) (selectedPods : list Pod) (result : Result) (w w' : World)
    (ts : Z) (err : Err) :
  rs_DeletionTimestamp ruleSet = Some ts →
  bool_decide (is_Some (rs_Labels ruleSet !! rulesetTerminatingLabel))
    || negb (hasRunningPod selectedPods) = true →
  cleanUpPod ruleSet w = (Some err, w') →
  Reconcile_delete request ruleSet selectedPods result w
    = (inl (Result_empty, Some err), w')
  ∧ w_rulesets w' = w_rulesets w
  ∧ extends (pod_event MoveRulesetAnno) w w'.
Proof.
  intros Hdel Hperm Hclean. split_and!.
  - unfold Reconcile_delete. rewrite Hdel, Hperm. unfold step_bind, on_fail.
    by rewrite Hclean.
  - pose proof (cleanUpPod_pods_only ruleSet w) as (Hrs & _). by rewrite Hclean in Hrs.
  - pose proof (cleanUpPod_emits ruleSet w) as Hem. by rewrite Hclean in Hem.
Qed.

Lemma Reconcile_delete_cleanup_error_keeps_finalizer_witness :
  Reconcile_delete ("prod", "rs")
    (example_ruleset_deleting {[rulesetTerminatingLabel := "true"]}
       {| status_Targets := ["web-0"]; status_ObservedGeneration := 1;
          status_Details := []; status_RuleStates := []; status_UpdateTime := None |})
    [example_pod "web-0" None ["rs"]] Result_empty example_world_cleanup_fails
  = (inl (Result_empty, Some (ErrOther "read timeout")),
     with_faults [] (log (EvGetPod ("prod", "web-0")) example_world_cleanup_fails)).
Proof.
  exact (proj1 (Reconcile_delete_cleanup_error_keeps_finalizer ("prod", "rs")
           (example_ruleset_deleting {[rulesetTerminatingLabel := "true"]}
              {| status_Targets := ["web-0"]; status_ObservedGeneration := 1;
                 status_Details := []; status_RuleStates := [];
                 status_UpdateTime := None |})
           [example_pod "web-0" None ["rs"]] Result_empty example_world_cleanup_fails
           _ 1699999999 (ErrOther "read timeout") eq_refl eq_refl eq_refl)).
Defined.

(** ** The sinks across a whole pass *)

Lemma step_bind_keeps_queues {A B} (c : Step A) (k : A → Step B) :
  keeps_queues c → (∀ a, keeps_queues (k a)) → keeps_queues (step_bind c k).
Proof.
  intros Hc Hk w. unfold step_bind. pose proof (Hc w) as Hq.
  destruct (c w) as [[ret|a] w1]; simpl in *; [done|]. by rewrite Hk.
Qed.

Lemma step_run_keeps_queues (c : Step Return) w :
  keeps_queues c → w_queues (step_run c w).2 = w_queues w.
Proof.
  intros Hc. unfold step_run. specialize (Hc w). by destruct (c w) as [[ret|ret] w'].
Qed.

Lemma step_for_keeps_queues {A B} (body : A → B → Step A) (a : A) (l : list B) :
  (∀ a b, keeps_queues (body a b)) → keeps_queues (step_for body a l).
Proof.
  intros Hbody. revert a. induction l as [|b l IH]; intros a; simpl; [done|].
  apply step_bind_keeps_queues; [apply Hbody | intros a'; apply IH].
Qed.

Lemma client_Update_RuleSet_keeps_queues rs : keeps_queues (client_Update_RuleSet rs).
Proof.
  intros w. unfold client_Update_RuleSet.
  destruct (api_call (EvUpdateRuleSet (rs_key rs)) w) as [fault w1] eqn:Hcall.
  apply api_call_only_logged in Hcall as (_ & _ & _ & _ & Hq & _).
  destruct fault; [done|]. destruct (w_rulesets w1 !! rs_key rs); [|done].
  case_bool_decide; [|done]. by case_bool_decide.
Qed.

Lemma Reconcile_delete_keeps_queues request ruleSet selectedPods result :
  keeps_queues (Reconcile_delete request ruleSet selectedPods result).
Proof.
  unfold Reconcile_delete. destruct (rs_DeletionTimestamp ruleSet).
  - destruct (_ || _).
    + apply step_bind_keeps_queues.
      * intros w. unfold on_fail.
        pose proof (cleanUpPod_pods_only ruleSet w) as (_ & _ & _ & Hq).
        by destruct (cleanUpPod ruleSet w) as [[err|] w1].
      * intros _ w. unfold utils_RemoveFinalizer. case_bool_decide; [|done].
        set (rs' := with_rs_Finalizers _ ruleSet).
        pose proof (client_Update_RuleSet_keeps_queues rs' w) as Hq.
        by destruct (client_Update_RuleSet rs' w) as [[err|stored] w1].
    + by intros w.
  - intros w. unfold utils_AddFinalizer. case_bool_decide; [done|].
    set (rs' := with_rs_Finalizers _ ruleSet).
    pose proof (client_Update_RuleSet_keeps_queues rs' w) as Hq.
    by destruct (client_Update_RuleSet rs' w) as [[err|stored] w1].
Qed.

Lemma Reconcile_select_keeps_queues selectedPods :
  keeps_queues (Reconcile_select selectedPods).
Proof.
  unfold Reconcile_select. apply step_bind_keeps_queues; [|by intros].
  apply step_for_keeps_queues. intros names pod w.
  destruct (SatisfiedExpectations _ _ _) as [ok tbl]. by destruct ok.
Qed.

Lemma Reconcile_release_keeps_queues ruleSet selectedPodNames result :
  keeps_queues (Reconcile_release ruleSet selectedPodNames result).
Proof.
  unfold Reconcile_release. apply step_for_keeps_queues. intros [] name w.
  case_bool_decide; [done|].
  pose proof (updateRuleSetOnPod_pods_only (rs_Name ruleSet)
                (blank_Pod (rs_Namespace ruleSet) name) MoveRulesetAnno w) as (_ & _ & _ & Hq).
  by destruct (updateRuleSetOnPod _ _ _ w) as [[[err|] pod'] w1].
Qed.

Lemma Reconcile_own_keeps_queues rt ruleSet targetPods result :
  keeps_queues (Reconcile_own rt ruleSet targetPods result).
Proof.
  unfold Reconcile_own. apply step_for_keeps_queues. intros pods [name pod] w.
  pose proof (updateRuleSetOnPod_pods_only (rs_Name ruleSet) pod AddRuleSetAnno w)
    as (_ & _ & _ & Hq).
  by destruct (updateRuleSetOnPod _ _ _ w) as [[[err|] pod'] w1].
Qed.

Lemma log_stages_queues (stages : list string) w :
  w_queues (foldl (λ w stage, log (EvProcess stage) w) w stages) = w_queues w.
Proof.
  revert w. induction stages as [|stage stages IH]; intros w; simpl; [done|].
  by rewrite IH.
Qed.

Lemma Reconcile_status_keeps_queues ruleSet st : keeps_queues (Reconcile_status ruleSet st).
Proof.
  intros w. unfold Reconcile_status. destruct (equalStatus _ _); simpl; [done|].
  destruct (client_Status_Update _ _) as [[err|stored] w1] eqn:Hupd; simpl.
  - by apply client_Status_Update_error in Hupd as (_ & _ & _ & _ & Hq & _).
  - by apply client_Status_Update_stored in Hupd as (_ & _ & _ & _ & _ & _ & _ & _ & Hq).
Qed.

Lemma Reconcile_pipeline_keeps_queues rt r ruleSet selectedPods result :
  keeps_queues (Reconcile_pipeline rt r ruleSet selectedPods result).
Proof.
  unfold Reconcile_pipeline.
  apply step_bind_keeps_queues; [apply Reconcile_select_keeps_queues|].
  intros [selectedPodNames targetPods].
  apply step_bind_keeps_queues; [apply Reconcile_release_keeps_queues|]. intros _.
  apply step_bind_keeps_queues; [apply Reconcile_own_keeps_queues|]. intros targetPods'.
  intros w. unfold step_bind, process. cbv beta iota zeta.
  set (results := (λ currentStage, (currentStage, Process r currentStage ruleSet targetPods'))
                    <$> range_order rt (GetStages r)).
  set (w0 := foldl (λ w stage, log (EvProcess stage) w) w (range_order rt (GetStages r))).
  assert (w_queues w0 = w_queues w) as <- by apply log_stages_queues.
  pose proof (Reconcile_status_keeps_queues ruleSet
                (newStatus rt ruleSet selectedPodNames (m_details (merge_all rt results))
                   (m_ruleStates (merge_all rt results)) (w_now w0)) w0) as Hq.
  match goal with
  | |- context [Reconcile_status ruleSet ?st w0] =>
      destruct (Reconcile_status ruleSet st w0) as [s w1] eqn:Hst
  end.
  destruct s as [ret|ruleSet']; [done|].
  cbn [snd] in *. rewrite <- Hq. f_equal.
  by eapply Reconcile_notify_after_status_silent.
Qed.

(** X19: a pass never offers anything to a sink: whatever the stored
    status was and whatever the stages report, the sinks after
    [Reconcile] are the sinks before it.  (The old details are read from
    the ruleset object after the new status was assigned to it, so the
    notifier compares the new details with themselves.) *)
Theorem Reconcile_never_notifies (rt : GoRuntime) (r : RuleSetReconciler)
    (request : ObjKey) (w : World) :
  w_queues (Reconcile rt r request w).2 = w_queues w.
Proof.
  unfold Reconcile. apply step_run_keeps_queues.
  { apply step_bind_keeps_queues.
    { intros w0. unfold on_err.
      destruct (client_Get_RuleSet request w0) as [[err|rs] w1] eqn:Hget;
        by apply client_Get_RuleSet_only_logged in Hget as (_ & _ & _ & _ & Hq & _). }
    intros ruleSet. apply step_bind_keeps_queues.
    { intros w0. by destruct (SatisfiedExpectations _ _ _). }
    intros [|]; [|by intros w0]. cbn [negb].
    apply step_bind_keeps_queues.
    { intros w0. unfold on_err.
      destruct (client_List_Pods rt _ _ w0) as [[err|pods] w1] eqn:Hlist;
        by apply client_List_Pods_only_logged in Hlist as (_ & _ & _ & _ & Hq & _). }
    intros selectedPods. apply step_bind_keeps_queues.
    { apply Reconcile_delete_keeps_queues. }
    intros [result ruleSet']. apply Reconcile_pipeline_keeps_queues. }
Qed.

(** ** The selection step *)

Lemma with_podExpect_same w : with_podExpect (w_podExpect w) w = w.
Proof. by destruct w. Qed.

Lemma only_podExpect_refl w : only_podExpect w w.
Proof. by repeat split. Qed.

Lemma only_podExpect_trans w1 w2 w3 :
  only_podExpect w1 w2 → only_podExpect w2 w3 → only_podExpect w1 w3.
Proof. intros (?&?&?&?&?&?&?) (?&?&?&?&?&?&?). repeat split; congruence. Qed.

Lemma Reconcile_select_loop (body : gset string → Pod → Step (gset string)) :
  (∀ names pod w,
     body names pod w
     = let '(ok, tbl) := SatisfiedExpectations (w_podExpect w) (pod_key pod)
                           (pod_ResourceVersion pod) in
       if negb ok then (inl (Result_empty, None), with_podExpect tbl w)
       else (inr (names ∪ {[pod_Name pod]}), with_podExpect tbl w)) →
  ∀ selectedPods names w,
    ∃ res w', step_for body names selectedPods w = (res, w')
              ∧ only_podExpect w w'
              ∧ (res = inl (Result_empty, None)
                 ∨ res = inr (names ∪ list_to_set (pod_Name <$> selectedPods))).
Proof.
  intros Hbody selectedPods. induction selectedPods as [|pod pods IH]; intros names w.
  - exists (inr names), w. split; [done|]. split; [apply only_podExpect_refl|].
    right. simpl. by rewrite (right_id_L ∅ (∪)).
  - cbn [step_for]. unfold step_bind. rewrite Hbody.
    destruct (SatisfiedExpectations (w_podExpect w) (pod_key pod) (pod_ResourceVersion pod))
      as [ok tbl].
    destruct ok; cbn [negb].
    + destruct (IH (names ∪ {[pod_Name pod]}) (with_podExpect tbl w))
        as (res & w' & -> & Hw & Hout).
      exists res, w'. split; [done|].
      split; [eapply only_podExpect_trans; [|exact Hw]; by repeat split|].
      destruct Hout as [Hout|Hout]; [by left|right].
      rewrite Hout. simpl. by rewrite (assoc_L (∪)).
    + eexists _, _. split; [done|]. split; [by repeat split | by left].
Qed.

Lemma foldl_insert_by_name_lookup (selectedPods : list Pod) (m : gmap string Pod) name pod :
  foldl (λ (m : gmap string Pod) pod, <[pod_Name pod := pod]> m) m selectedPods !! name
    = Some pod →
  (pod ∈ selectedPods ∧ pod_Name pod = name) ∨ m !! name = Some pod.
Proof.
  revert m. induction selectedPods as [|p pods IH]; intros m; simpl; [by right|].
  intros [[Hin Hname]|Hm]%IH.
  - left. split; [by right | done].
  - destruct (decide (pod_Name p = name)) as [<-|Hne].
    + rewrite lookup_insert_eq in Hm. injection Hm as <-. left. split; [by left | done].
    + rewrite lookup_insert_ne in Hm by done. by right.
Qed.

Lemma foldl_insert_by_name_dom (selectedPods : list Pod) (m : gmap string Pod) :
  dom (foldl (λ (m : gmap string Pod) pod, <[pod_Name pod := pod]> m) m selectedPods)
  = dom m ∪ list_to_set (pod_Name <$> selectedPods).
Proof.
  revert m. induction selectedPods as [|p pods IH]; intros m; simpl.
  - by rewrite (right_id_L ∅ (∪)).
  - rewrite IH, dom_insert_L.
    by rewrite (comm_L (∪) {[pod_Name p]} (dom m)), (assoc_L (∪)).
Qed.


Lemma SatisfiedExpectations_other tbl key observed key' observed' :
  key' ≠ key →
  (SatisfiedExpectations (SatisfiedExpectations tbl key observed).2 key' observed').1
  = (SatisfiedExpectations tbl key' observed').1.
Proof.
  intros Hne. unfold SatisfiedExpectations at 2.
  destruct (tbl !! key) as [base|]; [case_bool_decide|]; simpl; try done.
  unfold SatisfiedExpectations. rewrite lookup_delete_ne by (intros Heq; by apply Hne).
  destruct (tbl !! key'); [by case_bool_decide | done].
Qed.

Lemma Reconcile_select_loop_stale (body : gset string → Pod → Step (gset string)) :
  (∀ names pod w,
     body names pod w
     = let '(ok, tbl) := SatisfiedExpectations (w_podExpect w) (pod_key pod)
                           (pod_ResourceVersion pod) in
       if negb ok then (inl (Result_empty, None), with_podExpect tbl w)
       else (inr (names ∪ {[pod_Name pod]}), with_podExpect tbl w)) →
  ∀ selectedPods names w pod,
    pod ∈ selectedPods → NoDup (pod_key <$> selectedPods) →
    (SatisfiedExpectations (w_podExpect w) (pod_key pod) (pod_ResourceVersion pod)).1 = false →
    (step_for body names selectedPods w).1 = inl (Result_empty, None).
Proof.
  intros Hbody selectedPods.
  induction selectedPods as [|p pods IH]; intros names w pod Hin Hnd Hstale.
  - by apply elem_of_nil in Hin.
  - cbn [step_for]. unfold step_bind. rewrite Hbody.
    rewrite fmap_cons in Hnd. apply NoDup_cons in Hnd as [Hp Hnd].
    destruct (SatisfiedExpectations (w_podExpect w) (pod_key p) (pod_ResourceVersion p))
      as [ok tbl] eqn:Hsat.
    destruct ok; cbn [negb]; [|done].
    apply elem_of_cons in Hin as [->|Hin]; [by rewrite Hsat in Hstale|].
    apply (IH _ _ pod); [done..|]. simpl.
    assert (pod_key pod ≠ pod_key p) as Hne.
    { intros Heq. apply Hp. rewrite <- Heq. by apply list_elem_of_fmap_2. }
    pose proof (SatisfiedExpectations_other (w_podExpect w) (pod_key p)
                  (pod_ResourceVersion p) _ (pod_ResourceVersion pod) Hne) as Hother.
    rewrite Hsat in Hother. simpl in Hother. by rewrite Hother.
Qed.

(** X21: when the expectation of one of the listed pods (listed under
    distinct keys) is not satisfied, everything after the deletion gate is
    skipped: the pass returns the empty result and no error, and nothing
    but the pod expectation table has changed -- no pod was read or
    written, no stage evaluated, no status written, no event logged. *)
Theorem Reconcile_pipeline_stale_pod_noop (rt : GoRuntime) (r : RuleSetReconciler)
    (ruleSet : RuleSet) (selectedPods : list Pod) (result : Result) (w : World) (pod : Pod) :
  pod ∈ selectedPods →
  NoDup (pod_key <$> selectedPods) →
  (SatisfiedExpectations (w_podExpect w) (pod_key pod) (pod_ResourceVersion pod)).1 = false →
  (step_run (Reconcile_pipeline rt r ruleSet selectedPods result) w).1 = (Result_empty, None)
  ∧ only_podExpect w (step_run (Reconcile_pipeline rt r ruleSet selectedPods result) w).2.
Proof.
  intros Hin Hnd Hstale.
  assert (∃ w', Reconcile_select selectedPods w = (inl (Result_empty, None), w')
                ∧ only_podExpect w w') as (w' & Hsel & Hw).
  { unfold Reconcile_select, step_bind.
    match goal with |- context [step_for ?body ∅ selectedPods w] =>
      pose proof (Reconcile_select_loop_stale body) as Hexit;
      pose proof (Reconcile_select_loop body) as Hloop
    end.
    specialize (Hexit
      ltac:(intros names p w0; by destruct (SatisfiedExpectations _ _ _) as [[] ?])
      selectedPods ∅ w pod Hin Hnd Hstale).
    destruct (Hloop
      ltac:(intros names p w0; by destruct (SatisfiedExpectations _ _ _) as [[] ?])
      selectedPods ∅ w) as (res & w' & Hrun & Hw & _).
    rewrite Hrun in *. simpl in Hexit. subst res. by exists w'. }
  unfold step_run, Reconcile_pipeline, step_bind. rewrite Hsel. by split.
Qed.

Lemma Reconcile_pipeline_stale_pod_noop_witness :
  (step_run (Reconcile_pipeline runtime_inorder example_reconciler
               (example_ruleset status_empty)
               [example_pod "web-1" None []; example_pod "web-0" None []] Result_empty)
     example_world_stale_pod).1 = (Result_empty, None)
  ∧ only_podExpect example_world_stale_pod
      (step_run (Reconcile_pipeline runtime_inorder example_reconciler
                   (example_ruleset status_empty)
                   [example_pod "web-1" None []; example_pod "web-0" None []] Result_empty)
         example_world_stale_pod).2.
Proof.
  apply (Reconcile_pipeline_stale_pod_noop runtime_inorder example_reconciler
           (example_ruleset status_empty)
           [example_pod "web-1" None []; example_pod "web-0" None []] Result_empty
           example_world_stale_pod (example_pod "web-0" None [])).
  - apply elem_of_cons. right. apply elem_of_cons. by left.
  - cbn [fmap list_fmap]. apply NoDup_cons. split; [|apply NoDup_singleton].
    intros Hin%list_elem_of_singleton. discriminate.
  - reflexivity.
Defined.

(** ** A stable selection, the gate's decision, and an idle notifier *)

(** X22: when every recorded target is still selected, the release loop
    does nothing at all: no call is made and the world is unchanged. *)
Theorem Reconcile_release_stable_selection (ruleSet : RuleSet)
    (selectedPodNames : gset string) (result : Result) (w : World) :
  (∀ name, name ∈ status_Targets (rs_Status ruleSet) → name ∈ selectedPodNames) →
  Reconcile_release ruleSet selectedPodNames result w = (inr tt, w).
Proof.
  unfold Reconcile_release. induction (status_Targets (rs_Status ruleSet)) as [|name names IH];
    intros Hall; [done|].
  cbn [step_for]. unfold step_bind.
  rewrite bool_decide_eq_true_2 by (apply Hall; by left). cbn [step_ret].
  apply IH. intros n Hn. apply Hall. by right.
Qed.

Lemma Reconcile_release_stable_selection_witness :
  Reconcile_release example_ruleset_recorded {["web-0"; "gone"; "web-1"]} Result_empty
    example_world_recorded
  = (inr tt, example_world_recorded).
Proof.
  apply (Reconcile_release_stable_selection example_ruleset_recorded
           {["web-0"; "gone"; "web-1"]} Result_empty example_world_recorded).
  intros name Hin. simpl in Hin.
  apply elem_of_cons in Hin as [->|Hin]; [set_unfold; auto|].
  apply list_elem_of_singleton in Hin as ->. set_unfold; auto.
Defined.

Lemma hasRunningPod_true_iff (pods : list Pod) :
  hasRunningPod pods = true ↔ ∃ pod, pod ∈ pods ∧ pod_DeletionTimestamp pod = None.
Proof.
  unfold hasRunningPod. rewrite existsb_exists. split.
  - intros (pod & Hin & Hrun). exists pod. split; [by apply list_elem_of_In|].
    by apply bool_decide_eq_true in Hrun.
  - intros (pod & Hin & Hrun). exists pod. split; [by apply list_elem_of_In|].
    by apply bool_decide_eq_true.
Qed.

(** X23: the decision of the deletion gate.  For a policy whose deletion
    marker is set: if the terminating label is absent and some listed pod
    has no deletion marker, the gate does not leave the pass; it only
    records the warning event and hands on the ruleset unchanged together
    with a result asking for a re-check after five seconds.  If the label
    is present (whatever its value), or every listed pod has a deletion
    marker (in particular if none is listed), the gate ends the pass. *)
Theorem Reconcile_delete_gate_decision (request : ObjKey) (ruleSet : RuleSet)
    (selectedPods : list Pod) (result : Result) (w : World) (ts : Z) :
  rs_DeletionTimestamp ruleSet = Some ts →
  (rs_Labels ruleSet !! rulesetTerminatingLabel = None →
   (∃ pod, pod ∈ selectedPods ∧ pod_DeletionTimestamp pod = None) →
   Reconcile_delete request ruleSet selectedPods result w
   = (inr ({| Requeue := Requeue result; RequeueAfter := 5000000000 |}, ruleSet),
      log (EvRecord "Warning" "BlockProtection") w))
  ∧ (is_Some (rs_Labels ruleSet !! rulesetTerminatingLabel)
     ∨ (∀ pod, pod ∈ selectedPods → is_Some (pod_DeletionTimestamp pod)) →
     ∃ ret, (Reconcile_delete request ruleSet selectedPods result w).1 = inl ret).
Proof.
  intros Hdel. split.
  - intros Hlabel Hrun. apply hasRunningPod_true_iff in Hrun.
    unfold Reconcile_delete. rewrite Hdel, Hlabel, Hrun.
    rewrite bool_decide_eq_false_2 by (intros [? ?]; discriminate). reflexivity.
  - intros Hperm.
    apply (Reconcile_delete_cleanup_emits request ruleSet selectedPods result ts Hdel).
    destruct Hperm as [Hlabel|Hall].
    + by rewrite bool_decide_eq_true_2.
    + destruct (hasRunningPod selectedPods) eqn:Hrun; [|by rewrite orb_true_r].
      apply hasRunningPod_true_iff in Hrun as (pod & Hin & Hnone).
      destruct (Hall pod Hin) as [t Ht]. congruence.
Qed.

Lemma Reconcile_delete_gate_decision_witness :
  ∃ ret, (Reconcile_delete ("prod", "rs") (example_ruleset_deleting ∅ status_empty)
            [example_pod "web-0" (Some 1699999000) ["rs"]] Result_empty
            example_world_blocked).1 = inl ret.
Proof.
  apply (Reconcile_delete_gate_decision ("prod", "rs")
           (example_ruleset_deleting ∅ status_empty)
           [example_pod "web-0" (Some 1699999000) ["rs"]] Result_empty
           example_world_blocked 1699999999 eq_refl).
  right. intros pod ->%list_elem_of_singleton. by eexists.
Defined.

(** X24: what the notifier can do to the sinks.  Whatever the two detail
    maps are, it keeps the number of sinks, every sink's shutting-down
    flag, and every key a sink already held, in place, only ever
    appending; and when the old and the new details are the same map, it
    leaves the sinks exactly as they are. *)
Theorem addQueues_only_appends (rt : GoRuntime) (queues : list Queue) (rs : RuleSet)
    (details oldDetails : gmap string Detail) :
  length (addQueues rt queues rs details oldDetails) = length queues
  ∧ Forall2 (λ q q', q_shuttingDown q' = q_shuttingDown q
                     ∧ q_added q `prefix_of` q_added q')
      queues (addQueues rt queues rs details oldDetails)
  ∧ addQueues rt queues rs details details = queues.
Proof.
  rewrite !addQueues_offered. split_and!.
  - apply length_fmap.
  - apply Forall2_fmap_r, Forall_Forall2_diag, Forall_forall. intros q _.
    unfold offered. destruct q as [[] added]; simpl.
    + by split.
    + split; [done|]. by apply prefix_app_r.
  - rewrite notified_same, fmap_nil. apply offered_nil_fmap.
Qed.

(** ** The result handed in by the deletion gate *)






(** The blocked deletion completes its pass: the caller gets the merge's
    requeue decision, here none at all. *)
Example Reconcile_blocked_deletion_requeue_dropped :
  (Reconcile runtime_inorder example_reconciler ("prod", "rs") example_world_blocked).1
  = ({| Requeue := false; RequeueAfter := 0 |}, None).
Proof. vm_compute. reflexivity. Qed.

(** ** The ownership delta of a pass *)

Lemma Reconcile_select_no_expectations selectedPods w :
  w_podExpect w = ∅ →
  Reconcile_select selectedPods w
  = (inr (list_to_set (pod_Name <$> selectedPods),
          foldl (λ (m : gmap string Pod) pod, <[pod_Name pod := pod]> m) ∅ selectedPods), w).
Proof.
  intros Hempty. unfold Reconcile_select, step_bind.
  match goal with |- context [step_for ?body ∅ selectedPods w] =>
    assert (∀ names, step_for body names selectedPods w
                     = (inr (names ∪ list_to_set (pod_Name <$> selectedPods)), w)) as Hloop
  end.
  { induction selectedPods as [|pod pods IH]; intros names; simpl.
    - by rewrite (right_id_L ∅ (∪)).
    - unfold step_bind at 1. unfold SatisfiedExpectations at 1.
      rewrite Hempty, lookup_empty. cbn [negb]. rewrite <- Hempty, with_podExpect_same.
      rewrite IH. by rewrite (assoc_L (∪)). }
  rewrite Hloop. by rewrite (left_id_L ∅ (∪)).
Qed.

Lemma Reconcile_status_pods ruleSet st w :
  w_pods (Reconcile_status ruleSet st w).2 = w_pods w.
Proof.
  unfold Reconcile_status. destruct (equalStatus _ _); simpl; [done|].
  destruct (client_Status_Update _ _) as [[err|stored] w1] eqn:Hupd; simpl.
  - by apply client_Status_Update_error in Hupd as (_ & Hp & _).
  - by apply client_Status_Update_stored in Hupd as (_ & _ & _ & _ & _ & Hp & _).
Qed.

Lemma log_stages_pods (stages : list string) w :
  w_pods (foldl (λ w stage, log (EvProcess stage) w) w stages) = w_pods w.
Proof.
  revert w. induction stages as [|stage stages IH]; intros w; simpl; [done|].
  by rewrite IH.
Qed.

(** After the claim loop nothing in the pass touches a pod. *)
Lemma Reconcile_pipeline_pods rt r ruleSet selectedPods result w selectedPodNames
    targetPods w1 w2 w3 targetPods' :
  Reconcile_select selectedPods w = (inr (selectedPodNames, targetPods), w1) →
  Reconcile_release ruleSet selectedPodNames result w1 = (inr tt, w2) →
  Reconcile_own rt ruleSet targetPods result w2 = (inr targetPods', w3) →
  w_pods (step_run (Reconcile_pipeline rt r ruleSet selectedPods result) w).2 = w_pods w3.
Proof.
  intros Hsel Hrel Hown. unfold step_run, Reconcile_pipeline, step_bind.
  rewrite Hsel, Hrel, Hown. unfold process. cbv beta iota zeta.
  match goal with
  | |- context [Reconcile_status ruleSet ?st ?w0] =>
      pose proof (Reconcile_status_pods ruleSet st w0) as Hp;
      destruct (Reconcile_status ruleSet st w0) as [s w4]
  end.
  destruct s as [ret|ruleSet']; simpl in *; by rewrite Hp, log_stages_pods.
Qed.

(** X26: the ownership delta of a pass.  On a store that answers every
    call, with no pod expectation pending and the listed pods in the
    policy's namespace, after everything that follows the deletion gate:
    every listed pod that is in the store carries the policy's name;
    every pod that is recorded in the status targets, is not listed any
    more and is in the store does not carry it; and every other pod of
    the store is as it was. *)
Theorem Reconcile_pipeline_ownership_delta (rt : GoRuntime) (r : RuleSetReconciler)
    (ruleSet : RuleSet) (selectedPods : list Pod) (result : Result) (w : World) :
  fault_free w → store_ok w → w_podExpect w = ∅ →
  (∀ pod, pod ∈ selectedPods → pod_Namespace pod = rs_Namespace ruleSet) →
  (∀ pod stored, pod ∈ selectedPods →
     w_pods (step_run (Reconcile_pipeline rt r ruleSet selectedPods result) w).2
       !! pod_key pod = Some stored →
     rs_Name ruleSet ∈ pod_RuleSets stored)
  ∧ (∀ name stored, name ∈ status_Targets (rs_Status ruleSet) →
       name ∉ pod_Name <$> selectedPods →
       w_pods (step_run (Reconcile_pipeline rt r ruleSet selectedPods result) w).2
         !! (rs_Namespace ruleSet, name) = Some stored →
       rs_Name ruleSet ∉ pod_RuleSets stored)
  ∧ (∀ namespace name,
       (namespace = rs_Namespace ruleSet →
        (name ∉ pod_Name <$> selectedPods)
        ∧ (name ∉ status_Targets (rs_Status ruleSet))) →
       w_pods (step_run (Reconcile_pipeline rt r ruleSet selectedPods result) w).2
         !! (namespace, name)
       = w_pods w !! (namespace, name)).
Proof.
  intros Hff Hok Hexp Hns.
  pose proof (Reconcile_select_no_expectations selectedPods w Hexp) as Hsel.
  set (names := list_to_set (pod_Name <$> selectedPods) : gset string) in *.
  set (targets := foldl (λ (m : gmap string Pod) pod, <[pod_Name pod := pod]> m) ∅
                    selectedPods) in *.
  destruct (Reconcile_release_loop_fault_free ruleSet names result
              (status_Targets (rs_Status ruleSet)) w Hff Hok) as (w2 & Hrel & Ht1).
  destruct (Reconcile_own_loop_fault_free ruleSet result (go_range rt targets) targets w2)
    as (pods' & w3 & Hown & Ht2 & _);
    [by eapply touched_fault_free | by eapply touched_store_ok |].
  rewrite (Reconcile_pipeline_pods rt r ruleSet selectedPods result w names targets
             w w2 w3 pods' Hsel Hrel Hown).
  destruct Ht1 as (_ & _ & Hg1 & Ho1 & _ & _).
  destruct Ht2 as (_ & _ & Hg2 & Ho2 & _ & _).
  assert (∀ key, key ∈ (λ e : string * Pod, pod_key e.2) <$> go_range rt targets →
                 ∃ pod, pod ∈ selectedPods ∧ key = (rs_Namespace ruleSet, pod_Name pod))
    as Hkeys2.
  { intros key ([name pod] & -> & Hin%go_range_elem_of)%list_elem_of_fmap. simpl.
    apply foldl_insert_by_name_lookup in Hin as [[Hin _]|Hin];
      [|by rewrite lookup_empty in Hin].
    exists pod. split; [done|]. unfold pod_key. by rewrite (Hns pod Hin). }
  assert (∀ pod, pod ∈ selectedPods →
                 pod_key pod ∈ (λ e : string * Pod, pod_key e.2) <$> go_range rt targets)
    as Hsel2.
  { intros pod Hin.
    assert (is_Some (targets !! pod_Name pod)) as [pod' Hpod'].
    { apply elem_of_dom. unfold targets.
      rewrite foldl_insert_by_name_dom, dom_empty_L, (left_id_L ∅ (∪)).
      apply elem_of_list_to_set. by apply list_elem_of_fmap_2. }
    apply list_elem_of_fmap. exists (pod_Name pod, pod'). split.
    - simpl. apply foldl_insert_by_name_lookup in Hpod' as Hl.
      destruct Hl as [[Hin' Hname]|Hl]; [|by rewrite lookup_empty in Hl].
      unfold pod_key. by rewrite (Hns pod Hin), (Hns pod' Hin'), Hname.
    - by apply go_range_elem_of. }
  split_and!.
  - intros pod stored Hin Hstored. by apply (Hg2 (pod_key pod) (Hsel2 pod Hin) stored).
  - intros name stored Hrec Hnot Hstored.
    rewrite Ho2 in Hstored.
    + apply (Hg1 (rs_Namespace ruleSet, name)); [|done].
      apply list_elem_of_fmap. exists name. split; [done|].
      apply list_elem_of_filter. split; [|done].
      unfold names. by rewrite elem_of_list_to_set.
    + intros (pod & Hin & [= ->])%Hkeys2. apply Hnot. by apply list_elem_of_fmap_2.
  - intros namespace name Hout. rewrite Ho2, Ho1; [done| |].
    + intros (n & [= -> ->] & [_ Hrec]%list_elem_of_filter)%list_elem_of_fmap.
      by destruct (Hout eq_refl).
    + intros (pod & Hin & [= -> ->])%Hkeys2.
      destruct (Hout eq_refl) as [Hnot _]. apply Hnot. by apply list_elem_of_fmap_2.
Qed.

Lemma Reconcile_pipeline_ownership_delta_witness :
  (∀ pod stored, pod ∈ [example_pod "web-1" None ["rs"]; example_pod "web-2" None []] →
     w_pods (step_run (Reconcile_pipeline runtime_inorder example_reconciler
                         example_ruleset_recorded
                         [example_pod "web-1" None ["rs"]; example_pod "web-2" None []]
                         Result_empty) example_world_delta).2
       !! pod_key pod = Some stored →
     rs_Name example_ruleset_recorded ∈ pod_RuleSets stored)
  ∧ (∀ name stored, name ∈ status_Targets (rs_Status example_ruleset_recorded) →
       name ∉ pod_Name <$> [example_pod "web-1" None ["rs"]; example_pod "web-2" None []] →
       w_pods (step_run (Reconcile_pipeline runtime_inorder example_reconciler
                           example_ruleset_recorded
                           [example_pod "web-1" None ["rs"]; example_pod "web-2" None []]
                           Result_empty) example_world_delta).2
         !! (rs_Namespace example_ruleset_recorded, name) = Some stored →
       rs_Name example_ruleset_recorded ∉ pod_RuleSets stored).
Proof.
  pose proof (Reconcile_pipeline_ownership_delta runtime_inorder example_reconciler
                example_ruleset_recorded
                [example_pod "web-1" None ["rs"]; example_pod "web-2" None []]
                Result_empty example_world_delta eq_refl (world_of_store_ok _ _ _ _)
                eq_refl) as Hdelta.
  destruct Hdelta as (Hclaim & Hrelease & _).
  - intros pod Hin. apply elem_of_cons in Hin as [->|Hin]; [done|].
    by apply list_elem_of_singleton in Hin as ->.
  - by split.
Defined.

(** The same pass, evaluated: [web-0] released, [web-1] and [web-2]
    claimed. *)
Example Reconcile_pipeline_ownership_delta_example :
  (λ name, pod_RuleSets <$>
             w_pods (step_run (Reconcile_pipeline runtime_inorder example_reconciler
                                 example_ruleset_recorded
                                 [example_pod "web-1" None ["rs"];
                                  example_pod "web-2" None []]
                                 Result_empty) example_world_delta).2 !! ("prod", name))
    <$> ["web-0"; "web-1"; "web-2"]
  = [Some []; Some ["rs"]; Some ["rs"]].
Proof. vm_compute. reflexivity. Qed.
